(** * pyRouterJig: router-bit geometry, cut passes, edge propagation,
      board-stack assembly and the persisted record.

    The development follows [router.py] and [serialize.py].

    Numbers.  Every length and position of the program is a [Decimal], an
    [int] or a [float] holding a short decimal; they are modelled by exact
    rationals [Q], and comparisons are the rational ones.  Three operations of
    [Router_Bit.reinit] involve the binary expansion of a tangent and are
    rounded to the precision of the decimal context; together with the float
    operations of the setters they are kept abstract in [Numerics].  The
    tangent of an angle in use is taken to be a non-zero number (division is
    total in the model).

    Loops.  The [while] loop of [Cut.make_router_passes] is run on fuel: a
    result [None] stands for a loop that has not ended; more fuel never
    changes a result ([make_router_passes_more_fuel]), the loop ends when
    the sub-pass is one increment at least ([make_router_passes_returns]) and
    need not when it is zero ([zero_sub_pass_never_returns]). *)

From Stdlib Require Import ZArith QArith Qround List String Bool Lia Lqa.
From Stdlib Require Import Sorting.Permutation Sorting.Mergesort Orders.
From Stdlib Require Import Sorting.Sorted.
Import ListNotations.

Set Implicit Arguments.

(* ------------------------------------------------------------------ *)
(** ** Decimal and integer helpers *)

Module Dec.

Local Open Scope Q_scope.

Definition Qltb (a b : Q) : bool := negb (Qle_bool b a).
Definition Qleb (a b : Q) : bool := Qle_bool a b.
Definition Qeqb (a b : Q) : bool := Qeq_bool a b.

(** [int(x)]: truncation toward zero. *)
Definition Qtrunc (q : Q) : Z :=
  if Qleb 0 q then Qfloor q else Qceiling q.

(** [x.to_integral_value(rounding=ROUND_HALF_DOWN)]: to the nearest integer,
    ties toward zero. *)
Definition round_half_down (q : Q) : Z :=
  if Qleb 0 q then Qceiling (q - (1#2)) else Qfloor (q + (1#2)).

(** Rounding to the nearest integer with ties toward the lower integer, the
    reading of the tie-break given in the specification. *)
Definition round_ties_lower (q : Q) : Z := Qceiling (q - (1#2)).

(** Modelled from the spec: [utils.math_round] is not among the sources; the
    spec calls it [round].  It is taken as rounding to the nearest integer
    with ties away from zero. *)
Definition round_half_up (q : Q) : Z :=
  if Qleb 0 q then Qfloor (q + (1#2)) else Qceiling (q - (1#2)).

(** Rounding to the nearest integer, ties to the even one (the default
    rounding of the decimal context, used by [quantize]). *)
Definition round_half_even (q : Q) : Z :=
  let n := Qfloor q in
  let frac := q - inject_Z n in
  if Qltb frac (1#2) then n
  else if Qltb (1#2) frac then (n + 1)%Z
  else if Z.even n then n else (n + 1)%Z.

(** [x.quantize(Decimal('0.0001'))]. *)
Definition quantize4 (q : Q) : Q :=
  inject_Z (round_half_even (q * 10000)) / 10000.

(** [a // b] on decimals: the quotient truncated toward zero. *)
Definition floordiv (a b : Q) : Q := inject_Z (Qtrunc (a / b)).

Definition Qmax (a b : Q) : Q := if Qleb b a then a else b.
Definition Qmin (a b : Q) : Q := if Qleb a b then a else b.

Lemma Qltb_lt a b : Qltb a b = true <-> a < b.
Proof.
  unfold Qltb. rewrite negb_true_iff.
  split; intro H.
  - apply Qnot_le_lt. intro Hle. apply Qle_bool_iff in Hle. congruence.
  - destruct (Qle_bool b a) eqn:E; [|reflexivity].
    apply Qle_bool_iff in E. exfalso. apply (Qlt_not_le _ _ H E).
Qed.

Lemma Qltb_ge a b : Qltb a b = false <-> b <= a.
Proof.
  unfold Qltb. rewrite negb_false_iff. apply Qle_bool_iff.
Qed.

Lemma Qleb_le a b : Qleb a b = true <-> a <= b.
Proof. apply Qle_bool_iff. Qed.

Lemma Qleb_gt a b : Qleb a b = false <-> b < a.
Proof.
  unfold Qleb. split; intro H.
  - apply Qnot_le_lt. intro Hle. apply Qle_bool_iff in Hle. congruence.
  - destruct (Qle_bool a b) eqn:E; [|reflexivity].
    apply Qle_bool_iff in E. exfalso. apply (Qlt_not_le _ _ H E).
Qed.

Lemma Qeqb_eq a b : Qeqb a b = true <-> a == b.
Proof. apply Qeq_bool_iff. Qed.

(** On non-negative numbers the two tie-breaks agree. *)
Lemma round_half_down_nonneg q :
  0 <= q -> round_half_down q = round_ties_lower q.
Proof.
  intro H. unfold round_half_down, round_ties_lower.
  apply Qleb_le in H. now rewrite H.
Qed.

(** On non-negative numbers [int] is the floor. *)
Lemma Qtrunc_nonneg q : 0 <= q -> Qtrunc q = Qfloor q.
Proof.
  intro H. unfold Qtrunc. apply Qleb_le in H. now rewrite H.
Qed.

End Dec.

Import Dec.

Local Open Scope Q_scope.

(* ------------------------------------------------------------------ *)
(** ** Exceptions and the state-and-exception monad of the setters *)

(** [Router_Exception] is the program's only geometry error; the other
    constructors are the Python exceptions that can escape the modelled
    functions. *)
Inductive exn : Type :=
| Router_Exception
| InvalidOperation
| IndexError
| TypeError
| EOFError
| UnpicklingError.

Definition result (A : Type) : Type := (exn + A)%type.

(** A computation on a mutable object of type [S] that may raise. *)
Definition M (S A : Type) : Type := S -> S * result A.

Definition ret {S A} (a : A) : M S A := fun s => (s, inr a).
Definition raise {S A} (e : exn) : M S A := fun s => (s, inl e).
Definition bind {S A B} (m : M S A) (k : A -> M S B) : M S B :=
  fun s => match m s with
           | (s', inl e) => (s', inl e)
           | (s', inr a) => k a s'
           end.
Definition get {S} : M S S := fun s => (s, inr s).
Definition modify {S} (f : S -> S) : M S unit := fun s => (f s, inr tt).

(** [try: ... except: raise e]: any exception of the body becomes [e]. *)
Definition try_except {S A} (m : M S A) (e : exn) : M S A :=
  fun s => match m s with
           | (s', inl _) => (s', inl e)
           | r => r
           end.

(** A call that may raise without touching the object. *)
Definition lift {S A} (o : option A) (e : exn) : M S A :=
  match o with Some a => ret a | None => raise e end.

Declare Scope monad_scope.
Delimit Scope monad_scope with monad.
Notation "x <- m ;; k" := (bind m (fun x => k))
  (at level 61, m at next level, right associativity) : monad_scope.
Notation "m ;;; k" := (bind m (fun _ => k))
  (at level 61, right associativity) : monad_scope.

(* ------------------------------------------------------------------ *)
(** ** Units and numerics: the collaborators of [router.py] *)

(** The part of [utils.Units] that [Router_Bit] calls.  A parser returns
    [None] where the Python raises. *)
Record Units : Type := {
  metric : bool;
  mm_per_inch : Q;
  string_to_float : string -> option Q;
  string_to_increments : string -> bool -> option Q
}.

(** Operations whose result is rounded (decimal context, IEEE doubles).
    [tan_deg a] is [D(math.tan(math.radians(a)))]; [decimal_of_string s] is
    [D(s)], [None] where it raises [InvalidOperation]. *)
Record Numerics : Type := {
  tan_deg : Q -> Q;
  dec_mul : Q -> Q -> Q;
  dec_sub : Q -> Q -> Q;
  dec_div : Q -> Q -> Q;
  float_mul : Q -> Q -> Q;
  float_div : Q -> Q -> Q;
  decimal_of_string : string -> option Q
}.

(* ------------------------------------------------------------------ *)
(** ** Router_Bit *)

Record Router_Bit : Type := {
  width : Q;
  depth : Q;
  angle : Q;
  bit_gentle : Q;
  midline : Q;
  depth_0 : Q;
  width_f : Q;
  overhang : Q;
  gap : Q
}.

Definition with_width (v : Q) (b : Router_Bit) : Router_Bit :=
  {| width := v; depth := depth b; angle := angle b;
     bit_gentle := bit_gentle b; midline := midline b; depth_0 := depth_0 b;
     width_f := width_f b; overhang := overhang b; gap := gap b |}.

Definition with_depth (v : Q) (b : Router_Bit) : Router_Bit :=
  {| width := width b; depth := v; angle := angle b;
     bit_gentle := bit_gentle b; midline := midline b; depth_0 := depth_0 b;
     width_f := width_f b; overhang := overhang b; gap := gap b |}.

Definition with_angle (v : Q) (b : Router_Bit) : Router_Bit :=
  {| width := width b; depth := depth b; angle := v;
     bit_gentle := bit_gentle b; midline := midline b; depth_0 := depth_0 b;
     width_f := width_f b; overhang := overhang b; gap := gap b |}.

Definition with_gentle (v : Q) (b : Router_Bit) : Router_Bit :=
  {| width := width b; depth := depth b; angle := angle b;
     bit_gentle := v; midline := midline b; depth_0 := depth_0 b;
     width_f := width_f b; overhang := overhang b; gap := gap b |}.

Section Bit.

Variable N : Numerics.
Variable U : Units.

(** [Router_Bit.reinit].  [D(repr(x))] and [D(x)] are the number itself. *)
Definition reinit (b : Router_Bit) : Router_Bit :=
  let midline1 := width b in
  let depth_01 := depth b in
  let width_f1 := width b in
  let gap1 := 0 in
  let '(midline2, gap2, depth_02) :=
    if Qltb 0 (angle b) then
      let tan := tan_deg N (angle b) in
      let offset := dec_mul N (depth b) tan in
      let midline_f := dec_sub N width_f1 offset in
      let midline_i := inject_Z (round_half_down midline_f) in
      (midline_i, midline_f - midline_i,
       dec_div N (width_f1 - midline_i) tan)
    else (midline1, gap1, depth_01) in
  {| width := width b; depth := depth b; angle := angle b;
     bit_gentle := bit_gentle b;
     midline := midline2; depth_0 := depth_02; width_f := width_f1;
     overhang := (width_f1 - midline2) / 2; gap := gap2 |}.

(** [Router_Bit.__init__]. *)
Definition Router_Bit_init (width depth angle bit_gentle : Q) : Router_Bit :=
  reinit {| width := width; depth := depth; angle := angle;
            bit_gentle := bit_gentle;
            midline := 0; depth_0 := 0; width_f := width;
            overhang := (width - 0) / 2; gap := 0 |}.

Local Open Scope monad_scope.

Definition do_reinit : M Router_Bit unit := modify reinit.

(** [Router_Bit.set_gentle_from_string]. *)
Definition set_gentle_from_string (s : string) : M Router_Bit unit :=
  try_except
    (bit_gentle <- lift (string_to_float U s) TypeError ;;
     if Qltb bit_gentle 1 || Qltb 100 bit_gentle
     then raise TypeError else ret tt)
    Router_Exception ;;;
  d <- lift (decimal_of_string N s) InvalidOperation ;;
  modify (with_gentle d) ;;;
  do_reinit.

(** [Router_Bit.set_width_from_string]. *)
Definition set_width_from_string (s : string) : M Router_Bit unit :=
  width <- try_except
    (if metric U then
       width <- lift (string_to_float U s) TypeError ;;
       ret (if Qleb width 1 then float_mul N width (mm_per_inch U) else width)
     else lift (string_to_increments U s true) TypeError)
    Router_Exception ;;
  if Qleb width 0 then raise Router_Exception else
  let halfwidth := inject_Z (Qfloor (width / 2)) in
  self <- get ;;
  if (negb (Qeqb (2 * halfwidth) width)
      || negb (Qeqb (inject_Z (Qfloor width)) width))
     && Qeqb (angle self) 0
  then raise Router_Exception else
  modify (with_width width) ;;;
  do_reinit.

(** [Router_Bit.set_depth_from_string]. *)
Definition set_depth_from_string (s : string) : M Router_Bit unit :=
  depth <- try_except
    (depth <- lift (string_to_increments U s false) TypeError ;;
     self <- get ;;
     if Qltb 0 (angle self)
        && Qleb (float_div N (float_div N (width self) (35 # 10))
                             (tan_deg N (angle self))) depth
     then raise TypeError else ret depth)
    Router_Exception ;;
  if Qleb depth 0 then raise Router_Exception else
  modify (with_depth depth) ;;;
  do_reinit.

(** [Router_Bit.set_angle_from_string]. *)
Definition set_angle_from_string (s : string) : M Router_Bit unit :=
  angle <- try_except
    (angle <- lift (string_to_float U s) TypeError ;;
     self <- get ;;
     if Qeqb angle 0
        && negb (Qeqb (inject_Z (Qfloor (width_f self))) (width_f self))
     then raise TypeError else ret angle)
    Router_Exception ;;
  if Qltb angle 0 then raise Router_Exception else
  modify (with_angle angle) ;;;
  do_reinit.

End Bit.

(* ------------------------------------------------------------------ *)
(** ** Cut and Board *)

(** [Cut]: the interval and its router passes (bit-centre positions). *)
Record Cut : Type := {
  xmin : Q;
  xmax : Q;
  passes : list Z
}.

(** [Cut.precision]. *)
Definition precision : Q := 1 # 100.

(** [Cut.__init__]. *)
Definition Cut_init (xmin xmax : Q) : Cut :=
  {| xmin := xmin; xmax := xmax; passes := [] |}.

(** The attributes of [Board] that the cut computations read or write;
    [bwidth] is the attribute [width] ([dheight], like it, an integer number
    of increments). *)
Record Board : Type := {
  bwidth : Z;
  dheight : Z;
  active : bool;
  bottom_cuts : option (list Cut);
  top_cuts : option (list Cut)
}.

Definition with_bottom_cuts (cs : list Cut) (b : Board) : Board :=
  {| bwidth := bwidth b; dheight := dheight b; active := active b;
     bottom_cuts := Some cs; top_cuts := top_cuts b |}.

Definition with_top_cuts (cs : list Cut) (b : Board) : Board :=
  {| bwidth := bwidth b; dheight := dheight b; active := active b;
     bottom_cuts := bottom_cuts b; top_cuts := Some cs |}.

Module ZOrder <: TotalLeBool.
Definition t := Z.
Definition leb := Z.leb.
Infix "<=?" := leb (at level 70, no associativity).
Lemma leb_total : forall a1 a2, (a1 <=? a2) = true \/ (a2 <=? a1) = true.
Proof. intros a1 a2. unfold leb. rewrite !Z.leb_le. lia. Qed.
End ZOrder.

Module ZSort := Sort ZOrder.

(** [Cut.validate]. *)
Definition validate (c : Cut) (bit : Router_Bit) (board : Board)
  : result unit :=
  if Qleb (xmax c) (xmin c) then inl Router_Exception
  else if Qltb (xmin c) 0 then inl Router_Exception
  else if Qltb (inject_Z (bwidth board)) (xmax c) then inl Router_Exception
  else if Qltb precision (width_f bit - (xmax c - xmin c))
          && Qltb 0 (xmin c) && Qltb (xmax c) (inject_Z (bwidth board))
       then inl Router_Exception
  else inr tt.

Section Passes.

(** [utils.math_round], which is not among the sources. *)
Variable math_round : Q -> Z.

Variable bit : Router_Bit.
Variable board : Board.
Variable c : Cut.

(** [cutpass = int((bit.width_f * bit.bit_gentle) / 100)]. *)
Definition cutpass : Q :=
  inject_Z (Qtrunc ((width_f bit * bit_gentle bit) / 100)).

Definition halfwidth : Q := width_f bit / 2.

(** The right-anchored seed pass [p0]. *)
Definition seed_p0 : Q :=
  let remainder := xmax c - xmin c in
  if Qeqb (xmax c) (inject_Z (bwidth board)) && Qltb halfwidth remainder
  then xmax c + halfwidth - cutpass
  else inject_Z (math_round (xmax c - halfwidth)).

(** The left-anchored seed pass [p1]. *)
Definition seed_p1 : Q := inject_Z (math_round (xmin c + halfwidth)).

(** The passes recorded before the loop. *)
Definition first_passes : list Z :=
  if Qleb (xmax c) (inject_Z (bwidth board))
     && (Qltb (xmin c - (seed_p0 - halfwidth)) precision
         || Qeqb (xmin c) 0)
  then [Qtrunc seed_p0] else [].

(** One iteration of the body of [while remainder > 0]; the state is
    [(remainder, p1, passes)].  The divisions [//] are those of decimals,
    which truncate; they agree with the floor on the non-negative numbers,
    and a negative remainder ends the loop whatever [p1] becomes. *)
Definition loop_body (st : Q * Q * list Z) : Q * Q * list Z :=
  let '(_, p1, ps) := st in
  let p0 := seed_p0 in
  let remainder := p0 - p1 in
  let '(p1, ps) :=
    if negb (Qeqb p0 p1)
       && (Qltb ((p1 + halfwidth) - xmax c) precision
           || Qeqb (xmax c) (inject_Z (bwidth board)))
    then (inject_Z (Qtrunc p1), ps ++ [Qtrunc p1])
    else (p1, ps) in
  let p1 :=
    if Qleb remainder (floordiv (width_f bit * 2) 3)
    then p0 - floordiv remainder 2
    else p1 + cutpass in
  let remainder :=
    if Qltb remainder (floordiv (width_f bit * 4) 5) then 0 else remainder in
  (remainder, p1, ps).

(** The loop; [None] when the fuel does not suffice. *)
Fixpoint passes_loop (fuel : nat) (st : Q * Q * list Z) : option (list Z) :=
  let '(remainder, _, ps) := st in
  if Qltb 0 remainder then
    match fuel with
    | O => None
    | S fuel' => passes_loop fuel' (loop_body st)
    end
  else Some ps.

(** The final error check on one pass. *)
Definition pass_too_wide (p : Z) : bool :=
  (Qltb 0 (xmin c)
   && Qltb precision (xmin c - (inject_Z p - halfwidth)))
  || (Qltb (xmax c) (inject_Z (bwidth board))
      && Qltb precision ((inject_Z p + halfwidth) - xmax c)).

(** [Cut.make_router_passes]: [None] when the loop does not end within the
    fuel, [Some (inl e)] when the Python raises, [Some (inr c')] with the cut
    holding its passes otherwise. *)
Definition make_router_passes (fuel : nat) : option (result Cut) :=
  match validate c bit board with
  | inl e => Some (inl e)
  | inr _ =>
    match passes_loop fuel (xmax c - xmin c, seed_p1, first_passes) with
    | None => None
    | Some ps =>
      let sorted := ZSort.sort ps in
      if existsb pass_too_wide sorted then Some (inl Router_Exception)
      else Some (inr {| xmin := xmin c; xmax := xmax c; passes := sorted |})
    end
  end.

End Passes.

(* ------------------------------------------------------------------ *)
(** ** Edge cut propagation *)

(** The body of [for i in range(1, nc)]: one cut per pair of consecutive
    input cuts. *)
Fixpoint inner_cuts (offset dh w : Q) (cuts : list Cut) : list Cut :=
  match cuts with
  | c1 :: (c2 :: _) as rest =>
      Cut_init (Qmax 0 (xmax c1 - offset + dh))
               (Qmin w (xmin c2 + offset - dh))
      :: inner_cuts offset dh w rest
  | _ => []
  end.

(** [adjoining_cuts]; [cuts[0]] raises [IndexError] on an empty list. *)
Definition adjoining_cuts (cuts : list Cut) (bit : Router_Bit) (board : Board)
  : result (list Cut) :=
  let offset := width_f bit - midline bit in
  let dh := inject_Z (dheight board) in
  let w := inject_Z (bwidth board) in
  match cuts with
  | [] => inl IndexError
  | c0 :: _ =>
    let clast := last cuts c0 in
    let left_edge :=
      if Qltb 0 (xmin c0) then
        let left := 0 in
        let right := xmin c0 + offset - dh in
        if Qleb dh (right - left) then [Cut_init left (quantize4 right)]
        else []
      else [] in
    let right_edge :=
      if Qltb (xmax clast) w then
        let left := xmax clast - offset + dh in
        let right := w in
        if Qleb dh (right - left)
        then [Cut_init (Qmax 0 left) (Qmin w right)]
        else []
      else [] in
    inr (left_edge ++ inner_cuts offset dh w cuts ++ right_edge)
  end.

(* ------------------------------------------------------------------ *)
(** ** Board stack assembly *)

(** Computations that may raise or, for want of fuel, not return. *)
Definition R (A : Type) : Type := option (result A).

Definition Rret {A} (a : A) : R A := Some (inr a).
Definition Rlift {A} (r : result A) : R A := Some r.
Definition Rbind {A B} (m : R A) (k : A -> R B) : R B :=
  match m with
  | None => None
  | Some (inl e) => Some (inl e)
  | Some (inr a) => k a
  end.

Declare Scope run_scope.
Delimit Scope run_scope with run.
Notation "x <-- m ;; k" := (Rbind m (fun x => k))
  (at level 61, m at next level, right associativity) : run_scope.

(** [boards[i]]. *)
Definition board_at (boards : list Board) (i : nat) : R Board :=
  match nth_error boards i with
  | Some b => Rret b
  | None => Some (inl IndexError)
  end.

(** The list with the board at index [i] replaced (the boards are mutated in
    place). *)
Fixpoint store_board (i : nat) (b : Board) (boards : list Board)
  : list Board :=
  match boards, i with
  | [], _ => []
  | _ :: rest, O => b :: rest
  | x :: rest, S i' => x :: store_board i' b rest
  end.

Section Stack.

Variable math_round : Q -> Z.
Variable fuel : nat.
Variable bit : Router_Bit.

Local Open Scope run_scope.

(** [for c in cuts: c.make_router_passes(bit, self)]. *)
Fixpoint make_all_passes (board : Board) (cuts : list Cut) : R (list Cut) :=
  match cuts with
  | [] => Rret []
  | c :: rest =>
      c' <-- make_router_passes math_round bit board c fuel ;;
      rest' <-- make_all_passes board rest ;;
      Rret (c' :: rest')
  end.

(** [Board.set_bottom_cuts] and [Board.set_top_cuts] on [boards[i]]; the
    cuts, now holding their passes, are returned with the boards. *)
Definition set_bottom_cuts (i : nat) (cuts : list Cut) (boards : list Board)
  : R (list Cut * list Board) :=
  b <-- board_at boards i ;;
  cuts' <-- make_all_passes b cuts ;;
  Rret (cuts', store_board i (with_bottom_cuts cuts' b) boards).

Definition set_top_cuts (i : nat) (cuts : list Cut) (boards : list Board)
  : R (list Cut * list Board) :=
  b <-- board_at boards i ;;
  cuts' <-- make_all_passes b cuts ;;
  Rret (cuts', store_board i (with_top_cuts cuts' b) boards).

(** The block of [cut_boards] for the reinforcement board [boards[i]]
    (written out twice in the source, for [i = 3] and [i = 2]). *)
Definition through_board (i : nat) (last : list Cut) (boards : list Board)
  : R (list Cut * list Board) :=
  b0 <-- board_at boards 0 ;;
  top <-- Rlift (adjoining_cuts last bit b0) ;;
  r <-- set_top_cuts i top boards ;;
  let '(top, boards) := r in
  bi <-- board_at boards i ;;
  last <-- Rlift (adjoining_cuts top bit bi) ;;
  set_bottom_cuts i last boards.

(** The last step: the top cuts of the bottom board [boards[1]]. *)
Definition bottom_board (last : list Cut) (boards : list Board)
  : R (list Board) :=
  b1 <-- board_at boards 1 ;;
  top <-- Rlift (adjoining_cuts last bit b1) ;;
  r <-- set_top_cuts 1 top boards ;;
  Rret (snd r).

(** [cut_boards]: the boards with their cuts, [spacing_cuts] being
    [spacing.cuts].  The boards left behind by an exception are not
    modelled. *)
Definition cut_boards (boards : list Board) (spacing_cuts : list Cut)
  : R (list Board) :=
  r <-- set_bottom_cuts 0 spacing_cuts boards ;;
  let '(last, boards) := r in
  b3 <-- board_at boards 3 ;;
  r <-- (if active b3 then through_board 3 last boards
         else Rret (last, boards)) ;;
  let '(last, boards) := r in
  b2 <-- board_at boards 2 ;;
  r <-- (if active b2 then through_board 2 last boards
         else Rret (last, boards)) ;;
  let '(last, boards) := r in
  bottom_board last boards.

(** The pipeline as the specification words it: the step of [boards[2]] is
    taken only when [boards[3]] is not active. *)
Definition cut_boards_spec (boards : list Board) (spacing_cuts : list Cut)
  : R (list Board) :=
  r <-- set_bottom_cuts 0 spacing_cuts boards ;;
  let '(last, boards) := r in
  b3 <-- board_at boards 3 ;;
  r <-- (if active b3 then through_board 3 last boards
         else
           b2 <-- board_at boards 2 ;;
           if active b2 then through_board 2 last boards
           else Rret (last, boards)) ;;
  let '(last, boards) := r in
  bottom_board last boards.

End Stack.

(* ------------------------------------------------------------------ *)
(** ** The persisted record ([serialize.py]) *)

Module Serialize.

(** The objects of a pickle stream.  The byte encoding (pickle, quoted
    printable) is the library's; a record is the list of objects that
    successive [load()] calls return; [PObj] stands for any other object (the
    parameters of a spacing), named by its [repr]. *)
Inductive pval : Type :=
| PNone
| PBool (b : bool)
| PInt (z : Z)
| PFloat (q : Q)
| PStr (s : string)
| PCuts (cuts : list Cut)
| PObj (repr : string).

(** A [router.Board] as [unserialize] leaves it: the five attributes it
    assigns, with whatever object the record holds. *)
Record Board : Type := {
  width : pval;
  height : pval;
  wood : pval;
  active : pval;
  dheight : pval
}.

(** [utils.Units(config.english_separator, metric, num_increments, transl)]. *)
Record Units : Type := {
  metric : pval;
  num_increments : pval
}.

(** The spacing object that [unserialize] builds.  The classes of the module
    [spacing] are not among the sources: an object is represented by its
    class, the arguments it was given and whether [upgrade()] was called. *)
Inductive Spacing : Type :=
| Edit_Spaced (cuts : pval)
| Equally_Spaced (params : pval) (upgraded : bool)
| Variable_Spaced (params : pval) (upgraded : bool).

(** The tuple [(bit, boards, sp, sp_type, description)], with the units of
    the bit. *)
Record Loaded : Type := {
  units : Units;
  bit : Router_Bit;
  boards : list Board;
  sp : Spacing;
  sp_type : pval;
  description : pval
}.

(** What [serialize] reads of its arguments. *)
Record Saved : Type := {
  s_units : Units;
  s_width : pval;
  s_depth : pval;
  s_angle : pval;
  s_boards : list Board;
  s_sp_description : string;
  s_sp_cuts : pval;
  s_sp_params : pval;
  s_description : pval
}.

Definition dump_board (b : Board) : list pval :=
  [width b; height b; wood b; active b; dheight b].

(** [serialize], up to the byte encoding; [version] is [utils.VERSION]. *)
Definition serialize (version : pval) (x : Saved) : list pval :=
  let sp_type := substring 0 4 (s_sp_description x) in
  [version; metric (s_units x); num_increments (s_units x);
   s_width x; s_depth x; s_angle x;
   PInt (Z.of_nat (List.length (s_boards x)))]
  ++ flat_map dump_board (s_boards x)
  ++ [PStr sp_type;
      if String.eqb sp_type "Edit" then s_sp_cuts x else s_sp_params x;
      s_description x].

Section Unserialize.

Variable N : Numerics.

Local Open Scope monad_scope.

Definition U (A : Type) : Type := M (list pval) A.

(** [u.load()]. *)
Definition load : U pval :=
  fun stream => match stream with
                | [] => ([], inl EOFError)
                | v :: rest => (rest, inr v)
                end.

(** The number that [D(repr(v))] yields. *)
Definition decimal_of (v : pval) : option Q :=
  match v with
  | PInt z => Some (inject_Z z)
  | PFloat q => Some q
  | _ => None
  end.

(** The number that [v > 0] compares. *)
Definition number_of (v : pval) : option Q :=
  match v with
  | PInt z => Some (inject_Z z)
  | PFloat q => Some q
  | PBool b => Some (if b then 1 else 0)
  | _ => None
  end.

(** [router.Router_Bit(units, width, depth, angle)]. *)
Definition new_bit (width depth angle : pval) : U Router_Bit :=
  w <- lift (decimal_of width) InvalidOperation ;;
  d <- lift (decimal_of depth) InvalidOperation ;;
  a <- lift (number_of angle) TypeError ;;
  ret (Router_Bit_init N w d a 33).

(** [range(nb)]. *)
Definition range_of (nb : pval) : U nat :=
  match nb with
  | PInt z => ret (Z.to_nat z)
  | PBool b => ret (if b then 1%nat else 0%nat)
  | _ => raise TypeError
  end.

Definition load_board : U Board :=
  w <- load ;; h <- load ;; wd <- load ;; a <- load ;; dh <- load ;;
  ret {| width := w; height := h; wood := wd; active := a; dheight := dh |}.

Fixpoint load_boards (n : nat) : U (list Board) :=
  match n with
  | O => ret []
  | S n' => b <- load_board ;; bs <- load_boards n' ;; ret (b :: bs)
  end.

Definition is_str (v : pval) (s : string) : bool :=
  match v with
  | PStr t => String.eqb t s
  | _ => false
  end.

(** The body of [unserialize] on the unpickler. *)
Definition unserialize_body (newformat : bool) : U Loaded :=
  version <- load ;;
  metric <- load ;;
  num_increments <- load ;;
  let units := {| metric := metric; num_increments := num_increments |} in
  width <- load ;;
  depth <- load ;;
  angle <- load ;;
  bit <- new_bit width depth angle ;;
  nb <- load ;;
  n <- range_of nb ;;
  boards <- load_boards n ;;
  sp_type <- load ;;
  if is_str sp_type "Edit" then
    cuts <- load ;;
    ret {| units := units; bit := bit; boards := boards;
           sp := Edit_Spaced cuts; sp_type := sp_type;
           description := PNone |}
  else
    params <- load ;;
    let make := if is_str sp_type "Equa"
                then Equally_Spaced else Variable_Spaced in
    if newformat then
      description <- load ;;
      ret {| units := units; bit := bit; boards := boards;
             sp := make params false; sp_type := sp_type;
             description := description |}
    else
      ret {| units := units; bit := bit; boards := boards;
             sp := make params true; sp_type := sp_type;
             description := PNone |}.

(** [unserialize]: [stream] holds the objects of the string [s]. *)
Definition unserialize (stream : list pval) (newformat : bool)
  : result Loaded :=
  snd (unserialize_body newformat stream).

End Unserialize.

End Serialize.

(* ------------------------------------------------------------------ *)
(** ** Concrete collaborators and inputs for the examples *)

(** The angle, in degrees, whose tangent the doubles compute as exactly
    [0.25]. *)
Definition angle_quarter : Q := 14036243467926479 # 1000000000000000.

(** Tangents, as the doubles give them, of the angles of the examples. *)
Definition sample_tan (a : Q) : Q :=
  if Qeqb a angle_quarter then 1 # 4
  else if Qeqb a 14 then 2245747001395157 # 9007199254740992
  else 1.

(** Decimal literals of the examples. *)
Definition sample_number (s : string) : option Q :=
  if String.eqb s "1" then Some 1
  else if String.eqb s "6" then Some 6
  else if String.eqb s "24" then Some 24
  else if String.eqb s "33" then Some 33
  else if String.eqb s "0" then Some 0
  else None.

(** Numerics in which the rounded operations are exact: they are on the
    short decimals of the examples. *)
Definition ideal_numerics : Numerics :=
  {| tan_deg := sample_tan;
     dec_mul := Qmult; dec_sub := Qminus; dec_div := Qdiv;
     float_mul := Qmult; float_div := Qdiv;
     decimal_of_string := sample_number |}.

Definition metric_units : Units :=
  {| metric := true; mm_per_inch := 254 # 10;
     string_to_float := sample_number;
     string_to_increments := fun s _ => sample_number s |}.

(** A straight bit of width 24 and depth 32, gentleness 33. *)
Definition straight24 : Router_Bit := Router_Bit_init ideal_numerics 24 32 0 33.

(** A dovetail bit of width 32 and depth 24. *)
Definition dovetail32 : Router_Bit :=
  Router_Bit_init ideal_numerics 32 24 angle_quarter 33.

(** A bit whose depth exceeds what its angle allows: the taper passes the
    bit's width by half an increment. *)
Definition deep_bit : Router_Bit :=
  Router_Bit_init ideal_numerics 2 10 angle_quarter 33.

Definition plain_board (w dh : Z) : Board :=
  {| bwidth := w; dheight := dh; active := true;
     bottom_cuts := None; top_cuts := None |}.

(* ------------------------------------------------------------------ *)
(** ** Router_Bit: derived quantities *)

Lemma reinit_inputs N b :
  width (reinit N b) = width b /\ depth (reinit N b) = depth b /\
  angle (reinit N b) = angle b /\ bit_gentle (reinit N b) = bit_gentle b /\
  width_f (reinit N b) = width b.
Proof.
  unfold reinit. destruct (Qltb 0 (angle b)); cbn; repeat split.
Qed.

(** Recomputing twice changes nothing: no derived field depends on a derived
    field. *)
Lemma reinit_idempotent N b : reinit N (reinit N b) = reinit N b.
Proof.
  unfold reinit. destruct (Qltb 0 (angle b)) eqn:E; cbn; rewrite E; reflexivity.
Qed.

(** C2, as stated, fails: with width 2, depth 10 and a tangent of 0.25 the
    taper leaves [2 - 2.5 = -0.5], a tie; the bit's midline is 0 (the tie goes
    toward zero) where rounding the tie toward the lower integer gives -1. *)
Lemma reinit_tie_toward_zero :
  midline deep_bit == 0 /\
  dec_sub ideal_numerics (width deep_bit)
    (dec_mul ideal_numerics (depth deep_bit)
       (tan_deg ideal_numerics (angle deep_bit))) == - (1 # 2) /\
  inject_Z (round_ties_lower (- (1 # 2))) == - 1.
Proof. repeat split. Qed.

(** C2 (amended): after [reinit], a bit whose angle is zero has
    [midline = width], [gap = 0] and [overhang = 0]; a bit whose angle is
    positive has [midline] equal to [width - depth * tan] rounded to the
    nearest integer with ties toward zero (which is the lower integer
    whenever [width - depth * tan] is not negative), [gap] the difference of
    the two, [depth_0 = (width - midline) / tan] and
    [overhang = (width - midline) / 2]. *)
Theorem reinit_derived N b :
  let b' := reinit N b in
  let t := tan_deg N (angle b) in
  let m := dec_sub N (width b) (dec_mul N (depth b) t) in
  (angle b == 0 ->
     midline b' = width b /\ gap b' = 0 /\ overhang b' == 0) /\
  (0 < angle b ->
     midline b' = inject_Z (round_half_down m) /\
     gap b' = m - midline b' /\
     depth_0 b' = dec_div N (width b - midline b') t /\
     overhang b' = (width b - midline b') / 2 /\
     (0 <= m -> round_half_down m = round_ties_lower m)).
Proof.
  cbv zeta. split.
  - intro Ha.
    assert (E : Qltb 0 (angle b) = false).
    { apply Qltb_ge. rewrite Ha. apply Qle_refl. }
    unfold reinit. rewrite E. cbn. repeat split.
    field.
  - intro Ha. apply Qltb_lt in Ha.
    unfold reinit. rewrite Ha. cbn. repeat split.
    apply round_half_down_nonneg.
Qed.

Lemma reinit_derived_witness :
  (midline (reinit ideal_numerics straight24) = 24 /\
   gap (reinit ideal_numerics straight24) = 0 /\
   overhang (reinit ideal_numerics straight24) == 0) /\
  (midline (reinit ideal_numerics dovetail32) = inject_Z 26 /\
   overhang (reinit ideal_numerics dovetail32) == 3).
Proof.
  split.
  - apply (proj1 (reinit_derived ideal_numerics straight24)). reflexivity.
  - destruct (proj2 (reinit_derived ideal_numerics dovetail32))
      as (Hm & _ & _ & Ho & _); [reflexivity|].
    split.
    + exact Hm.
    + rewrite Ho. reflexivity.
Defined.

(* ------------------------------------------------------------------ *)
(** ** Router_Bit: the setters *)

Section Setters.

Variable N : Numerics.
Variable U : Units.

(** The outcome of a setter that validated the value [v] for a field. *)
Definition stored (set : Q -> Router_Bit -> Router_Bit) (v : Q)
  (b : Router_Bit) : Router_Bit * result unit :=
  (reinit N (set v b), inr tt).

(** The outcome of a setter that raised [e]: the bit is as it was. *)
Definition refused (e : exn) (b : Router_Bit) : Router_Bit * result unit :=
  (b, inl e).

Ltac run_setter :=
  unfold bind, try_except, lift, get, modify, ret, raise, do_reinit,
    stored, refused; cbn.

(** The value that [set_width_from_string] validates and stores. *)
Definition width_of_string (s : string) : option Q :=
  if metric U then
    match string_to_float U s with
    | Some w => Some (if Qleb w 1 then float_mul N w (mm_per_inch U) else w)
    | None => None
    end
  else string_to_increments U s true.

(** The straight-bit test of [set_width_from_string]. *)
Definition uneven (w : Q) : bool :=
  negb (Qeqb (2 * inject_Z (Qfloor (w / 2))) w)
  || negb (Qeqb (inject_Z (Qfloor w)) w).

Lemma set_width_outcome s b :
  set_width_from_string N U s b =
  match width_of_string s with
  | None => refused Router_Exception b
  | Some w =>
      if Qleb w 0 || (uneven w && Qeqb (angle b) 0)
      then refused Router_Exception b
      else stored with_width w b
  end.
Proof.
  unfold set_width_from_string, width_of_string, uneven. run_setter.
  destruct (metric U).
  - destruct (string_to_float U s) as [w|]; cbn; [|reflexivity].
    destruct (Qleb w 1); cbn;
      match goal with |- context [Qleb ?x 0] => destruct (Qleb x 0) end;
      cbn; try reflexivity;
      match goal with |- context [if ?c then _ else _] => destruct c end;
      reflexivity.
  - destruct (string_to_increments U s true) as [w|]; cbn; [|reflexivity].
    destruct (Qleb w 0); cbn; [reflexivity|].
    match goal with |- context [if ?c then _ else _] => destruct c end;
      reflexivity.
Qed.

(** The depth limit of a dovetail bit, as [set_depth_from_string] tests it. *)
Definition too_deep (b : Router_Bit) (d : Q) : bool :=
  Qltb 0 (angle b)
  && Qleb (float_div N (float_div N (width b) (35 # 10))
                       (tan_deg N (angle b))) d.

Lemma set_depth_outcome s b :
  set_depth_from_string N U s b =
  match string_to_increments U s false with
  | None => refused Router_Exception b
  | Some d =>
      if too_deep b d || Qleb d 0 then refused Router_Exception b
      else stored with_depth d b
  end.
Proof.
  unfold set_depth_from_string, too_deep. run_setter.
  destruct (string_to_increments U s false) as [d|]; cbn; [|reflexivity].
  match goal with |- context [Qltb 0 (angle b) && ?c] =>
    destruct (Qltb 0 (angle b) && c) end; cbn; [reflexivity|].
  destruct (Qleb d 0); reflexivity.
Qed.

Lemma set_angle_outcome s b :
  set_angle_from_string N U s b =
  match string_to_float U s with
  | None => refused Router_Exception b
  | Some a =>
      if (Qeqb a 0
          && negb (Qeqb (inject_Z (Qfloor (width_f b))) (width_f b)))
         || Qltb a 0
      then refused Router_Exception b
      else stored with_angle a b
  end.
Proof.
  unfold set_angle_from_string. run_setter.
  destruct (string_to_float U s) as [a|]; cbn; [|reflexivity].
  match goal with |- context [Qeqb a 0 && ?c] =>
    destruct (Qeqb a 0 && c) end; cbn; [reflexivity|].
  destruct (Qltb a 0); reflexivity.
Qed.

Lemma set_gentle_outcome s b :
  set_gentle_from_string N U s b =
  match string_to_float U s with
  | None => refused Router_Exception b
  | Some g =>
      if Qltb g 1 || Qltb 100 g then refused Router_Exception b
      else match decimal_of_string N s with
           | None => refused InvalidOperation b
           | Some d => stored with_gentle d b
           end
  end.
Proof.
  unfold set_gentle_from_string. run_setter.
  destruct (string_to_float U s) as [g|]; cbn; [|reflexivity].
  destruct (Qltb g 1 || Qltb 100 g); cbn; [reflexivity|].
  destruct (decimal_of_string N s); reflexivity.
Qed.

End Setters.

(** Units whose float parser reads the fraction "7 1/2", one of the two
    examples that the message of [set_angle_from_string] gives. *)
Definition fraction_units : Units :=
  {| metric := false; mm_per_inch := 254 # 10;
     string_to_float :=
       fun s => if String.eqb s "7 1/2" then Some (15 # 2)
                else sample_number s;
     string_to_increments := fun s _ => sample_number s |}.






(* ------------------------------------------------------------------ *)
(** ** Cut: pass synthesis *)

Lemma existsb_false_Forall {A} (f : A -> bool) (l : list A) :
  existsb f l = false -> Forall (fun x => f x = false) l.
Proof.
  induction l as [|x l IH]; cbn; intro H; constructor.
  - now apply orb_false_iff in H.
  - apply IH. now apply orb_false_iff in H.
Qed.

(** A pass between [-1] and an integer bound, strictly. *)
Lemma pass_nonneg (p : Z) : - precision < inject_Z p -> (0 <= p)%Z.
Proof.
  intro H. destruct (Z.le_gt_cases 0 p) as [|Hlt]; [assumption|].
  assert (Hle : (p <= -1)%Z) by lia.
  rewrite Zle_Qle in Hle. unfold precision in H.
  change (inject_Z (-1)) with (-1) in Hle. lra.
Qed.

Lemma pass_below (p w : Z) :
  inject_Z p < inject_Z w + precision -> (p <= w)%Z.
Proof.
  intro H. destruct (Z.le_gt_cases p w) as [|Hlt]; [assumption|].
  assert (Hle : (w + 1 <= p)%Z) by lia.
  rewrite Zle_Qle, inject_Z_plus in Hle.
  unfold precision in H. change (inject_Z 1) with 1 in Hle. lra.
Qed.

Section PassFacts.

Variable math_round : Q -> Z.
Variable bit : Router_Bit.
Variable board : Board.
Variable c : Cut.

(** More fuel does not change what the loop returns. *)
Lemma passes_loop_more_fuel fuel k st ps :
  passes_loop math_round bit board c fuel st = Some ps ->
  passes_loop math_round bit board c (fuel + k) st = Some ps.
Proof.
  revert st. induction fuel as [|fuel IH]; intros [[r p1] l].
  - cbn [passes_loop]. destruct (Qltb 0 r) eqn:E; [discriminate|].
    intro H. destruct k; cbn [Nat.add passes_loop]; now rewrite E.
  - cbn [Nat.add passes_loop]. destruct (Qltb 0 r); [|auto]. apply IH.
Qed.

(** Nor what [make_router_passes] returns, once it returns. *)
Lemma make_router_passes_more_fuel fuel k r :
  make_router_passes math_round bit board c fuel = Some r ->
  make_router_passes math_round bit board c (fuel + k) = Some r.
Proof.
  unfold make_router_passes.
  destruct (validate c bit board) as [e|[]]; [auto|].
  destruct (passes_loop _ _ _ _ fuel _) as [ps|] eqn:E; [|discriminate].
  now rewrite (passes_loop_more_fuel _ k _ E).
Qed.

(** What a successful [make_router_passes] went through: the cut was valid,
    its bounds are kept, and the final check accepted every pass. *)
Lemma make_router_passes_ok fuel c' :
  make_router_passes math_round bit board c fuel = Some (inr c') ->
  validate c bit board = inr tt /\
  xmin c' = xmin c /\ xmax c' = xmax c /\
  Forall (fun p => pass_too_wide bit board c p = false) (passes c').
Proof.
  unfold make_router_passes.
  destruct (validate c bit board) as [e|[]]; [discriminate|].
  destruct (passes_loop _ _ _ _ _ _) as [ps|]; [|discriminate].
  destruct (existsb _ _) eqn:E; [discriminate|].
  intro H. injection H as <-. cbn.
  repeat split. now apply existsb_false_Forall.
Qed.

(** A pass that the final check accepts keeps the bit, at its full width,
    inside the cut on every side that is not a board edge. *)
Lemma accepted_pass_inside p :
  pass_too_wide bit board c p = false ->
  (0 < xmin c -> xmin c - precision <= inject_Z p - halfwidth bit) /\
  (xmax c < inject_Z (bwidth board) ->
     inject_Z p + halfwidth bit <= xmax c + precision).
Proof.
  unfold pass_too_wide. intro H. apply orb_false_iff in H as [H1 H2].
  split; intro Hx.
  - apply Qltb_lt in Hx. rewrite Hx in H1. cbn in H1.
    apply Qltb_ge in H1. lra.
  - apply Qltb_lt in Hx. rewrite Hx in H2. cbn in H2.
    apply Qltb_ge in H2. lra.
Qed.

(** A cut narrower than the bit beyond the tolerance, touching neither edge
    of the board, is refused before any pass is computed. *)
Lemma narrow_interior_refused fuel :
  0 < xmin c -> xmax c < inject_Z (bwidth board) ->
  precision < width_f bit - (xmax c - xmin c) ->
  make_router_passes math_round bit board c fuel = Some (inl Router_Exception).
Proof.
  intros H0 Hw Hn. unfold make_router_passes, validate.
  destruct (Qleb (xmax c) (xmin c)); [reflexivity|].
  destruct (Qltb (xmin c) 0); [reflexivity|].
  destruct (Qltb (inject_Z (bwidth board)) (xmax c)); [reflexivity|].
  apply Qltb_lt in H0, Hw, Hn. rewrite H0, Hw, Hn. reflexivity.
Qed.

(** A cut that starts at the left edge of the board passes validation
    whatever its width. *)
Lemma left_edge_cut_valid :
  xmin c == 0 -> 0 < xmax c -> xmax c <= inject_Z (bwidth board) ->
  validate c bit board = inr tt.
Proof.
  intros H0 H1 Hw. unfold validate.
  assert (E1 : Qleb (xmax c) (xmin c) = false) by (apply Qleb_gt; lra).
  assert (E2 : Qltb (xmin c) 0 = false) by (apply Qltb_ge; lra).
  assert (E3 : Qltb (inject_Z (bwidth board)) (xmax c) = false)
    by (apply Qltb_ge; lra).
  assert (E4 : Qltb 0 (xmin c) = false) by (apply Qltb_ge; lra).
  rewrite E1, E2, E3, E4, andb_false_r. reflexivity.
Qed.

End PassFacts.

(** The seed pass as the specification words it: at the board's right edge
    it lies inward of [xmax] by [halfwidth - sub]. *)
Definition spec_seed_p0 (math_round : Q -> Z) (bit : Router_Bit)
  (board : Board) (c : Cut) : Q :=
  let sub := inject_Z (Qfloor ((width_f bit * bit_gentle bit) / 100)) in
  if Qeqb (xmax c) (inject_Z (bwidth board))
     && Qltb (halfwidth bit) (xmax c - xmin c)
  then xmax c - (halfwidth bit - sub)
  else inject_Z (math_round (xmax c - halfwidth bit)).

(** The union of the midline-wide intervals around the passes contains [x],
    to within the tolerance. *)
Definition covered (bit : Router_Bit) (ps : list Z) (x : Q) : bool :=
  existsb (fun p =>
             Qleb (inject_Z p - halfwidth bit + overhang bit - precision) x
             && Qleb x (inject_Z p + halfwidth bit - overhang bit + precision))
          ps.

(** C4, as stated, fails: for the cut from 100 to the right edge of a board
    240 wide and the straight bit of width 24 at gentleness 33 ([sub = 7]),
    the seed pass is 245, beyond the edge, not 235. *)
Lemma seed_p0_beyond_right_edge :
  seed_p0 round_half_up straight24 (plain_board 240 0) (Cut_init 100 240)
    == 245 /\
  spec_seed_p0 round_half_up straight24 (plain_board 240 0) (Cut_init 100 240)
    == 235.
Proof. split; reflexivity. Qed.

(** C4 (amended): when the cut extends to the board's right edge and is
    wider than half the bit, [p0 = xmax + halfwidth - sub] with
    [sub = floor(width * gentleness / 100)]: the bit's left side is [sub]
    inside the edge, and its centre is beyond the edge by [halfwidth - sub];
    in every other case [p0 = round(xmax - halfwidth)]. *)
Theorem seed_p0_cases math_round bit board c :
  let sub := inject_Z (Qfloor ((width_f bit * bit_gentle bit) / 100)) in
  0 <= width_f bit * bit_gentle bit ->
  (xmax c == inject_Z (bwidth board) ->
   halfwidth bit < xmax c - xmin c ->
     seed_p0 math_round bit board c == xmax c + (halfwidth bit - sub) /\
     seed_p0 math_round bit board c - halfwidth bit == xmax c - sub) /\
  ((xmax c == inject_Z (bwidth board) -> xmax c - xmin c <= halfwidth bit) ->
     seed_p0 math_round bit board c
     = inject_Z (math_round (xmax c - halfwidth bit))).
Proof.
  cbv zeta. intro Hpos.
  assert (Hsub : cutpass bit
                 = inject_Z (Qfloor ((width_f bit * bit_gentle bit) / 100))).
  { unfold cutpass. rewrite Qtrunc_nonneg; [reflexivity|].
    apply Qle_shift_div_l; [reflexivity|]. lra. }
  unfold seed_p0. split.
  - intros He Hw. apply Qeqb_eq in He. apply Qltb_lt in Hw.
    cbv zeta. rewrite He, Hw. cbv beta iota delta [andb]. rewrite Hsub.
    split; ring.
  - intro H.
    destruct (Qeqb (xmax c) (inject_Z (bwidth board))) eqn:E; [|reflexivity].
    apply Qeqb_eq in E. specialize (H E).
    assert (E2 : Qltb (halfwidth bit) (xmax c - xmin c) = false)
      by now apply Qltb_ge.
    rewrite E2. reflexivity.
Qed.

Lemma seed_p0_cases_witness :
  (seed_p0 round_half_up straight24 (plain_board 240 0) (Cut_init 100 240)
   == 240 + (halfwidth straight24 - inject_Z 7) /\
   seed_p0 round_half_up straight24 (plain_board 240 0) (Cut_init 100 240)
   - halfwidth straight24 == 240 - inject_Z 7) /\
  seed_p0 round_half_up straight24 (plain_board 240 0) (Cut_init 108 132)
  = inject_Z 120.
Proof.
  split.
  - apply (proj1 (@seed_p0_cases round_half_up straight24 (plain_board 240 0)
                    (Cut_init 100 240) ltac:(discriminate)));
      reflexivity.
  - apply (proj2 (@seed_p0_cases round_half_up straight24 (plain_board 240 0)
                    (Cut_init 108 132) ltac:(discriminate))).
    intro H. discriminate H.
Defined.

(** C5, as stated, fails: on a board 240 wide the cut from 0 to 10 under the
    straight bit of width 24 raises nothing; it touches the left edge, and
    gets the single pass -2. *)
Lemma left_edge_narrow_cut_passes :
  make_router_passes round_half_up straight24 (plain_board 240 0)
    (Cut_init 0 10) 10
  = Some (inr {| xmin := 0; xmax := 10; passes := [(-2)%Z] |}).
Proof. reflexivity. Qed.

(** C5 (amended): a cut narrower than the bit by more than the tolerance
    raises [Router_Exception] when it touches neither edge of the board (so
    does the cut from 1 to 10 under a bit of width 24); a cut that starts at
    the left edge, such as the one from 0 to 10, passes validation whatever
    its width. *)
Theorem narrow_cut_refused_off_edge math_round bit board c fuel :
  precision < width_f bit - (xmax c - xmin c) ->
  (0 < xmin c -> xmax c < inject_Z (bwidth board) ->
     make_router_passes math_round bit board c fuel
     = Some (inl Router_Exception)) /\
  (xmin c == 0 -> 0 < xmax c -> xmax c <= inject_Z (bwidth board) ->
     validate c bit board = inr tt).
Proof.
  intro Hn. split.
  - intros H0 Hw. now apply narrow_interior_refused.
  - apply left_edge_cut_valid.
Qed.

Lemma narrow_cut_refused_off_edge_witness :
  make_router_passes round_half_up straight24 (plain_board 240 0)
    (Cut_init 1 10) 10 = Some (inl Router_Exception) /\
  validate (Cut_init 0 10) straight24 (plain_board 240 0) = inr tt.
Proof.
  split.
  - apply (proj1 (@narrow_cut_refused_off_edge round_half_up straight24
                    (plain_board 240 0) (Cut_init 1 10) 10 eq_refl));
      reflexivity.
  - apply (proj2 (@narrow_cut_refused_off_edge round_half_up straight24
                    (plain_board 240 0) (Cut_init 0 10) 10 eq_refl));
      [reflexivity | reflexivity | discriminate].
Defined.

(** C3, as stated, fails: on a board 240 wide the cut from 230 to the right
    edge, under the straight bit of width 24, gets the single pass 242. *)
Lemma right_edge_pass_beyond_board :
  make_router_passes round_half_up straight24 (plain_board 240 0)
    (Cut_init 230 240) 10
  = Some (inr {| xmin := 230; xmax := 240; passes := [242%Z] |}) /\
  (240 < 242)%Z.
Proof. split; reflexivity. Qed.

(** C3 (amended): for a cut that touches neither edge of the board
    ([0 < xmin] and [xmax < board.width]) and a bit of non-negative width,
    every pass of a successful [make_router_passes] lies within
    [[0, board.width]]. *)
Theorem interior_passes_within_board math_round bit board c fuel c' :
  0 <= width_f bit ->
  0 < xmin c -> xmax c < inject_Z (bwidth board) ->
  make_router_passes math_round bit board c fuel = Some (inr c') ->
  Forall (fun p => (0 <= p <= bwidth board)%Z) (passes c').
Proof.
  intros Hw H0 H1 Hrun.
  apply make_router_passes_ok in Hrun as (_ & _ & _ & Hall).
  eapply Forall_impl; [|exact Hall]. cbn. intros p Hp.
  apply accepted_pass_inside in Hp as [Hl Hr].
  specialize (Hl H0). specialize (Hr H1). unfold halfwidth in Hl, Hr.
  assert (Hh : 0 <= width_f bit / 2)
    by (apply Qle_shift_div_l; [reflexivity|lra]).
  split.
  - apply pass_nonneg. lra.
  - apply pass_below. lra.
Qed.

Lemma interior_passes_within_board_witness :
  Forall (fun p => (0 <= p <= 240)%Z) [120%Z].
Proof.
  apply (@interior_passes_within_board round_half_up straight24
           (plain_board 240 0) (Cut_init 108 132) 10
           {| xmin := 108; xmax := 132; passes := [120%Z] |});
    [discriminate | reflexivity | reflexivity | reflexivity].
Defined.

(** C1, as stated, fails: under the dovetail bit of width 32 and midline 26
    (overhang 3) the cut from 100 to 132 gets the single pass 116, whose
    midline-wide interval is [[103, 129]] and does not reach 100; and under
    the straight bit of width 24 the cut from 10.4 to 34.4 gets no pass at
    all. *)
Lemma passes_do_not_cover :
  make_router_passes round_half_up dovetail32 (plain_board 240 0)
    (Cut_init 100 132) 10
  = Some (inr {| xmin := 100; xmax := 132; passes := [116%Z] |}) /\
  covered dovetail32 [116%Z] 100 = false /\
  make_router_passes round_half_up straight24 (plain_board 240 0)
    (Cut_init (104 # 10) (344 # 10)) 10
  = Some (inr {| xmin := 104 # 10; xmax := 344 # 10; passes := [] |}).
Proof. repeat split. Qed.

(** After a successful [make_router_passes], every pass [p] keeps the bit at
    its full width inside the cut, to within [precision], on each side of the
    cut that is not a board edge. *)
Lemma passes_stay_inside_cut math_round bit board c fuel c' :
  make_router_passes math_round bit board c fuel = Some (inr c') ->
  Forall (fun p =>
            (0 < xmin c -> xmin c - precision <= inject_Z p - halfwidth bit) /\
            (xmax c < inject_Z (bwidth board) ->
               inject_Z p + halfwidth bit <= xmax c + precision))
         (passes c').
Proof.
  intro Hrun.
  apply make_router_passes_ok in Hrun as (_ & _ & _ & Hall).
  eapply Forall_impl; [|exact Hall]. cbn. intros p Hp.
  now apply accepted_pass_inside.
Qed.

(* ------------------------------------------------------------------ *)
(** ** Cut: the passes cover the cut *)

(** [int] of an integer is the integer. *)
Lemma Qtrunc_integer q z : q == inject_Z z -> Qtrunc q = z.
Proof.
  intro H. unfold Qtrunc.
  rewrite (Qfloor_comp q (inject_Z z) H), (Qceiling_comp q (inject_Z z) H).
  rewrite Qfloor_Z, Qceiling_Z. now destruct (Qleb 0 q).
Qed.

Lemma integer_below_one (z : Z) : inject_Z z < 1 -> inject_Z z <= 0.
Proof.
  intro H. change 1 with (inject_Z 1) in H. rewrite <- Zlt_Qlt in H.
  change 0 with (inject_Z 0). rewrite <- Zle_Qle. lia.
Qed.

Lemma Qtrunc_bounds q : 0 <= q -> 0 <= inject_Z (Qtrunc q) <= q.
Proof.
  intro H. rewrite Qtrunc_nonneg by exact H. split.
  - change 0 with (inject_Z 0). rewrite <- Zle_Qle.
    apply Qfloor_resp_le in H. exact H.
  - apply Qfloor_le.
Qed.

(** Integers as rationals: push [inject_Z] to the leaves. *)
Ltac push_inject :=
  unfold Z.sub;
  repeat first [ rewrite inject_Z_plus | rewrite inject_Z_mult
               | rewrite inject_Z_opp ];
  change (inject_Z 2) with 2.

Section Coverage.

Variable math_round : Q -> Z.
Variable bit : Router_Bit.
Variable board : Board.
Variable c : Cut.
Variables a b h : Z.

Hypothesis math_round_exact :
  forall q z, q == inject_Z z -> math_round q = z.
Hypothesis xmin_integer : xmin c == inject_Z a.
Hypothesis xmax_integer : xmax c == inject_Z b.
Hypothesis halfwidth_integer : halfwidth bit == inject_Z h.
Hypothesis cutpass_nonneg : 0 <= cutpass bit.
Hypothesis cutpass_le_width : cutpass bit <= width_f bit.
Hypothesis valid : validate c bit board = inr tt.

Local Notation "'hw'" := (halfwidth bit).
Local Notation "'p0'" := (seed_p0 math_round bit board c).
Local Notation "'p1'" := (seed_p1 math_round bit c).
Local Notation "'bw'" := (inject_Z (bwidth board)).

(** The bit, centred at some pass of [ps], reaches [x]. *)
Definition reached (ps : list Z) (x : Q) : Prop :=
  exists p, In p ps /\ inject_Z p - hw <= x <= inject_Z p + hw.

Lemma reached_more ps ps' x :
  incl ps ps' -> reached ps x -> reached ps' x.
Proof. intros Hi (p & Hp & Hx). exists p. split; [now apply Hi|exact Hx]. Qed.

Lemma width_twice : width_f bit == 2 * hw.
Proof. unfold halfwidth. field. Qed.

Lemma valid_cut :
  xmin c < xmax c /\ 0 <= xmin c /\ xmax c <= bw /\
  (0 < xmin c -> xmax c < bw -> width_f bit - (xmax c - xmin c) <= precision).
Proof.
  revert valid. unfold validate.
  destruct (Qleb (xmax c) (xmin c)) eqn:E1; [discriminate|].
  destruct (Qltb (xmin c) 0) eqn:E2; [discriminate|].
  destruct (Qltb bw (xmax c)) eqn:E3; [discriminate|].
  destruct (Qltb precision (width_f bit - (xmax c - xmin c))) eqn:E4.
  - destruct (Qltb 0 (xmin c)) eqn:E5; cbn.
    + destruct (Qltb (xmax c) bw) eqn:E6; [discriminate|]. intros _.
      apply Qleb_gt in E1. apply Qltb_ge in E2, E3, E6.
      repeat split; auto. intros. lra.
    + intros _. apply Qleb_gt in E1. apply Qltb_ge in E2, E3, E5.
      repeat split; auto. intros. lra.
  - intros _. apply Qleb_gt in E1. apply Qltb_ge in E2, E3, E4.
    repeat split; auto.
Qed.

(** The seed passes on integer data. *)
Lemma seed_p1_exact : p1 == xmin c + hw.
Proof.
  unfold seed_p1. rewrite (@math_round_exact _ (a + h)%Z).
  - push_inject. lra.
  - push_inject. lra.
Qed.

Lemma seed_p0_facts :
  xmax c <= p0 + hw /\
  (exists z, p0 == inject_Z z) /\
  (xmax c < bw -> p0 == xmax c - hw).
Proof.
  pose proof width_twice as Hw.
  unfold seed_p0.
  destruct (Qeqb (xmax c) bw) eqn:E1; cbn [andb].
  - apply Qeqb_eq in E1.
    destruct (Qltb hw (xmax c - xmin c)) eqn:E2.
    + split; [lra|]. split; [|intro; lra].
      exists (b + h - Qtrunc ((width_f bit * bit_gentle bit) / 100))%Z.
      push_inject. unfold cutpass. lra.
    + rewrite (@math_round_exact _ (b - h)%Z).
      * push_inject. split; [lra|]. split; [|intro; lra]. now eexists.
      * push_inject. lra.
  - rewrite (@math_round_exact _ (b - h)%Z).
    + push_inject. split; [lra|]. split; [now eexists|intro; lra].
    + push_inject. lra.
Qed.


Lemma halfwidth_nonneg : 0 <= hw.
Proof. pose proof width_twice. lra. Qed.

(** Either [p0] was recorded before the loop, or it lies left of [p1]. *)
Lemma first_passes_cases :
  first_passes math_round bit board c = [Qtrunc p0] \/
  (first_passes math_round bit board c = [] /\ p0 < p1 /\ xmax c == bw).
Proof.
  destruct valid_cut as (Hlt & H0 & Hw & Hnarrow).
  destruct seed_p0_facts as (_ & _ & HA).
  pose proof seed_p1_exact as H1. pose proof width_twice as H2.
  unfold first_passes.
  assert (E0 : Qleb (xmax c) bw = true) by now apply Qleb_le.
  rewrite E0. cbn [andb].
  destruct (Qltb (xmin c - (p0 - hw)) precision) eqn:E1; [now left|].
  destruct (Qeqb (xmin c) 0) eqn:E2; [now left|].
  right. cbn [orb]. apply Qltb_ge in E1. apply Qeq_bool_neq in E2.
  unfold precision in *.
  assert (Hpos : 0 < xmin c).
  { destruct (Qlt_le_dec 0 (xmin c)) as [|Hle]; [assumption|].
    exfalso. apply E2. lra. }
  split; [reflexivity|]. split; [lra|].
  destruct (Qlt_le_dec (xmax c) bw) as [Hin|Hout]; [|lra].
  exfalso. specialize (HA Hin). specialize (Hnarrow Hpos Hin).
  assert (Hint : inject_Z (2 * h - (b - a)) <= 0).
  { apply integer_below_one. push_inject. lra. }
  revert Hint. push_inject. lra.
Qed.


(** The passes reach every point of the cut. *)
Definition covers (ps : list Z) : Prop :=
  forall x, xmin c <= x <= xmax c -> reached ps x.

(** The invariant of the loop while it goes on: the passes reach the cut up
    to the left side of the bit at the candidate [cand], an integer not left
    of [p1]. *)
Definition progress (cand : Q) (ps : list Z) : Prop :=
  (forall x, xmin c <= x <= xmax c -> x < cand - hw -> reached ps x) /\
  (exists z, cand == inject_Z z) /\
  p1 <= cand /\
  incl (first_passes math_round bit board c) ps.

Definition loop_inv (st : Q * Q * list Z) : Prop :=
  let '(r, cand, ps) := st in
  (0 < r -> progress cand ps) /\ (r <= 0 -> covers ps).

Lemma thresholds :
  floordiv (width_f bit * 2) 3 <= width_f bit /\
  floordiv (width_f bit * 4) 5 <= width_f bit /\
  0 <= floordiv (width_f bit * 4) 5.
Proof.
  pose proof width_twice. pose proof halfwidth_nonneg.
  unfold floordiv.
  assert (H23 : 0 <= width_f bit * 2 / 3)
    by (apply Qle_shift_div_l; [reflexivity|lra]).
  assert (H45 : 0 <= width_f bit * 4 / 5)
    by (apply Qle_shift_div_l; [reflexivity|lra]).
  destruct (Qtrunc_bounds H23). destruct (Qtrunc_bounds H45).
  repeat split; try assumption.
  - assert (width_f bit * 2 / 3 <= width_f bit)
      by (apply Qle_shift_div_r; [reflexivity|lra]). lra.
  - assert (width_f bit * 4 / 5 <= width_f bit)
      by (apply Qle_shift_div_r; [reflexivity|lra]). lra.
Qed.

Lemma body_keeps_inv r cand ps :
  progress cand ps -> loop_inv (loop_body math_round bit board c (r, cand, ps)).
Proof.
  intros (Hreach & (z & Hz) & Hleft & Hfirst).
  destruct valid_cut as (Hlt & H0 & Hw & _).
  destruct seed_p0_facts as (Hp0 & (z0 & Hz0) & HA).
  destruct thresholds as (HS & HT & HT0).
  pose proof width_twice as Hw2. pose proof halfwidth_nonneg as Hh0.
  pose proof seed_p1_exact as Hp1.
  assert (Htz : Qtrunc cand = z) by now apply Qtrunc_integer.
  assert (Htz0 : Qtrunc p0 = z0) by now apply Qtrunc_integer.
  unfold loop_body, loop_inv.
  set (S := floordiv (width_f bit * 2) 3) in *.
  set (T := floordiv (width_f bit * 4) 5) in *.
  set (r' := p0 - cand).
  assert (Hz0in : first_passes math_round bit board c = [Qtrunc p0] ->
                  forall ps', incl ps ps' -> In z0 ps').
  { intros E ps' Hi. apply Hi, Hfirst. rewrite E, Htz0. now left. }
  destruct (negb (Qeqb p0 cand)
            && (Qltb (cand + hw - xmax c) precision || Qeqb (xmax c) bw))
    eqn:Erec.
  - (* the candidate is recorded *)
    assert (Hin : In z (ps ++ [Qtrunc cand]))
      by (rewrite Htz; apply in_or_app; right; now left).
    assert (Hi : incl ps (ps ++ [Qtrunc cand])) by (now apply incl_appl).
    split.
    + destruct (Qltb r' T) eqn:ET; [intro Hr; lra|]. intro Hr.
      apply Qltb_ge in ET.
      assert (Hstep : cand <= (if Qleb r' S then p0 - floordiv r' 2
                               else inject_Z (Qtrunc cand) + cutpass bit)
                      <= cand + width_f bit
                      /\ exists z2, (if Qleb r' S then p0 - floordiv r' 2
                                     else inject_Z (Qtrunc cand) + cutpass bit)
                                    == inject_Z z2).
      { destruct (Qleb r' S) eqn:ES.
        - apply Qleb_le in ES. unfold floordiv.
          assert (Hhalf : 0 <= r' / 2)
            by (apply Qle_shift_div_l; [reflexivity|lra]).
          destruct (Qtrunc_bounds Hhalf) as [Ht1 Ht2].
          assert (r' / 2 <= r') by (apply Qle_shift_div_r; [reflexivity|lra]).
          split; [unfold r' in *; split; lra|].
          exists (z0 - Qtrunc (r' / 2))%Z. push_inject. lra.
        - rewrite Htz. split; [split; lra|].
          exists (z + Qtrunc ((width_f bit * bit_gentle bit) / 100))%Z.
          push_inject. unfold cutpass. lra. }
      destruct Hstep as [[Hlo Hhi] Hint].
      repeat split.
      * intros x Hx Hxl.
        destruct (Qlt_le_dec x (cand - hw)) as [Hl|Hl].
        -- eapply reached_more; [exact Hi|]. now apply Hreach.
        -- exists z. split; [exact Hin|]. lra.
      * exact Hint.
      * lra.
      * eapply incl_tran; eassumption.
    + intro Hr.
      assert (Hr' : r' <= width_f bit).
      { destruct (Qltb r' T) eqn:ET; [apply Qltb_lt in ET|]; lra. }
      unfold r' in Hr'.
      intros x Hx.
      destruct (Qlt_le_dec x (cand - hw)) as [Hl|Hl].
      { eapply reached_more; [exact Hi|]. now apply Hreach. }
      destruct (Qlt_le_dec (cand + hw) x) as [Hr2|Hr2].
      * destruct first_passes_cases as [E|(_ & Hlt01 & _)]; [|lra].
        exists z0. split; [now apply Hz0in|]. lra.
      * exists z. split; [exact Hin|]. lra.
  - (* the candidate is not recorded *)
    assert (Hwhy : p0 == cand \/
                   (precision <= cand + hw - xmax c /\ xmax c < bw)).
    { apply andb_false_iff in Erec as [E|E].
      - left. apply negb_false_iff in E. now apply Qeqb_eq.
      - right. apply orb_false_iff in E as [E1 E2].
        apply Qltb_ge in E1. apply Qeq_bool_neq in E2.
        split; [exact E1|].
        destruct (Qlt_le_dec (xmax c) bw) as [|Hge]; [assumption|].
        exfalso. apply E2. lra. }
    unfold precision in Hwhy.
    split.
    + destruct (Qltb r' T) eqn:ET; [intro Hr; lra|]. intro Hr.
      exfalso. unfold r' in Hr.
      destruct Hwhy as [He|[Hc Hin]]; [lra|].
      specialize (HA Hin). lra.
    + intros _ x Hx.
      destruct (Qlt_le_dec x (cand - hw)) as [Hl|Hl]; [now apply Hreach|].
      destruct Hwhy as [He|[Hc Hin]].
      * destruct first_passes_cases as [E|(_ & Hlt01 & _)]; [|lra].
        exists z0. split; [apply Hz0in; [exact E|apply incl_refl]|]. lra.
      * specialize (HA Hin).
        destruct first_passes_cases as [E|(_ & _ & Hedge)]; [|lra].
        exists z0. split; [apply Hz0in; [exact E|apply incl_refl]|]. lra.
Qed.


Lemma loop_covers fuel st ps :
  loop_inv st ->
  passes_loop math_round bit board c fuel st = Some ps -> covers ps.
Proof.
  revert st. induction fuel as [|fuel IH]; intros [[r cand] l] [Hgo Hend];
    cbn [passes_loop].
  - destruct (Qltb 0 r) eqn:E; [discriminate|].
    intro H. injection H as <-. apply Hend. now apply Qltb_ge.
  - destruct (Qltb 0 r) eqn:E.
    + apply IH. apply body_keeps_inv. apply Hgo. now apply Qltb_lt.
    + intro H. injection H as <-. apply Hend. now apply Qltb_ge.
Qed.

Lemma initial_inv :
  loop_inv (xmax c - xmin c, p1, first_passes math_round bit board c).
Proof.
  destruct valid_cut as (Hlt & _). pose proof seed_p1_exact as Hp1.
  split.
  - intros _. repeat split.
    + intros x Hx Hl. lra.
    + unfold seed_p1. now eexists.
    + lra.
    + apply incl_refl.
  - intro H. lra.
Qed.

End Coverage.

Lemma Qfloor_unique x z :
  inject_Z z <= x -> x < inject_Z z + 1 -> Qfloor x = z.
Proof.
  intros Hlo Hhi.
  pose proof (Qfloor_le x) as H1. pose proof (Qlt_floor x) as H2.
  assert (Ha : (Qfloor x < z + 1)%Z).
  { rewrite Zlt_Qlt. push_inject. change (inject_Z 1) with 1. lra. }
  assert (Hb : (z < Qfloor x + 1)%Z).
  { rewrite Zlt_Qlt. lra. }
  lia.
Qed.

Lemma round_half_up_integer q z : q == inject_Z z -> round_half_up q = z.
Proof.
  intro H. unfold round_half_up.
  destruct (Qleb 0 q).
  - apply Qfloor_unique; lra.
  - unfold Qceiling.
    rewrite (@Qfloor_unique (- (q - (1 # 2))) (- z)%Z).
    + lia.
    + push_inject. lra.
    + push_inject. lra.
Qed.

Lemma cutpass_range bit :
  0 <= width_f bit -> 0 <= bit_gentle bit -> bit_gentle bit <= 100 ->
  0 <= cutpass bit <= width_f bit.
Proof.
  intros Hw Hg0 Hg1. unfold cutpass.
  assert (H0 : 0 <= width_f bit * bit_gentle bit)
    by now apply Qmult_le_0_compat.
  assert (H1 : width_f bit * bit_gentle bit <= width_f bit * 100).
  { rewrite (Qmult_comm (width_f bit) (bit_gentle bit)),
            (Qmult_comm (width_f bit) 100).
    now apply Qmult_le_compat_r. }
  assert (Hq : 0 <= width_f bit * bit_gentle bit / 100)
    by (apply Qle_shift_div_l; [reflexivity|lra]).
  assert (Hq1 : width_f bit * bit_gentle bit / 100 <= width_f bit)
    by (apply Qle_shift_div_r; [reflexivity|lra]).
  destruct (Qtrunc_bounds Hq). split; lra.
Qed.

(** C1 (amended): after a successful [make_router_passes] on a cut [c],
    every pass [p] keeps the bit at its full width inside the cut, to within
    [precision], on each side of the cut that is not a board edge; and when
    the bounds of the cut and the half-width of the bit are whole numbers of
    increments (rounding the seeds is then exact), the width is not negative
    and the gentleness is within [[0, 100]], the union of the full-width
    intervals [[p - halfwidth, p + halfwidth]] over the passes covers
    [[xmin, xmax]].  The intervals narrowed by the overhang need not cover
    it under a dovetail bit: they miss the cut from 100 to 132 above. *)
Theorem full_width_passes_cover_cut math_round bit board c fuel c' :
  make_router_passes math_round bit board c fuel = Some (inr c') ->
  Forall (fun p =>
            (0 < xmin c -> xmin c - precision <= inject_Z p - halfwidth bit) /\
            (xmax c < inject_Z (bwidth board) ->
               inject_Z p + halfwidth bit <= xmax c + precision))
         (passes c') /\
  forall a b h,
    (forall q z, q == inject_Z z -> math_round q = z) ->
    xmin c == inject_Z a -> xmax c == inject_Z b ->
    halfwidth bit == inject_Z h ->
    0 <= width_f bit -> 0 <= bit_gentle bit -> bit_gentle bit <= 100 ->
    forall x, xmin c <= x <= xmax c ->
      exists p, In p (passes c') /\
        inject_Z p - halfwidth bit <= x <= inject_Z p + halfwidth bit.
Proof.
  intro Hrun. split.
  { eapply passes_stay_inside_cut; eassumption. }
  intros a b h Hround Ha Hb Hh Hw Hg0 Hg1.
  pose proof (make_router_passes_ok _ _ _ _ _ Hrun) as (Hv & _).
  revert Hrun. unfold make_router_passes. rewrite Hv.
  destruct (passes_loop _ _ _ _ _ _) as [ps|] eqn:Eloop; [|discriminate].
  destruct (existsb _ _); [discriminate|].
  intro H. injection H as <-. cbn [passes].
  intros x Hx.
  assert (Hcov : covers bit c ps).
  { destruct (cutpass_range bit Hw Hg0 Hg1) as [Hc0 Hc1].
    eapply loop_covers with (a := a) (b := b) (h := h);
      try eassumption.
    eapply initial_inv with (a := a) (h := h); eassumption. }
  destruct (Hcov x Hx) as (p & Hp & Hpx).
  exists p. split; [|exact Hpx].
  eapply Permutation_in; [apply ZSort.Permuted_sort|exact Hp].
Qed.

Lemma full_width_passes_cover_cut_witness :
  Forall (fun p =>
            (0 < 10 -> 10 - precision <= inject_Z p - halfwidth straight24) /\
            (110 < inject_Z 240 ->
               inject_Z p + halfwidth straight24 <= 110 + precision))
         [22; 29; 36; 43; 50; 57; 64; 71; 78; 85; 98]%Z /\
  forall x, 10 <= x <= 110 ->
    exists p, In p [22; 29; 36; 43; 50; 57; 64; 71; 78; 85; 98]%Z /\
      inject_Z p - halfwidth straight24 <= x
      <= inject_Z p + halfwidth straight24.
Proof.
  destruct (@full_width_passes_cover_cut round_half_up straight24
              (plain_board 240 0) (Cut_init 10 110) 20
              {| xmin := 10; xmax := 110;
                 passes := [22; 29; 36; 43; 50; 57; 64; 71; 78; 85; 98]%Z |}
              eq_refl) as [Hin Hcov].
  split; [exact Hin|].
  apply (Hcov 10%Z 110%Z 12%Z round_half_up_integer);
    first [reflexivity | discriminate].
Defined.

(* ------------------------------------------------------------------ *)
(** ** Cut: when the loop ends *)

Section Termination.

Variable math_round : Q -> Z.
Variable bit : Router_Bit.
Variable board : Board.
Variable c : Cut.
Variable z0 : Z.

Hypothesis cutpass_positive : 1 <= cutpass bit.
Hypothesis seed_p0_integer : seed_p0 math_round bit board c == inject_Z z0.

Local Notation "'p0'" := (seed_p0 math_round bit board c).

(** An iteration either ends the loop or moves an integer candidate that is
    left of [p0] to the right by one increment at least. *)
Lemma body_advances r cand ps z :
  cand == inject_Z z ->
  match loop_body math_round bit board c (r, cand, ps) with
  | (r2, cand2, _) =>
      r2 <= 0 \/
      ((z < z0)%Z /\ exists z2, cand2 == inject_Z z2 /\ (z + 1 <= z2)%Z)
  end.
Proof.
  intro Hz. unfold loop_body.
  set (r' := p0 - cand).
  destruct (Qltb r' (floordiv (width_f bit * 4) 5)) eqn:ET.
  { destruct (_ && _); left; lra. }
  destruct (Qlt_le_dec 0 r') as [Hpos|Hneg];
    [|destruct (_ && _); left; exact Hneg].
  assert (Hzz : (z < z0)%Z).
  { rewrite Zlt_Qlt. unfold r' in Hpos. lra. }
  assert (Hcand : forall b : bool,
             fst (if b then (inject_Z (Qtrunc cand), ps ++ [Qtrunc cand])
                  else (cand, ps)) == inject_Z z).
  { intros [|]; cbn [fst]; [|exact Hz].
    now rewrite (Qtrunc_integer Hz). }
  match goal with |- context [if ?b then (_, _) else (_, _)] =>
    specialize (Hcand b); destruct (if b then (_, _) else (_, _)) as [c1 l1]
  end.
  cbn [fst] in Hcand. right. split; [exact Hzz|].
  destruct (Qleb r' (floordiv (width_f bit * 2) 3)).
  - unfold floordiv.
    assert (Hhalf : 0 <= r' / 2)
      by (apply Qle_shift_div_l; [reflexivity|lra]).
    destruct (Qtrunc_bounds Hhalf) as [Ht1 Ht2].
    assert (r' / 2 < r') by (apply Qlt_shift_div_r; [reflexivity|lra]).
    exists (z0 - Qtrunc (r' / 2))%Z. split; [push_inject; lra|].
    assert (Hlt : (Qtrunc (r' / 2) < z0 - z)%Z).
    { rewrite Zlt_Qlt. push_inject. unfold r' in *. lra. }
    lia.
  - exists (z + Qtrunc ((width_f bit * bit_gentle bit) / 100))%Z.
    split; [push_inject; unfold cutpass; lra|].
    assert (Hk : (1 <= Qtrunc ((width_f bit * bit_gentle bit) / 100))%Z).
    { rewrite Zle_Qle. exact cutpass_positive. }
    lia.
Qed.

Lemma loop_ends k : forall r cand ps z,
  cand == inject_Z z -> (Z.to_nat (z0 - z) <= k)%nat ->
  exists ps', passes_loop math_round bit board c (S (S k)) (r, cand, ps)
              = Some ps'.
Proof.
  induction k as [|k IH]; intros r cand ps z Hz Hk.
  - cbn [passes_loop]. destruct (Qltb 0 r); [|now eexists].
    pose proof (body_advances r ps Hz) as Hb.
    destruct (loop_body math_round bit board c (r, cand, ps))
      as [[r2 cand2] ps2].
    destruct Hb as [Hend|(Hlt & _)]; [|lia].
    cbn [passes_loop]. apply Qltb_ge in Hend. eexists. now rewrite Hend.
  - cbn [passes_loop]. destruct (Qltb 0 r); [|now eexists].
    pose proof (body_advances r ps Hz) as Hb.
    destruct (loop_body math_round bit board c (r, cand, ps))
      as [[r2 cand2] ps2].
    destruct Hb as [Hend|(Hlt & z2 & Hz2 & Hstep)].
    + cbn [passes_loop]. apply Qltb_ge in Hend. eexists.
      now rewrite Hend.
    + apply (IH r2 cand2 ps2 z2 Hz2). lia.
Qed.

(** X14: with a sub-pass of one increment at least and an integer seed
    [p0], [make_router_passes] returns, given fuel enough. *)
Lemma make_router_passes_returns :
  exists fuel r, make_router_passes math_round bit board c fuel = Some r.
Proof.
  destruct (@loop_ends (Z.to_nat (z0 - math_round (xmin c + halfwidth bit)))
              (xmax c - xmin c) (seed_p1 math_round bit c)
              (first_passes math_round bit board c)
              (math_round (xmin c + halfwidth bit)))
    as [ps Hps]; [reflexivity|lia|].
  eexists. unfold make_router_passes.
  destruct (validate c bit board); [now eexists|].
  rewrite Hps.
  destruct (existsb _ _); now eexists.
Qed.

End Termination.

(** The straight bit of width 24 at gentleness 4: the sub-pass is
    [int(0.96) = 0]. *)
Definition timid_bit : Router_Bit := Router_Bit_init ideal_numerics 24 32 0 4.

(** With a sub-pass of zero the loop does not end on a wide cut: the
    candidate stays at 22, recorded again at every iteration. *)
Lemma zero_sub_pass_never_returns fuel :
  make_router_passes round_half_up timid_bit (plain_board 240 0)
    (Cut_init 10 110) fuel = None.
Proof.
  unfold make_router_passes.
  change (validate (Cut_init 10 110) timid_bit (plain_board 240 0))
    with (inr tt : result unit).
  cbv iota beta.
  assert (H : forall n r ps, 0 < r ->
            passes_loop round_half_up timid_bit (plain_board 240 0)
              (Cut_init 10 110) n (r, inject_Z 22, ps) = None).
  { induction n as [|n IH]; intros r ps Hr; cbn [passes_loop];
      apply Qltb_lt in Hr; rewrite Hr; [reflexivity|].
    change (loop_body round_half_up timid_bit (plain_board 240 0)
              (Cut_init 10 110) (r, inject_Z 22, ps))
      with (76, inject_Z 22, ps ++ [22%Z]).
    apply IH. reflexivity. }
  change (seed_p1 round_half_up timid_bit (Cut_init 10 110))
    with (inject_Z 22).
  rewrite H; reflexivity.
Qed.

(* ------------------------------------------------------------------ *)
(** ** Edge cut propagation, twice *)

(** [adjoining_cuts] applied to its own result for the single cut [c]. *)
Definition adjoining_twice (c : Cut) (bit : Router_Bit) (board : Board)
  : result (list Cut) :=
  match adjoining_cuts [c] bit board with
  | inl e => inl e
  | inr once => adjoining_cuts once bit board
  end.

(** The bounds of the cuts of a result, as reduced fractions. *)
Definition bounds_of (r : result (list Cut)) : list (Q * Q) :=
  match r with
  | inl _ => []
  | inr cs => map (fun c => (Qred (xmin c), Qred (xmax c))) cs
  end.

(** A dovetail bit of width 25.6 whose shallow taper (0.05) rounds the
    midline up to 26. *)
Definition shallow_bit : Router_Bit :=
  Router_Bit_init ideal_numerics (256 # 10) (2 # 10) angle_quarter 33.

Lemma round_half_even_near q :
  - (1 # 2) <= inject_Z (round_half_even q) - q <= 1 # 2.
Proof.
  unfold round_half_even.
  pose proof (Qfloor_le q) as Hlo. pose proof (Qlt_floor q) as Hhi.
  rewrite inject_Z_plus in Hhi. change (inject_Z 1) with 1 in Hhi.
  destruct (Qltb (q - inject_Z (Qfloor q)) (1 # 2)) eqn:E1.
  { apply Qltb_lt in E1. split; lra. }
  apply Qltb_ge in E1.
  destruct (Qltb (1 # 2) (q - inject_Z (Qfloor q))) eqn:E2.
  { rewrite inject_Z_plus. change (inject_Z 1) with 1. split; lra. }
  apply Qltb_ge in E2.
  destruct (Z.even (Qfloor q)).
  - split; lra.
  - rewrite inject_Z_plus. change (inject_Z 1) with 1. split; lra.
Qed.

(** [quantize] moves a number by at most half of [0.0001]. *)
Lemma quantize4_near q :
  - (1 # 20000) <= quantize4 q - q <= 1 # 20000.
Proof.
  unfold quantize4.
  pose proof (round_half_even_near (q * 10000)) as [H1 H2].
  set (r := inject_Z (round_half_even (q * 10000))) in *.
  assert (E : r / 10000 == r * (1 # 10000)) by (field).
  rewrite E. split; lra.
Qed.

Lemma Qmin_same w : Qmin w w = w.
Proof. unfold Qmin. now destruct (Qleb w w). Qed.

Lemma Qmax_cases a b : (b <= a /\ Qmax a b = a) \/ (a < b /\ Qmax a b = b).
Proof.
  unfold Qmax. destruct (Qleb b a) eqn:E.
  - left. split; [now apply Qleb_le|reflexivity].
  - right. split; [now apply Qleb_gt|reflexivity].
Qed.

Lemma Qmin_cases a b : (a <= b /\ Qmin a b = a) \/ (b < a /\ Qmin a b = b).
Proof.
  unfold Qmin. destruct (Qleb a b) eqn:E.
  - left. split; [now apply Qleb_le|reflexivity].
  - right. split; [now apply Qleb_gt|reflexivity].
Qed.

(** C6, as stated, fails in three ways.  On a board with [dheight = 10] the
    cut from 5 to 29 loses its left-edge neighbour in the first hop, and the
    second hop yields the cut from 0 to 29: [xmin] moved by 5, the straight
    bit allowing 0.  With [dheight = 0] the cut from 10.00001 to 40 comes
    back from 10.0000, the left cut of the first hop being quantized.  And
    under a bit whose midline exceeds its width the bound is negative. *)
Lemma adjoining_twice_moves_bounds :
  bounds_of (adjoining_twice (Cut_init 5 29) straight24 (plain_board 240 10))
  = [(0, 29)] /\
  2 * (width_f straight24 - midline straight24) == 0 /\
  bounds_of (adjoining_twice (Cut_init (1000001 # 100000) 40) straight24
               (plain_board 240 0))
  = [(10, 40)] /\
  bounds_of (adjoining_twice (Cut_init 10 40) shallow_bit (plain_board 240 0))
  = [(10, 40)] /\
  2 * (width_f shallow_bit - midline shallow_bit) == - (8 # 10).
Proof. repeat split. Qed.

(** C6 (amended): for a single cut [c] strictly interior to the board, a bit
    whose midline does not exceed its width and a board with [dheight >= 0]
    on which the first hop keeps both of its outer-edge cuts (always so when
    [dheight = 0]), [adjoining_cuts] applied to [adjoining_cuts([c])] yields
    exactly one cut; its [xmax] is [c]'s or larger by at most
    [bit.width - bit.midline], and its [xmin] is [c]'s to within 0.00005 (the
    first hop quantizes its left cut to four decimals): both within
    [2 * (bit.width - bit.midline) + 0.00005]. *)
Theorem adjoining_twice_interior bit board c :
  let off := width_f bit - midline bit in
  let dh := inject_Z (dheight board) in
  let w := inject_Z (bwidth board) in
  0 < xmin c -> xmin c < xmax c -> xmax c < w ->
  0 <= off -> 0 <= dh ->
  dh <= xmin c + off - dh ->
  dh <= w - (xmax c - off + dh) ->
  exists c2,
    adjoining_twice c bit board = inr [c2] /\
    - (1 # 20000) <= xmin c2 - xmin c <= 1 # 20000 /\
    0 <= xmax c2 - xmax c <= off.
Proof.
  intros off dh w H0 Hlt Hw Hoff Hdh Hleft Hright.
  assert (B1 : Qltb 0 (xmin c) = true) by now apply Qltb_lt.
  assert (B2 : Qleb dh (xmin c + off - dh - 0) = true)
    by (apply Qleb_le; lra).
  assert (B3 : Qltb (xmax c) w = true) by now apply Qltb_lt.
  assert (B4 : Qleb dh (w - (xmax c - off + dh)) = true)
    by now apply Qleb_le.
  assert (B5 : Qltb w w = false) by (apply Qltb_ge; lra).
  unfold adjoining_twice, adjoining_cuts.
  fold off dh w. cbn [last].
  rewrite B1, B2, B3, B4. cbn [inner_cuts app].
  cbn [xmin xmax Cut_init last].
  rewrite Qmin_same, B5.
  change (Qltb 0 0) with false. cbn [app].
  eexists. split; [reflexivity|]. cbn [xmin xmax Cut_init].
  pose proof (quantize4_near (xmin c + off - dh)) as [Q1 Q2].
  split.
  - destruct (Qmax_cases 0 (quantize4 (xmin c + off - dh) - off + dh))
      as [[Hc ->]|[Hc ->]]; split; lra.
  - destruct (Qmax_cases 0 (xmax c - off + dh)) as [[Hc ->]|[Hc ->]];
      match goal with |- context [Qmin ?a ?b] =>
        destruct (Qmin_cases a b) as [[Hm ->]|[Hm ->]] end;
      split; lra.
Qed.

Lemma adjoining_twice_interior_witness :
  exists c2,
    adjoining_twice (Cut_init 100 132) dovetail32 (plain_board 240 0)
    = inr [c2] /\
    - (1 # 20000) <= xmin c2 - 100 <= 1 # 20000 /\
    0 <= xmax c2 - 132 <= width_f dovetail32 - midline dovetail32.
Proof.
  apply (@adjoining_twice_interior dovetail32 (plain_board 240 0)
           (Cut_init 100 132));
    first [reflexivity | discriminate].
Defined.

(* ------------------------------------------------------------------ *)
(** ** Board stack assembly: the order of the steps *)

(** A cut without its passes. *)
Definition strip (c : Cut) : Cut := Cut_init (xmin c) (xmax c).

(** The attribute [o] holds the cuts [cs], each with some passes. *)
Definition cuts_are (o : option (list Cut)) (cs : list Cut) : Prop :=
  exists cs', o = Some cs' /\ map strip cs' = map strip cs.

Lemma inner_cuts_strip offset dh w cs :
  inner_cuts offset dh w (map strip cs) = inner_cuts offset dh w cs.
Proof.
  induction cs as [|c1 [|c2 rest] IH]; try reflexivity.
  cbn [map inner_cuts] in *. rewrite IH. reflexivity.
Qed.

Lemma last_strip cs c0 : xmax (last (map strip cs) (strip c0)) = xmax (last cs c0).
Proof.
  induction cs as [|c1 [|c2 rest] IH]; try reflexivity.
  exact IH.
Qed.

Lemma adjoining_cuts_strip cs bit board :
  adjoining_cuts (map strip cs) bit board = adjoining_cuts cs bit board.
Proof.
  destruct cs as [|c0 rest]; [reflexivity|].
  unfold adjoining_cuts. cbn [map].
  change (strip c0 :: map strip rest) with (map strip (c0 :: rest)).
  rewrite last_strip, inner_cuts_strip. reflexivity.
Qed.

Lemma adjoining_cuts_same a b bit board :
  map strip a = map strip b ->
  adjoining_cuts a bit board = adjoining_cuts b bit board.
Proof.
  intro H. rewrite <- (adjoining_cuts_strip a), <- (adjoining_cuts_strip b).
  now rewrite H.
Qed.

Lemma make_all_passes_strip mr fuel bit board cs cs' :
  make_all_passes mr fuel bit board cs = Some (inr cs') ->
  map strip cs' = map strip cs.
Proof.
  revert cs'. induction cs as [|c rest IH]; intros cs' H; cbn in H.
  - now injection H as <-.
  - destruct (make_router_passes mr bit board c fuel) as [[e|c']|] eqn:E;
      cbn in H; try discriminate.
    destruct (make_all_passes mr fuel bit board rest) as [[e|rest']|];
      cbn in H; try discriminate.
    injection H as <-.
    apply make_router_passes_ok in E as (_ & Hmin & Hmax & _).
    cbn. rewrite (IH rest' eq_refl). unfold strip. now rewrite Hmin, Hmax.
Qed.

Lemma inner_cuts_stripped offset dh w l :
  map strip (inner_cuts offset dh w l) = inner_cuts offset dh w l.
Proof.
  induction l as [|c1 l IH]; [reflexivity|].
  destruct l as [|c2 l']; [reflexivity|].
  cbn [inner_cuts map] in *. now rewrite IH.
Qed.

Lemma adjoining_cuts_stripped cs bit board out :
  adjoining_cuts cs bit board = inr out -> map strip out = out.
Proof.
  destruct cs as [|c0 rest]; [discriminate|].
  unfold adjoining_cuts. intro H. injection H as <-.
  rewrite !map_app.
  f_equal; [|f_equal].
  - destruct (Qltb 0 (xmin c0)); [|reflexivity].
    now destruct (Qleb _ _).
  - destruct rest as [|c2 rest']; [reflexivity|].
    cbn [map]. now rewrite inner_cuts_stripped.
  - destruct (Qltb _ _); [|reflexivity].
    now destruct (Qleb _ _).
Qed.

Section Pipeline.

Variable math_round : Q -> Z.
Variable fuel : nat.
Variable bit : Router_Bit.

(** The step of the reinforcement board [b], taken when it is active. *)
Definition stage (input output : list Cut) (b0 b b' : Board) : Prop :=
  if active b then
    exists top,
      adjoining_cuts input bit b0 = inr top /\
      adjoining_cuts top bit b = inr output /\
      cuts_are (top_cuts b') top /\
      cuts_are (bottom_cuts b') output
  else output = input /\ b' = b.

Ltac run_step H :=
  match type of H with
  | Rbind ?m _ = Some (inr _) =>
      let E := fresh "E" in
      destruct m as [[?|?]|] eqn:E; cbn [Rbind] in H; try discriminate H
  end.

Lemma set_top_cuts_ok i cuts boards cuts' boards' :
  set_top_cuts math_round fuel bit i cuts boards = Some (inr (cuts', boards')) ->
  exists b, nth_error boards i = Some b /\
            map strip cuts' = map strip cuts /\
            boards' = store_board i (with_top_cuts cuts' b) boards.
Proof.
  unfold set_top_cuts, board_at. intro H.
  destruct (nth_error boards i) as [b|]; cbn in H; [|discriminate].
  run_step H. injection H as <- <-.
  exists b. repeat split. eapply make_all_passes_strip; eassumption.
Qed.

Lemma set_bottom_cuts_ok i cuts boards cuts' boards' :
  set_bottom_cuts math_round fuel bit i cuts boards
  = Some (inr (cuts', boards')) ->
  exists b, nth_error boards i = Some b /\
            map strip cuts' = map strip cuts /\
            boards' = store_board i (with_bottom_cuts cuts' b) boards.
Proof.
  unfold set_bottom_cuts, board_at. intro H.
  destruct (nth_error boards i) as [b|]; cbn in H; [|discriminate].
  run_step H. injection H as <- <-.
  exists b. repeat split. eapply make_all_passes_strip; eassumption.
Qed.

Lemma through_board_ok i last boards last' boards' :
  through_board math_round fuel bit i last boards
  = Some (inr (last', boards')) ->
  exists b0 bi top top' out,
    nth_error boards 0 = Some b0 /\
    nth_error boards i = Some bi /\
    adjoining_cuts last bit b0 = inr top /\
    map strip top' = top /\
    nth_error (store_board i (with_top_cuts top' bi) boards) i
      = Some (with_top_cuts top' bi) /\
    adjoining_cuts top bit bi = inr out /\
    map strip last' = out /\
    boards' = store_board i (with_bottom_cuts last' (with_top_cuts top' bi))
                (store_board i (with_top_cuts top' bi) boards).
Proof.
  unfold through_board, board_at, Rlift. intro H.
  destruct (nth_error boards 0) as [b0|] eqn:E0; cbn [Rbind Rret] in H;
    [|discriminate].
  destruct (adjoining_cuts last bit b0) as [e|top] eqn:Etop;
    cbn [Rbind] in H; [discriminate|].
  run_step H. destruct p as [top' boards1].
  apply set_top_cuts_ok in E as (bi & Ei & Hs & ->).
  destruct (nth_error (store_board i (with_top_cuts top' bi) boards) i)
    as [bi'|] eqn:Ei'; cbn [Rbind Rret] in H; [|discriminate].
  destruct (adjoining_cuts top' bit bi') as [e|out] eqn:Eout;
    cbn [Rbind] in H; [discriminate|].
  apply set_bottom_cuts_ok in H as (bi'' & Ei'' & Hs' & ->).
  rewrite Ei' in Ei''. injection Ei'' as <-.
  assert (Hst : map strip top = top) by (eapply adjoining_cuts_stripped; eauto).
  assert (bi' = with_top_cuts top' bi).
  { clear -Ei Ei'. revert i Ei Ei'. induction boards as [|x rest IH];
      intros [|i]; cbn; intros; try discriminate; try congruence.
    eapply IH; eauto. }
  subst bi'.
  exists b0, bi, top, top', out. repeat split; auto.
  - congruence.
  - rewrite <- Eout. apply (adjoining_cuts_same top top' bit bi). congruence.
  - rewrite Hs'. eapply adjoining_cuts_stripped; eauto.
Qed.


Lemma store_board_same i b boards :
  nth_error boards i = Some b -> store_board i b boards = boards.
Proof.
  revert i. induction boards as [|x rest IH]; intros [|i] H; cbn in *;
    try discriminate.
  - congruence.
  - f_equal. now apply IH.
Qed.

Lemma store_board_twice i b b' boards :
  store_board i b' (store_board i b boards) = store_board i b' boards.
Proof.
  revert i. induction boards as [|x rest IH]; intros [|i]; cbn;
    try reflexivity.
  f_equal. apply IH.
Qed.

Lemma stage_ok i boards b0 bi last input last' boards1 :
  nth_error boards 0 = Some b0 ->
  nth_error boards i = Some bi ->
  map strip last = map strip input ->
  (if active bi then through_board math_round fuel bit i last boards
   else Rret (last, boards)) = Some (inr (last', boards1)) ->
  exists bi' output,
    boards1 = store_board i bi' boards /\
    map strip last' = map strip output /\
    stage input output b0 bi bi'.
Proof.
  intros E0 Ei Hin H. unfold stage.
  destruct (active bi).
  - apply through_board_ok in H
      as (b0' & bi0 & top & top' & out & E0' & Ei' & Htop & Hs & _ & Hout
          & Hl & ->).
    rewrite E0 in E0'. injection E0' as <-.
    rewrite Ei in Ei'. injection Ei' as <-.
    assert (Hst : map strip top = top)
      by (eapply adjoining_cuts_stripped; eauto).
    assert (Hso : map strip out = out)
      by (eapply adjoining_cuts_stripped; eauto).
    exists (with_bottom_cuts last' (with_top_cuts top' bi)), out.
    split; [apply store_board_twice|].
    split; [congruence|].
    exists top. repeat split.
    + rewrite <- Htop. now apply adjoining_cuts_same.
    + exact Hout.
    + exists top'. split; [reflexivity|congruence].
    + exists last'. split; [reflexivity|congruence].
  - injection H as <- <-. exists bi, input.
    split; [symmetry; now apply store_board_same|]. auto.
Qed.

(** C7 (amended): [cut_boards] runs a fixed sequence of steps, each on the
    cuts that the step before it produced: the spacing's cuts become the
    bottom cuts of [boards[0]]; if [boards[3]] is active they are propagated
    to its top cuts and on to its bottom cuts; if [boards[2]] is active,
    whether or not [boards[3]] is, the cuts reached so far are propagated to
    its top cuts and on to its bottom cuts; and the cuts reached then give
    the top cuts of [boards[1]].  An inactive board is left as it was. *)
Theorem cut_boards_pipeline b0 b1 b2 b3 cuts boards' :
  cut_boards math_round fuel bit [b0; b1; b2; b3] cuts = Some (inr boards') ->
  exists b0' b1' b2' b3' in2 in1 top1,
    boards' = [b0'; b1'; b2'; b3'] /\
    cuts_are (bottom_cuts b0') cuts /\
    stage cuts in2 b0 b3 b3' /\
    stage in2 in1 b0 b2 b2' /\
    adjoining_cuts in1 bit b1 = inr top1 /\
    cuts_are (top_cuts b1') top1.
Proof.
  unfold cut_boards. intro H.
  run_step H. destruct p as [last0 boards0].
  apply set_bottom_cuts_ok in E as (x & Ex & Hs0 & ->).
  injection Ex as <-. cbn [store_board board_at nth_error Rbind Rret] in H.
  run_step H. destruct p as [last3 boards3].
  eapply (@stage_ok 3 _ _ _ _ cuts) in E
    as (b3' & in2 & -> & Hs3 & Hst3); [|reflexivity|reflexivity|exact Hs0].
  cbn [store_board board_at nth_error Rbind Rret] in H.
  run_step H. destruct p as [last2 boards2].
  eapply (@stage_ok 2 _ _ _ _ in2) in E
    as (b2' & in1 & -> & Hs2 & Hst2); [|reflexivity|reflexivity|exact Hs3].
  cbn [store_board] in H.
  unfold bottom_board, board_at, Rlift in H.
  cbn [nth_error Rbind Rret] in H.
  destruct (adjoining_cuts last2 bit b1) as [e|top1] eqn:Etop;
    cbn [Rbind] in H; [discriminate|].
  run_step H. destruct p as [top1' boards1].
  apply set_top_cuts_ok in E as (x & Ex & Hs1 & ->).
  injection Ex as <-. cbn [store_board snd Rret] in H. injection H as <-.
  exists (with_bottom_cuts last0 b0), (with_top_cuts top1' b1), b2', b3',
    in2, in1, top1.
  repeat split.
  - exists last0. split; [reflexivity|exact Hs0].
  - exact Hst3.
  - exact Hst2.
  - rewrite <- Etop. apply adjoining_cuts_same. now symmetry.
  - exists top1'. split; [reflexivity|exact Hs1].
Qed.

End Pipeline.

(** Four active boards 96 wide, without extra thickness. *)
Definition four_boards : list Board :=
  [plain_board 96 0; plain_board 96 0; plain_board 96 0; plain_board 96 0].

(** The boards that [cut_boards] leaves for one cut from 24 to 48. *)
Definition assembled : list Board :=
  match cut_boards round_half_up 50 straight24 four_boards [Cut_init 24 48]
  with
  | Some (inr boards) => boards
  | _ => []
  end.

(** The bounds of the top cuts of [boards[i]] in a result. *)
Definition top_cuts_at (r : R (list Board)) (i : nat)
  : option (list (Q * Q)) :=
  match r with
  | Some (inr boards) =>
      match nth_error boards i with
      | Some b =>
          match top_cuts b with
          | Some cs => Some (bounds_of (inr cs))
          | None => None
          end
      | None => None
      end
  | _ => None
  end.

(** C7, as stated, fails: with [boards[3]] and [boards[2]] both active the
    step of [boards[2]] runs after that of [boards[3]], and [boards[2]] gets
    its top cuts; in the pipeline as the claim words it, it gets none. *)
Lemma double_step_runs_after_double_double :
  top_cuts_at
    (cut_boards round_half_up 50 straight24 four_boards [Cut_init 24 48]) 2
  = Some [(0, 24); (48, 96)] /\
  top_cuts_at
    (cut_boards_spec round_half_up 50 straight24 four_boards
       [Cut_init 24 48]) 2
  = None.
Proof. split; reflexivity. Qed.

Lemma cut_boards_pipeline_witness :
  exists b0' b1' b2' b3' in2 in1 top1,
    assembled = [b0'; b1'; b2'; b3'] /\
    cuts_are (bottom_cuts b0') [Cut_init 24 48] /\
    stage straight24 [Cut_init 24 48] in2 (plain_board 96 0)
      (plain_board 96 0) b3' /\
    stage straight24 in2 in1 (plain_board 96 0) (plain_board 96 0) b2' /\
    adjoining_cuts in1 straight24 (plain_board 96 0) = inr top1 /\
    cuts_are (top_cuts b1') top1.
Proof.
  apply (@cut_boards_pipeline round_half_up 50 straight24
           (plain_board 96 0) (plain_board 96 0) (plain_board 96 0)
           (plain_board 96 0) [Cut_init 24 48] assembled).
  reflexivity.
Defined.

(* ------------------------------------------------------------------ *)
(** ** The persisted record: the version number *)

(** What [serialize] saves for the straight bit of width 24 and two boards,
    equally spaced. *)
Definition sample_saved : Serialize.Saved :=
  let board :=
    {| Serialize.width := Serialize.PInt 240;
       Serialize.height := Serialize.PInt 48;
       Serialize.wood := Serialize.PNone;
       Serialize.active := Serialize.PBool true;
       Serialize.dheight := Serialize.PInt 0 |} in
  {| Serialize.s_units :=
       {| Serialize.metric := Serialize.PBool false;
          Serialize.num_increments := Serialize.PInt 32 |};
     Serialize.s_width := Serialize.PInt 24;
     Serialize.s_depth := Serialize.PInt 32;
     Serialize.s_angle := Serialize.PInt 0;
     Serialize.s_boards := [board; board];
     Serialize.s_sp_description := "Equally spaced";
     Serialize.s_sp_cuts := Serialize.PNone;
     Serialize.s_sp_params := Serialize.PObj "params";
     Serialize.s_description := Serialize.PStr "box joint" |}.

(** What [unserialize] returns for [sample_saved]. *)
Definition sample_loaded : Serialize.Loaded :=
  {| Serialize.units := Serialize.s_units sample_saved;
     Serialize.bit := Router_Bit_init ideal_numerics 24 32 0 33;
     Serialize.boards := Serialize.s_boards sample_saved;
     Serialize.sp := Serialize.Equally_Spaced (Serialize.PObj "params") false;
     Serialize.sp_type := Serialize.PStr "Equa";
     Serialize.description := Serialize.PStr "box joint" |}.

(** C9, as stated, fails: a record whose version is a number no release has,
    or is not a version at all, is decoded like any other. *)
Lemma future_version_accepted :
  Serialize.unserialize ideal_numerics
    (Serialize.serialize (Serialize.PStr "99.0.0") sample_saved) true
  = inr sample_loaded /\
  Serialize.unserialize ideal_numerics
    (Serialize.serialize Serialize.PNone sample_saved) true
  = inr sample_loaded.
Proof. split; reflexivity. Qed.

(** C9 (amended): [unserialize] reads the leading version number and does
    not look at it: whatever the version, known or not, the rest of the
    record is decoded in the same way and gives the same result or the same
    exception. *)
Theorem unserialize_ignores_version N version version' rest newformat :
  Serialize.unserialize N (version :: rest) newformat
  = Serialize.unserialize N (version' :: rest) newformat.
Proof.
  unfold Serialize.unserialize, Serialize.unserialize_body.
  unfold bind at 1 3. cbn [Serialize.load]. reflexivity.
Qed.

(* ================================================================== *)
(** * Further properties of the code *)
(* ------------------------------------------------------------------ *)
(** ** The persisted record: what a round trip restores *)

Lemma load_boards_dump bs rest :
  Serialize.load_boards (List.length bs)
    (flat_map Serialize.dump_board bs ++ rest) = (rest, inr bs).
Proof.
  induction bs as [|[w hgt wd act dh] bs IH]; [reflexivity|].
  cbn [List.length Serialize.load_boards flat_map Serialize.dump_board app].
  unfold bind at 1. unfold Serialize.load_board, bind. cbn.
  unfold bind in IH. rewrite IH. reflexivity.
Qed.

(** The spacing object that [unserialize] builds from a saved one. *)
Definition restored_spacing (x : Serialize.Saved) (newformat : bool)
  : Serialize.Spacing :=
  let t := substring 0 4 (Serialize.s_sp_description x) in
  if String.eqb t "Edit" then Serialize.Edit_Spaced (Serialize.s_sp_cuts x)
  else if String.eqb t "Equa"
       then Serialize.Equally_Spaced (Serialize.s_sp_params x) (negb newformat)
       else Serialize.Variable_Spaced (Serialize.s_sp_params x) (negb newformat).

(** The description that [unserialize] returns for a saved one. *)
Definition restored_description (x : Serialize.Saved) (newformat : bool)
  : Serialize.pval :=
  if String.eqb (substring 0 4 (Serialize.s_sp_description x)) "Edit"
  then Serialize.PNone
  else if newformat then Serialize.s_description x else Serialize.PNone.

Lemma bind_load {A} (k : Serialize.pval -> Serialize.U A) v stream :
  bind Serialize.load k (v :: stream) = k v stream.
Proof. reflexivity. Qed.

Lemma bind_ret {S A B} (a : A) (k : A -> M S B) : bind (ret a) k = k a.
Proof. reflexivity. Qed.

Lemma bind_load_boards {A} (k : list Serialize.Board -> Serialize.U A)
  bs rest :
  bind (Serialize.load_boards (List.length bs)) k
    (flat_map Serialize.dump_board bs ++ rest) = k bs rest.
Proof. unfold bind. now rewrite load_boards_dump. Qed.

(** On the stream of objects: the unpickler that yields the objects dumped
    by [serialize], in order, makes [unserialize] return the saved units,
    boards and spacing, with the bit rebuilt from the saved width, depth and
    angle. *)
Lemma unserialize_serialize_stream N version x newformat w d a :
  Serialize.decimal_of (Serialize.s_width x) = Some w ->
  Serialize.decimal_of (Serialize.s_depth x) = Some d ->
  Serialize.number_of (Serialize.s_angle x) = Some a ->
  Serialize.unserialize N (Serialize.serialize version x) newformat
  = inr {| Serialize.units := Serialize.s_units x;
           Serialize.bit := Router_Bit_init N w d a 33;
           Serialize.boards := Serialize.s_boards x;
           Serialize.sp := restored_spacing x newformat;
           Serialize.sp_type :=
             Serialize.PStr (substring 0 4 (Serialize.s_sp_description x));
           Serialize.description := restored_description x newformat |}.
Proof.
  intros Hw Hd Ha.
  unfold Serialize.unserialize, Serialize.unserialize_body,
    Serialize.serialize.
  cbn [app]. rewrite !bind_load.
  unfold Serialize.new_bit. rewrite Hw, Hd, Ha. cbn [lift].
  rewrite !bind_ret, bind_load.
  cbn [Serialize.range_of]. rewrite bind_ret, Nat2Z.id, bind_load_boards.
  rewrite bind_load. cbn [Serialize.is_str].
  unfold restored_spacing, restored_description.
  destruct (Serialize.s_units x) as [m ni]. cbn [Serialize.metric Serialize.num_increments].
  destruct (String.eqb (substring 0 4 (Serialize.s_sp_description x)) "Edit").
  - rewrite bind_load. reflexivity.
  - rewrite bind_load.
    destruct (String.eqb (substring 0 4 (Serialize.s_sp_description x))
                "Equa");
      destruct newformat; [rewrite bind_load| |rewrite bind_load|];
      reflexivity.
Qed.

Lemma bind_raises {S A B} (m : M S A) (k : A -> M S B) s e :
  snd (m s) = inl e -> snd (bind m k s) = inl e.
Proof. unfold bind. destruct (m s) as [s' [e'|a]]; cbn; congruence. Qed.

(** Loading [n] boards from fewer than [5 * n] objects runs off the end. *)
Lemma load_boards_short bs : forall j rest,
  (j < 5 * List.length bs)%nat ->
  snd (Serialize.load_boards (List.length bs)
         (firstn j (flat_map Serialize.dump_board bs ++ rest)))
  = inl EOFError.
Proof.
  induction bs as [|[w hgt wd act dh] bs IH]; intros j rest Hj;
    [cbn in Hj; lia|].
  cbn [List.length Serialize.load_boards flat_map Serialize.dump_board app].
  do 5 (destruct j as [|j]; [reflexivity|]).
  cbn [firstn]. unfold bind at 1. unfold Serialize.load_board.
  rewrite !bind_load. cbn [ret].
  apply bind_raises. apply IH. cbn [List.length] in Hj. lia.
Qed.

(** The objects that [unserialize] reads of a record: all but the
    description, which it reads for a spacing with parameters in the new
    format only. *)
Definition objects_read (x : Serialize.Saved) (newformat : bool) : nat :=
  let n := (9 + 5 * List.length (Serialize.s_boards x))%nat in
  if String.eqb (substring 0 4 (Serialize.s_sp_description x)) "Edit"
  then n
  else if newformat then S n else n.

(** On the stream of objects: with fewer objects than [unserialize] reads,
    a [load()] runs off the end. *)
Lemma unserialize_truncated_stream N version x newformat w d a k :
  Serialize.decimal_of (Serialize.s_width x) = Some w ->
  Serialize.decimal_of (Serialize.s_depth x) = Some d ->
  Serialize.number_of (Serialize.s_angle x) = Some a ->
  (k < objects_read x newformat)%nat ->
  Serialize.unserialize N (firstn k (Serialize.serialize version x)) newformat
  = inl EOFError.
Proof.
  intros Hw Hd Ha Hk.
  unfold Serialize.unserialize, Serialize.unserialize_body,
    Serialize.serialize.
  cbn [app].
  do 6 (destruct k as [|k]; [reflexivity|cbn [firstn]; rewrite bind_load]).
  unfold Serialize.new_bit. rewrite Hw, Hd, Ha. cbn [lift].
  rewrite !bind_ret.
  destruct k as [|k]; [reflexivity|cbn [firstn]; rewrite bind_load].
  cbn [Serialize.range_of]. rewrite bind_ret, Nat2Z.id.
  set (bs := Serialize.s_boards x) in *.
  set (t := substring 0 4 (Serialize.s_sp_description x)) in *.
  destruct (Nat.lt_ge_cases k (5 * List.length bs)) as [Hlt|Hge].
  { apply bind_raises. now apply load_boards_short. }
  assert (Hlen : List.length (flat_map Serialize.dump_board bs)
                 = (5 * List.length bs)%nat).
  { clear. induction bs as [|b bs IH]; [reflexivity|].
    cbn [flat_map List.length]. rewrite length_app, IH. cbn. lia. }
  rewrite firstn_app, Hlen, firstn_all2 by lia.
  rewrite bind_load_boards.
  unfold objects_read in Hk. fold bs t in Hk.
  remember (k - 5 * List.length bs)%nat as i eqn:Hi.
  destruct i as [|i]; [reflexivity|cbn [firstn]; rewrite bind_load].
  cbn [Serialize.is_str].
  destruct (String.eqb t "Edit").
  - destruct i as [|i]; [reflexivity|lia].
  - destruct i as [|i]; [reflexivity|cbn [firstn]; rewrite bind_load].
    destruct newformat; [|lia].
    destruct i as [|i]; [reflexivity|lia].
Qed.

(* ------------------------------------------------------------------ *)
(** ** The strings of [serialize] and [unserialize] *)

(** The encodings that [serialize.py] takes from the library: the modules
    [pickle] and [binascii] and the methods [decode] and [encode] of
    strings.  [pickled objs] is the content of the [BytesIO] after a
    [Pickler] has dumped [objs] in turn.  [unpickler data] is what an
    [Unpickler] on [data] gives: the objects that successive [load()] calls
    return, and the exception of the call after the last of them
    ([EOFError] where the data ends with the last object,
    [UnpicklingError] where what follows is no pickle or is cut short). *)
Record Codec : Type := {
  bytes : Type;
  str : Type;
  pickled : list Serialize.pval -> bytes;
  unpickler : bytes -> list Serialize.pval * exn;
  b2a_qp : bytes -> bytes;
  a2b_qp : str -> bytes;
  utf8_decode : bytes -> str;
  utf8_encode : str -> bytes
}.

(** [serialize]: the quoted-printable text of the pickled objects. *)
Definition serialize_string (C : Codec) (version : Serialize.pval)
  (x : Serialize.Saved) : str C :=
  utf8_decode C (b2a_qp C (pickled C (Serialize.serialize version x))).

(** [unserialize] on the string [s]: the unpickler reads [a2b_qp(s)] in the
    new format and [s.encode()], undecoded, otherwise; the [load()] that
    finds no further object raises the exception of the unpickler. *)
Definition unserialize_string (C : Codec) (N : Numerics) (s : str C)
  (newformat : bool) : result Serialize.Loaded :=
  let data := if newformat then a2b_qp C s else utf8_encode C s in
  let '(objs, e) := unpickler C data in
  match Serialize.unserialize N objs newformat with
  | inl EOFError => inl e
  | r => r
  end.

(** A codec for the examples: the bytes and the text are the objects
    themselves. *)
Definition plain_codec : Codec :=
  {| bytes := list Serialize.pval;
     str := list Serialize.pval;
     pickled := fun objs => objs;
     unpickler := fun data => (data, EOFError);
     b2a_qp := fun data => data;
     a2b_qp := fun s => s;
     utf8_decode := fun data => data;
     utf8_encode := fun s => s |}.

(** X1: the string that [serialize] returns is read back by [unserialize]
    in the new format ([newformat=True]), whatever the version.  Where
    decoding the quoted-printable text gives the pickled bytes back (a
    condition on the record: [b2a_qp] rewrites the line ends of bytes that
    mix them) and the unpickler yields from them the objects dumped, the
    call returns the
    saved units, boards and spacing (class and parameters or cuts), with the
    bit rebuilt from the saved width, depth and angle: the gentleness of
    the bit is not saved (it is 33 again), and the description is read back
    for a spacing with parameters only ([None] for an edited one).  The
    classes of the module [spacing] are not among the sources: the spacing
    is given as the constructor called and its arguments, for a call in
    which that constructor returns. *)
Theorem serialized_string_read_back C N version x w d a :
  let objs := Serialize.serialize version x in
  a2b_qp C (utf8_decode C (b2a_qp C (pickled C objs))) = pickled C objs ->
  unpickler C (pickled C objs) = (objs, EOFError) ->
  Serialize.decimal_of (Serialize.s_width x) = Some w ->
  Serialize.decimal_of (Serialize.s_depth x) = Some d ->
  Serialize.number_of (Serialize.s_angle x) = Some a ->
  unserialize_string C N (serialize_string C version x) true
  = inr {| Serialize.units := Serialize.s_units x;
           Serialize.bit := Router_Bit_init N w d a 33;
           Serialize.boards := Serialize.s_boards x;
           Serialize.sp := restored_spacing x true;
           Serialize.sp_type :=
             Serialize.PStr (substring 0 4 (Serialize.s_sp_description x));
           Serialize.description := restored_description x true |}.
Proof.
  cbv zeta. intros Hqp Hpickle Hw Hd Ha.
  unfold unserialize_string, serialize_string.
  rewrite Hqp, Hpickle.
  rewrite (@unserialize_serialize_stream N version x true w d a Hw Hd Ha).
  reflexivity.
Qed.

Lemma serialized_string_read_back_witness :
  unserialize_string plain_codec ideal_numerics
    (serialize_string plain_codec (Serialize.PStr "0.9.3") sample_saved) true
  = inr sample_loaded.
Proof.
  exact (@serialized_string_read_back plain_codec ideal_numerics
           (Serialize.PStr "0.9.3") sample_saved 24 32 0
           eq_refl eq_refl eq_refl eq_refl eq_refl).
Defined.

(** X2: a record cut short is never taken for a shorter record.  Where the
    bytes that [unserialize] hands to the unpickler ([a2b_qp(s)] in the new
    format, [s.encode()] otherwise) yield only the first [k] objects of a
    record, fewer than [unserialize] reads of it, the call raises the
    exception [e] with which the unpickler ends: [EOFError] where the data
    end with the last whole object, [UnpicklingError] where they end inside
    the next one. *)
Theorem truncated_record_raises C N version x newformat s w d a k e :
  Serialize.decimal_of (Serialize.s_width x) = Some w ->
  Serialize.decimal_of (Serialize.s_depth x) = Some d ->
  Serialize.number_of (Serialize.s_angle x) = Some a ->
  (k < objects_read x newformat)%nat ->
  unpickler C (if newformat then a2b_qp C s else utf8_encode C s)
  = (firstn k (Serialize.serialize version x), e) ->
  unserialize_string C N s newformat = inl e.
Proof.
  intros Hw Hd Ha Hk Hdata.
  unfold unserialize_string. rewrite Hdata.
  rewrite (@unserialize_truncated_stream N version x newformat w d a k
             Hw Hd Ha Hk).
  reflexivity.
Qed.

Lemma truncated_record_raises_witness :
  unserialize_string plain_codec ideal_numerics
    (firstn 12 (Serialize.serialize (Serialize.PStr "0.9.3") sample_saved))
    true
  = inl EOFError.
Proof.
  apply (@truncated_record_raises plain_codec ideal_numerics
           (Serialize.PStr "0.9.3") sample_saved true
           (firstn 12 (Serialize.serialize (Serialize.PStr "0.9.3")
                         sample_saved))
           24 32 0 12 EOFError eq_refl eq_refl eq_refl).
  - vm_compute. lia.
  - reflexivity.
Defined.

(* ------------------------------------------------------------------ *)
(** ** Edge cut propagation: two hops over a whole edge *)

(** [adjoining_cuts] applied to its own result. *)
Definition adjoining_again (cuts : list Cut) (bit : Router_Bit)
  (board : Board) : result (list Cut) :=
  match adjoining_cuts cuts bit board with
  | inl e => inl e
  | inr once => adjoining_cuts once bit board
  end.

(** Cuts with the same bounds, one by one. *)
Definition same_bounds : list Cut -> list Cut -> Prop :=
  Forall2 (fun c1 c2 => xmin c1 == xmin c2 /\ xmax c1 == xmax c2).

(** Neither bound of the cut [c], moved by the offset and the extra
    thickness, is clamped to the board. *)
Definition unclamped (off dh w : Q) (c : Cut) : Prop :=
  0 <= xmin c /\ xmax c <= w /\
  0 <= xmax c - off + dh /\ xmin c + off - dh <= w.

Lemma last_nonempty {A} (x : A) l d d' : last (x :: l) d = last (x :: l) d'.
Proof.
  revert x. induction l as [|y l IH]; intro x; [reflexivity|].
  change (last (y :: l) d = last (y :: l) d'). apply IH.
Qed.

Lemma inner_cuts_again off dh w cs : forall A c1 R,
  Forall (unclamped off dh w) (c1 :: cs) ->
  xmin R == Qmax 0 (xmax (last (c1 :: cs) c1) - off + dh) ->
  exists c1' rest',
    inner_cuts off dh w (A :: inner_cuts off dh w (c1 :: cs) ++ [R])
    = c1' :: rest' /\
    xmin c1' = Qmax 0 (xmax A - off + dh) /\
    xmax c1' == xmax c1 /\
    same_bounds rest' cs.
Proof.
  induction cs as [|c2 cs IH]; intros A c1 R Hall HR.
  - cbn [inner_cuts app]. eexists. eexists. split; [reflexivity|].
    cbn [xmin xmax Cut_init last] in *.
    apply Forall_inv in Hall. destruct Hall as (H0 & Hw & Hlo & Hhi).
    split; [reflexivity|]. split; [|constructor].
    destruct (Qmax_cases 0 (xmax c1 - off + dh)) as [[Hc E]|[Hc E]];
      rewrite E in HR;
      match goal with |- context [Qmin ?a ?b] =>
        destruct (Qmin_cases a b) as [[Hm ->]|[Hm ->]] end; lra.
  - assert (Hall2 := Forall_inv_tail Hall).
    assert (H1 := Forall_inv Hall). assert (H2 := Forall_inv Hall2).
    destruct H1 as (H10 & H1w & H1lo & H1hi).
    destruct H2 as (H20 & H2w & H2lo & H2hi).
    change (inner_cuts off dh w (c1 :: c2 :: cs))
      with (Cut_init (Qmax 0 (xmax c1 - off + dh))
                     (Qmin w (xmin c2 + off - dh))
            :: inner_cuts off dh w (c2 :: cs)).
    cbn [app].
    set (I := Cut_init (Qmax 0 (xmax c1 - off + dh))
                       (Qmin w (xmin c2 + off - dh))).
    change (inner_cuts off dh w
              (A :: I :: inner_cuts off dh w (c2 :: cs) ++ [R]))
      with (Cut_init (Qmax 0 (xmax A - off + dh))
                     (Qmin w (xmin I + off - dh))
            :: inner_cuts off dh w
                 (I :: inner_cuts off dh w (c2 :: cs) ++ [R])).
    destruct (IH I c2 R Hall2) as (c2' & rest' & E & Emin & Emax & Hrest).
    { rewrite HR. change (last (c1 :: c2 :: cs) c1) with (last (c2 :: cs) c1).
      now rewrite (last_nonempty c2 cs c1 c2). }
    rewrite E. eexists. eexists. split; [reflexivity|].
    cbn [xmin xmax Cut_init]. split; [reflexivity|]. split.
    + unfold I. cbn [xmin Cut_init].
      destruct (Qmax_cases 0 (xmax c1 - off + dh)) as [[Hc ->]|[Hc ->]];
        match goal with |- context [Qmin ?a ?b] =>
          destruct (Qmin_cases a b) as [[Hm ->]|[Hm ->]] end; lra.
    + constructor; [|exact Hrest]. split; [|exact Emax].
      rewrite Emin. unfold I. cbn [xmax Cut_init].
      destruct (Qmin_cases w (xmin c2 + off - dh)) as [[Hc ->]|[Hc ->]];
        match goal with |- context [Qmax ?a ?b] =>
          destruct (Qmax_cases a b) as [[Hm ->]|[Hm ->]] end; lra.
Qed.

(** X3: two hops over a whole edge.  For cuts none of whose bounds is
    clamped to the board, the first after the left edge and the last before
    the right edge, and both edge cuts kept by the first hop,
    [adjoining_cuts] applied to its own result gives the cuts back, one for
    one: every bound is the same but the [xmin] of the first cut, which is
    within 0.00005 of it (the first hop quantizes its left-edge cut). *)
Theorem adjoining_again_restores bit board c1 rest :
  let off := width_f bit - midline bit in
  let dh := inject_Z (dheight board) in
  let w := inject_Z (bwidth board) in
  0 < xmin c1 -> dh <= xmin c1 + off - dh ->
  xmax (last rest c1) < w -> dh <= w - (xmax (last rest c1) - off + dh) ->
  Forall (unclamped off dh w) (c1 :: rest) ->
  exists c1' rest',
    adjoining_again (c1 :: rest) bit board = inr (c1' :: rest') /\
    - (1 # 20000) <= xmin c1' - xmin c1 <= 1 # 20000 /\
    xmax c1' == xmax c1 /\
    same_bounds rest' rest.
Proof.
  intros off dh w H0 Hleft Hw Hright Hall.
  assert (Hlast : last (c1 :: rest) c1 = last rest c1).
  { destruct rest as [|c2 rest]; [reflexivity|].
    change (last (c1 :: c2 :: rest) c1) with (last (c2 :: rest) c1).
    reflexivity. }
  assert (B1 : Qltb 0 (xmin c1) = true) by now apply Qltb_lt.
  assert (B2 : Qleb dh (xmin c1 + off - dh - 0) = true)
    by (apply Qleb_le; lra).
  assert (B3 : Qltb (xmax (last rest c1)) w = true) by now apply Qltb_lt.
  assert (B4 : Qleb dh (w - (xmax (last rest c1) - off + dh)) = true)
    by now apply Qleb_le.
  assert (B5 : Qltb w w = false) by (apply Qltb_ge; lra).
  unfold adjoining_again, adjoining_cuts. fold off dh w.
  rewrite Hlast, B1, B2, B3, B4. cbn [app].
  set (L := Cut_init 0 (quantize4 (xmin c1 + off - dh))).
  set (R := Cut_init (Qmax 0 (xmax (last rest c1) - off + dh)) (Qmin w w)).
  rewrite app_comm_cons, last_last. rewrite <- app_comm_cons.
  change (Qltb 0 (xmin L)) with false.
  assert (BR : Qltb (xmax R) w = false).
  { unfold R. cbn [xmax Cut_init]. now rewrite Qmin_same. }
  destruct (@inner_cuts_again off dh w rest L c1 R Hall)
    as (c1' & rest' & E & Emin & Emax & Hrest).
  { rewrite Hlast. reflexivity. }
  exists c1', rest'. split.
  { rewrite BR, E. cbn [app]. now rewrite app_nil_r. }
  split; [|split; assumption].
  rewrite Emin. unfold L. cbn [xmax Cut_init].
  pose proof (quantize4_near (xmin c1 + off - dh)) as [Q1 Q2].
  destruct (Qmax_cases 0 (quantize4 (xmin c1 + off - dh) - off + dh))
    as [[Hc ->]|[Hc ->]]; split; lra.
Qed.

Lemma adjoining_again_restores_witness :
  exists c1' rest',
    adjoining_again [Cut_init 40 72; Cut_init 100 132; Cut_init 160 192]
      dovetail32 (plain_board 240 0) = inr (c1' :: rest') /\
    - (1 # 20000) <= xmin c1' - 40 <= 1 # 20000 /\
    xmax c1' == 72 /\
    same_bounds rest' [Cut_init 100 132; Cut_init 160 192].
Proof.
  apply (@adjoining_again_restores dovetail32 (plain_board 240 0)
           (Cut_init 40 72) [Cut_init 100 132; Cut_init 160 192]);
    try reflexivity; try discriminate.
  repeat constructor; vm_compute; discriminate.
Defined.

(* ------------------------------------------------------------------ *)
(** ** Cut: a cut as wide as the bit *)

(** X4: a cut exactly as wide as the bit that does not reach the right edge
    of the board, with [xmin] and the half-width whole numbers of increments,
    gets one pass, at its centre [xmin + halfwidth]. *)
Theorem exact_width_single_pass math_round bit board c a h fuel :
  (forall q z, q == inject_Z z -> math_round q = z) ->
  xmin c == inject_Z a -> halfwidth bit == inject_Z h ->
  0 < width_f bit -> xmax c - xmin c == width_f bit ->
  0 <= xmin c -> xmax c < inject_Z (bwidth board) ->
  make_router_passes math_round bit board c (S fuel)
  = Some (inr {| xmin := xmin c; xmax := xmax c; passes := [(a + h)%Z] |}).
Proof.
  intros Hround Ha Hh Hw Hrem H0 Hin.
  assert (Hw2 : width_f bit == 2 * halfwidth bit)
    by (unfold halfwidth; field).
  assert (Hv : validate c bit board = inr tt).
  { unfold validate.
    assert (E1 : Qleb (xmax c) (xmin c) = false) by (apply Qleb_gt; lra).
    assert (E2 : Qltb (xmin c) 0 = false) by (apply Qltb_ge; lra).
    assert (E3 : Qltb (inject_Z (bwidth board)) (xmax c) = false)
      by (apply Qltb_ge; lra).
    assert (E4 : Qltb precision (width_f bit - (xmax c - xmin c)) = false)
      by (apply Qltb_ge; unfold precision; lra).
    now rewrite E1, E2, E3, E4. }
  assert (E0 : seed_p0 math_round bit board c = inject_Z (a + h)).
  { unfold seed_p0.
    assert (E : Qeqb (xmax c) (inject_Z (bwidth board)) = false).
    { destruct (Qeqb _ _) eqn:E; [|reflexivity].
      apply Qeqb_eq in E. lra. }
    rewrite E. cbn [andb]. f_equal. apply Hround. push_inject. lra. }
  assert (E1 : seed_p1 math_round bit c = inject_Z (a + h)).
  { unfold seed_p1. f_equal. apply Hround. push_inject. lra. }
  assert (Ef : first_passes math_round bit board c = [(a + h)%Z]).
  { unfold first_passes. rewrite E0.
    assert (B1 : Qleb (xmax c) (inject_Z (bwidth board)) = true)
      by (apply Qleb_le; lra).
    assert (B2 : Qltb (xmin c - (inject_Z (a + h) - halfwidth bit))
                   precision = true).
    { apply Qltb_lt. unfold precision. push_inject. lra. }
    rewrite B1, B2. cbn [andb orb]. f_equal.
    now apply Qtrunc_integer. }
  unfold make_router_passes. rewrite Hv, E1, Ef.
  cbn [passes_loop].
  assert (Br : Qltb 0 (xmax c - xmin c) = true) by (apply Qltb_lt; lra).
  rewrite Br. unfold loop_body. rewrite E0.
  assert (Bq : Qeqb (inject_Z (a + h)) (inject_Z (a + h)) = true)
    by (apply Qeqb_eq; reflexivity).
  rewrite Bq. cbn [negb andb].
  assert (Bend : forall p1' : Q,
    passes_loop math_round bit board c fuel
      (if Qltb (inject_Z (a + h) - inject_Z (a + h))
               (floordiv (width_f bit * 4) 5)
       then 0 else inject_Z (a + h) - inject_Z (a + h),
       p1', [(a + h)%Z]) = Some [(a + h)%Z]).
  { intro p1'.
    assert (Bz : forall r, r == 0 ->
              passes_loop math_round bit board c fuel (r, p1', [(a + h)%Z])
              = Some [(a + h)%Z]).
    { intros r Hr. destruct fuel; cbn [passes_loop];
        assert (B : Qltb 0 r = false) by (apply Qltb_ge; lra);
        now rewrite B. }
    destruct (Qltb (inject_Z (a + h) - inject_Z (a + h))
                (floordiv (width_f bit * 4) 5));
      apply Bz; [reflexivity|ring]. }
  rewrite Bend.
  change (ZSort.sort [(a + h)%Z]) with [(a + h)%Z].
  cbn [existsb]. unfold pass_too_wide.
  assert (P1 : Qltb precision (xmin c - (inject_Z (a + h) - halfwidth bit))
               = false)
    by (apply Qltb_ge; unfold precision; push_inject; lra).
  assert (P2 : Qltb precision (inject_Z (a + h) + halfwidth bit - xmax c)
               = false)
    by (apply Qltb_ge; unfold precision; push_inject; lra).
  rewrite P1, P2, !andb_false_r. reflexivity.
Qed.

Lemma exact_width_single_pass_witness :
  make_router_passes round_half_up straight24 (plain_board 240 0)
    (Cut_init 108 132) 1
  = Some (inr {| xmin := 108; xmax := 132; passes := [120%Z] |}).
Proof.
  apply (@exact_width_single_pass round_half_up straight24 (plain_board 240 0)
           (Cut_init 108 132) 108 12 0 round_half_up_integer);
    first [reflexivity | discriminate].
Defined.

(* ------------------------------------------------------------------ *)
(** ** Router_Bit and Joint_Geometry: the fit of a dovetail *)

(** [Joint_Geometry.compute_fit]: the pair [(max_gap, max_overlap)]. *)
Definition compute_fit (bit : Router_Bit) : Q * Q :=
  let max_gap := 0 in
  let max_overlap := 0 in
  if Qltb 0 (gap bit) then (gap bit, max_overlap)
  else (max_gap, - gap bit).

Lemma round_half_down_near q :
  - (1 # 2) <= q - inject_Z (round_half_down q) <= 1 # 2.
Proof.
  unfold round_half_down. destruct (Qleb 0 q).
  - unfold Qceiling. rewrite inject_Z_opp.
    pose proof (Qfloor_le (- (q - (1 # 2)))) as Hlo.
    pose proof (Qlt_floor (- (q - (1 # 2)))) as Hhi.
    rewrite inject_Z_plus in Hhi. change (inject_Z 1) with 1 in Hhi.
    split; lra.
  - pose proof (Qfloor_le (q + (1 # 2))) as Hlo.
    pose proof (Qlt_floor (q + (1 # 2))) as Hhi.
    rewrite inject_Z_plus in Hhi. change (inject_Z 1) with 1 in Hhi.
    split; lra.
Qed.

(** The gap of a bit is within half an increment of zero. *)
Lemma reinit_gap_small N b :
  - (1 # 2) <= gap (reinit N b) <= 1 # 2.
Proof.
  unfold reinit. destruct (Qltb 0 (angle b)); cbn [gap].
  - apply round_half_down_near.
  - split; lra.
Qed.

(** X5: the fit diagnostics of a bit after [reinit]: [max_gap] and
    [max_overlap] are between 0 and half an increment, at most one of them is
    not zero, and their difference is the gap of the bit. *)
Theorem fit_diagnostics N b :
  let fit := compute_fit (reinit N b) in
  0 <= fst fit <= 1 # 2 /\ 0 <= snd fit <= 1 # 2 /\
  (fst fit == 0 \/ snd fit == 0) /\
  fst fit - snd fit == gap (reinit N b).
Proof.
  cbv zeta. pose proof (reinit_gap_small N b) as [Hlo Hhi].
  unfold compute_fit. destruct (Qltb 0 (gap (reinit N b))) eqn:E.
  - apply Qltb_lt in E. cbn [fst snd].
    repeat split; lra.
  - apply Qltb_ge in E. cbn [fst snd].
    repeat split; lra.
Qed.

(** X6: the ideal depth of a dovetail bit is [depth + gap / tan], up to the
    rounding of the three decimal operations of [reinit].  With [e1], [e2]
    and [e3] bounds on the rounding errors of the product [depth * tan], of
    the difference [width - offset] and of the quotient
    [(width - midline) / tan], as this call makes them, [depth_0] is within
    [e3 + (e1 + e2) / tan] of [depth + gap / tan]. *)
Theorem depth_0_of_gap N b e1 e2 e3 :
  let t := tan_deg N (angle b) in
  let offset := dec_mul N (depth b) t in
  let midline_f := dec_sub N (width b) offset in
  let midline_i := inject_Z (round_half_down midline_f) in
  0 < angle b -> 0 < t ->
  - e1 <= offset - depth b * t <= e1 ->
  - e2 <= midline_f - (width b - offset) <= e2 ->
  - e3 <= dec_div N (width b - midline_i) t - (width b - midline_i) / t
        <= e3 ->
  - (e3 + (e1 + e2) / t)
  <= depth_0 (reinit N b) - (depth b + gap (reinit N b) / t)
  <= e3 + (e1 + e2) / t.
Proof.
  cbv zeta. intros Ha Ht H1 H2 H3. apply Qltb_lt in Ha.
  unfold reinit. rewrite Ha. cbn [depth_0 gap].
  set (t := tan_deg N (angle b)) in *.
  set (offset := dec_mul N (depth b) t) in *.
  set (mf := dec_sub N (width b) offset) in *.
  set (mi := inject_Z (round_half_down mf)) in *.
  set (dd := dec_div N (width b - mi) t) in *.
  assert (Ht0 : ~ t == 0) by (intro E; rewrite E in Ht; discriminate Ht).
  assert (Hit : 0 < / t) by (apply Qinv_lt_0_compat; exact Ht).
  set (d1 := offset - depth b * t) in *.
  set (d2 := mf - (width b - offset)) in *.
  assert (E : (width b - mi) / t
              == depth b + (mf - mi) / t + (d1 - d2) * / t).
  { subst d1 d2. field. exact Ht0. }
  assert (Hlo : - (e1 + e2) * / t <= (d1 - d2) * / t)
    by (apply Qmult_le_compat_r; lra).
  assert (Hhi : (d1 - d2) * / t <= (e1 + e2) * / t)
    by (apply Qmult_le_compat_r; lra).
  assert (Ee : (e1 + e2) / t == (e1 + e2) * / t) by reflexivity.
  assert (Em : - (e1 + e2) * / t == - ((e1 + e2) * / t)) by ring.
  revert H3 E Hlo Hhi Ee Em.
  generalize ((width b - mi) / t) ((mf - mi) / t) ((d1 - d2) * / t)
    ((e1 + e2) / t) ((e1 + e2) * / t) (- (e1 + e2) * / t).
  intros q1 q2 q3 q4 q5 q6 H3 E Hlo Hhi Ee Em. lra.
Qed.

(** Numerics that round every decimal result to four places. *)
Definition rounded_numerics : Numerics :=
  {| tan_deg := sample_tan;
     dec_mul := fun x y => quantize4 (x * y);
     dec_sub := fun x y => quantize4 (x - y);
     dec_div := fun x y => quantize4 (x / y);
     float_mul := Qmult; float_div := Qdiv;
     decimal_of_string := sample_number |}.

(** A dovetail bit of width 32, depth 24 and angle 14 degrees. *)
Definition dovetail14 : Router_Bit :=
  {| width := 32; depth := 24; angle := 14; bit_gentle := 33;
     midline := 0; depth_0 := 0; width_f := 32; overhang := 16; gap := 0 |}.

Lemma depth_0_of_gap_witness :
  - ((1 # 20000) + ((1 # 20000) + (1 # 20000)) / sample_tan 14)
  <= depth_0 (reinit rounded_numerics dovetail14)
     - (depth dovetail14
        + gap (reinit rounded_numerics dovetail14) / sample_tan 14)
  <= (1 # 20000) + ((1 # 20000) + (1 # 20000)) / sample_tan 14.
Proof.
  apply (@depth_0_of_gap rounded_numerics dovetail14
           (1 # 20000) (1 # 20000) (1 # 20000));
    first [ reflexivity | split; vm_compute; discriminate ].
Defined.

(* ------------------------------------------------------------------ *)
(** ** Router_Bit: what the setters keep *)

(** X7: when [set_width_from_string] succeeds on a straight bit, the new
    width is a positive even number of increments, and the bit has
    [midline = width], no gap and no overhang. *)
Theorem straight_width_is_even N U s b b' :
  angle b == 0 ->
  set_width_from_string N U s b = (b', inr tt) ->
  exists k, (0 < k)%Z /\ width b' == inject_Z (2 * k) /\
            midline b' = width b' /\ gap b' = 0 /\ overhang b' == 0.
Proof.
  intros Ha. rewrite set_width_outcome.
  destruct (width_of_string N U s) as [w|]; [|discriminate].
  destruct (Qleb w 0) eqn:E0; cbn [orb]; [discriminate|].
  apply Qeqb_eq in Ha. rewrite Ha, andb_true_r.
  destruct (uneven w) eqn:Eu; [discriminate|].
  unfold stored. intro H. injection H as <-.
  apply Qleb_gt in E0. unfold uneven in Eu.
  apply orb_false_iff in Eu as [Eu _]. apply negb_false_iff, Qeqb_eq in Eu.
  assert (Hang : Qltb 0 (angle (with_width w b)) = false).
  { cbn [angle with_width]. apply Qltb_ge. apply Qeqb_eq in Ha. lra. }
  exists (Qfloor (w / 2)). unfold reinit. rewrite Hang.
  cbn [width midline gap overhang with_width].
  repeat split.
  - rewrite Zlt_Qlt. change (inject_Z 0) with 0. lra.
  - rewrite inject_Z_mult. change (inject_Z 2) with 2. lra.
  - field.
Qed.

(** X8: [set_angle_from_string] accepts the angle 0 on a bit whose width is
    any whole number, odd ones too; the straight bit it leaves then has an
    odd width, the very width that [set_width_from_string] refuses to set on
    it. *)
Theorem zero_angle_leaves_odd_width N U s0 a0 s w b k :
  width b == inject_Z (2 * k + 1) -> width_f b == width b ->
  string_to_float U s0 = Some a0 -> a0 == 0 ->
  width_of_string N U s = Some w -> w == width b ->
  let straight := reinit N (with_angle a0 b) in
  set_angle_from_string N U s0 b = (straight, inr tt) /\
  angle straight == 0 /\ width straight == inject_Z (2 * k + 1) /\
  set_width_from_string N U s straight = (straight, inl Router_Exception).
Proof.
  intros Hodd Hwf Hs0 Ha0 Hs Hw. cbv zeta.
  assert (Hodd' : width b == 2 * inject_Z k + 1).
  { rewrite Hodd. push_inject. reflexivity. }
  assert (Hin : width (reinit N (with_angle a0 b)) = width b
                /\ angle (reinit N (with_angle a0 b)) = a0).
  { destruct (reinit_inputs N (with_angle a0 b)) as (H1 & _ & H3 & _).
    split; assumption. }
  destruct Hin as [Hwidth Hangle].
  split; [|split; [|split]].
  - rewrite set_angle_outcome, Hs0.
    assert (E1 : Qeqb (inject_Z (Qfloor (width_f b))) (width_f b) = true).
    { apply Qeqb_eq.
      rewrite (@Qfloor_unique (width_f b) (2 * k + 1)); lra. }
    assert (E2 : Qltb a0 0 = false) by (apply Qltb_ge; lra).
    rewrite E1, E2, andb_false_r. reflexivity.
  - rewrite Hangle. exact Ha0.
  - rewrite Hwidth. exact Hodd.
  - rewrite set_width_outcome, Hs.
    assert (Eu : uneven w = true).
    { unfold uneven. apply orb_true_iff. left. apply negb_true_iff.
      destruct (Qeqb (2 * inject_Z (Qfloor (w / 2))) w) eqn:E;
        [|reflexivity].
      apply Qeqb_eq in E. exfalso.
      assert (Hz : (2 * Qfloor (w / 2) = 2 * k + 1)%Z).
      { apply inject_Z_injective. push_inject. change (inject_Z 1) with 1.
        lra. }
      lia. }
    assert (Ea : Qeqb (angle (reinit N (with_angle a0 b))) 0 = true)
      by (rewrite Hangle; now apply Qeqb_eq).
    rewrite Eu, Ea, orb_true_r. reflexivity.
Qed.

(** X9: when [set_depth_from_string] succeeds on a dovetail bit, the new
    depth is positive and the taper [depth * tan] stays below [width / 3.5],
    up to the rounding of the two float divisions of the test: with [eps] a
    bound on the relative excess of each computed quotient over the exact
    one, [depth * tan * 3.5 < width * (1 + eps)^2]. *)
Theorem depth_setter_keeps_taper_inside N U s b b' eps :
  let t := tan_deg N (angle b) in
  let q := float_div N (width b) (35 # 10) in
  0 <= eps -> 0 < angle b -> 0 < t ->
  q <= width b / (35 # 10) * (1 + eps) ->
  float_div N q t <= q / t * (1 + eps) ->
  set_depth_from_string N U s b = (b', inr tt) ->
  0 < depth b'
  /\ depth b' * t * (35 # 10) < width b * (1 + eps) * (1 + eps).
Proof.
  cbv zeta. intros He Ha Ht Hq1 Hq2. rewrite set_depth_outcome.
  destruct (string_to_increments U s false) as [d|]; [|discriminate].
  destruct (too_deep N b d) eqn:Ed; cbn [orb]; [discriminate|].
  destruct (Qleb d 0) eqn:E0; [discriminate|].
  unfold stored. intro H. injection H as <-.
  destruct (reinit_inputs N (with_depth d b)) as (_ & Hd & _).
  rewrite Hd. cbn [depth with_depth].
  apply Qleb_gt in E0. split; [exact E0|].
  unfold too_deep in Ed. apply Qltb_lt in Ha. rewrite Ha in Ed.
  cbn [andb] in Ed. apply Qleb_gt in Ed.
  set (t := tan_deg N (angle b)) in *.
  set (q := float_div N (width b) (35 # 10)) in *.
  assert (Ht0 : ~ t == 0) by (intro E; rewrite E in Ht; discriminate Ht).
  assert (Hlt : d < q / t * (1 + eps)) by lra.
  apply (Qmult_lt_compat_r _ _ t Ht) in Hlt.
  assert (E1 : q / t * (1 + eps) * t == q * (1 + eps)) by (field; exact Ht0).
  assert (Hq3 : q * (1 + eps)
                <= width b / (35 # 10) * (1 + eps) * (1 + eps))
    by (apply Qmult_le_compat_r; lra).
  assert (Hdt : d * t < width b / (35 # 10) * (1 + eps) * (1 + eps)) by lra.
  apply (Qmult_lt_compat_r _ _ (35 # 10)) in Hdt; [|reflexivity].
  assert (E2 : width b / (35 # 10) * (1 + eps) * (1 + eps) * (35 # 10)
               == width b * (1 + eps) * (1 + eps)) by field.
  lra.
Qed.

Lemma straight_width_is_even_witness :
  exists k, (0 < k)%Z /\
    width (reinit ideal_numerics (with_width 24 straight24))
    == inject_Z (2 * k) /\
    midline (reinit ideal_numerics (with_width 24 straight24))
    = width (reinit ideal_numerics (with_width 24 straight24)) /\
    gap (reinit ideal_numerics (with_width 24 straight24)) = 0 /\
    overhang (reinit ideal_numerics (with_width 24 straight24)) == 0.
Proof.
  apply (@straight_width_is_even ideal_numerics metric_units "24" straight24);
    reflexivity.
Defined.

(** A dovetail bit of width 33. *)
Definition dovetail33 : Router_Bit :=
  Router_Bit_init ideal_numerics 33 10 angle_quarter 33.

Lemma zero_angle_leaves_odd_width_witness :
  set_angle_from_string ideal_numerics metric_units "0" dovetail33
  = (reinit ideal_numerics (with_angle 0 dovetail33), inr tt) /\
  angle (reinit ideal_numerics (with_angle 0 dovetail33)) == 0 /\
  width (reinit ideal_numerics (with_angle 0 dovetail33))
  == inject_Z (2 * 16 + 1) /\
  set_width_from_string ideal_numerics metric_units "33"
    (reinit ideal_numerics (with_angle 0 dovetail33))
  = (reinit ideal_numerics (with_angle 0 dovetail33), inl Router_Exception).
Proof.
  apply (@zero_angle_leaves_odd_width ideal_numerics metric_units "0" 0 "33"
           33 dovetail33 16); reflexivity.
Defined.

Lemma depth_setter_keeps_taper_inside_witness :
  0 < depth (reinit ideal_numerics (with_depth 6 dovetail32)) /\
  depth (reinit ideal_numerics (with_depth 6 dovetail32))
  * tan_deg ideal_numerics (angle dovetail32) * (35 # 10)
  < width dovetail32 * (1 + (1 # 9007199254740992))
    * (1 + (1 # 9007199254740992)).
Proof.
  apply (@depth_setter_keeps_taper_inside ideal_numerics metric_units "6"
           dovetail32 _ (1 # 9007199254740992));
    first [ reflexivity | vm_compute; discriminate ].
Defined.

(* ------------------------------------------------------------------ *)
(** ** Caul cuts *)

(** The cut that [caul_cuts] forms from [c]: widened by [trim] on each side,
    within the board. *)
Definition caul_cut (board : Board) (trim : Q) (c : Cut) : Cut :=
  let xmin := Qmax 0 (xmin c - trim) in
  let xmax := Qmin (inject_Z (bwidth board)) (xmax c + trim) in
  Cut_init xmin xmax.

Section Caul.

Variable math_round : Q -> Z.
Variable fuel : nat.

Local Open Scope run_scope.

(** [caul_cuts]. *)
Fixpoint caul_cuts (cuts : list Cut) (bit : Router_Bit) (board : Board)
  (trim : Q) : R (list Cut) :=
  match cuts with
  | [] => Rret []
  | c :: rest =>
      cut <-- make_router_passes math_round bit board
                (caul_cut board trim c) fuel ;;
      new_cuts <-- caul_cuts rest bit board trim ;;
      Rret (cut :: new_cuts)
  end.

(** Widening a valid cut gives a valid cut. *)
Lemma caul_cut_valid bit board trim c :
  0 <= trim -> validate c bit board = inr tt ->
  validate (caul_cut board trim c) bit board = inr tt.
Proof.
  intros Ht Hv. revert Hv. unfold validate, caul_cut.
  cbn [xmin xmax Cut_init].
  set (w := inject_Z (bwidth board)).
  destruct (Qleb (xmax c) (xmin c)) eqn:E1; [discriminate|].
  destruct (Qltb (xmin c) 0) eqn:E2; [discriminate|].
  destruct (Qltb w (xmax c)) eqn:E3; [discriminate|].
  apply Qleb_gt in E1. apply Qltb_ge in E2, E3.
  intro Hv.
  assert (Hnarrow : 0 < xmin c -> xmax c < w ->
                    width_f bit - (xmax c - xmin c) <= precision).
  { intros Ha Hb. apply Qltb_lt in Ha, Hb. rewrite Ha, Hb in Hv.
    destruct (Qltb precision (width_f bit - (xmax c - xmin c))) eqn:E4;
      [discriminate Hv|]. now apply Qltb_ge. }
  clear Hv.
  destruct (Qmax_cases 0 (xmin c - trim)) as [[Hc ->]|[Hc ->]];
    destruct (Qmin_cases w (xmax c + trim)) as [[Hm ->]|[Hm ->]].
  - assert (F1 : Qleb w 0 = false) by (apply Qleb_gt; lra).
    assert (F2 : Qltb 0 0 = false) by reflexivity.
    assert (F3 : Qltb w w = false) by (apply Qltb_ge; lra).
    now rewrite F1, F2, F3, andb_false_r.
  - assert (F1 : Qleb (xmax c + trim) 0 = false) by (apply Qleb_gt; lra).
    assert (F2 : Qltb 0 0 = false) by reflexivity.
    assert (F3 : Qltb w (xmax c + trim) = false) by (apply Qltb_ge; lra).
    rewrite F1, F2, F3. cbn [andb]. now rewrite andb_false_r.
  - assert (F1 : Qleb w (xmin c - trim) = false) by (apply Qleb_gt; lra).
    assert (F2 : Qltb (xmin c - trim) 0 = false) by (apply Qltb_ge; lra).
    assert (F3 : Qltb w w = false) by (apply Qltb_ge; lra).
    now rewrite F1, F2, F3, andb_false_r.
  - assert (F1 : Qleb (xmax c + trim) (xmin c - trim) = false)
      by (apply Qleb_gt; lra).
    assert (F2 : Qltb (xmin c - trim) 0 = false) by (apply Qltb_ge; lra).
    assert (F3 : Qltb w (xmax c + trim) = false) by (apply Qltb_ge; lra).
    rewrite F1, F2, F3.
    assert (Hin : 0 < xmin c /\ xmax c < w) by (split; lra).
    destruct Hin as [Ha Hb]. specialize (Hnarrow Ha Hb).
    assert (F4 : Qltb precision
                   (width_f bit - (xmax c + trim - (xmin c - trim)))
                 = false) by (apply Qltb_ge; lra).
    now rewrite F4.
Qed.

Lemma caul_cuts_bounds cuts bit board trim out :
  0 <= trim ->
  Forall (fun c => validate c bit board = inr tt) cuts ->
  caul_cuts cuts bit board trim = Some (inr out) ->
  Forall2 (fun c c' =>
             0 <= xmin c' /\ xmin c' <= xmin c /\
             xmax c <= xmax c' /\ xmax c' <= inject_Z (bwidth board))
          cuts out.
Proof.
  intros Ht Hall. revert out.
  induction Hall as [|c rest Hc Hrest IH]; intros out H; cbn [caul_cuts] in H.
  - injection H as <-. constructor.
  - destruct (make_router_passes math_round bit board
                (caul_cut board trim c) fuel) as [[e|c']|] eqn:E;
      cbn [Rbind] in H; try discriminate.
    destruct (caul_cuts rest bit board trim) as [[e|rest']|];
      cbn [Rbind Rret] in H; try discriminate.
    injection H as <-. constructor; [|now apply IH].
    apply make_router_passes_ok in E as (Hv & Hmin & Hmax & _).
    rewrite Hmin, Hmax. unfold caul_cut. cbn [xmin xmax Cut_init].
    assert (Hcv : xmin c < xmax c /\ 0 <= xmin c
                  /\ xmax c <= inject_Z (bwidth board)).
    { revert Hc. unfold validate.
      destruct (Qleb (xmax c) (xmin c)) eqn:E1; [discriminate|].
      destruct (Qltb (xmin c) 0) eqn:E2; [discriminate|].
      destruct (Qltb (inject_Z (bwidth board)) (xmax c)) eqn:E3;
        [discriminate|].
      apply Qleb_gt in E1. apply Qltb_ge in E2, E3. auto. }
    destruct Hcv as (H1 & H2 & H3).
    destruct (Qmax_cases 0 (xmin c - trim)) as [[Hq ->]|[Hq ->]];
      destruct (Qmin_cases (inject_Z (bwidth board)) (xmax c + trim))
        as [[Hm ->]|[Hm ->]];
      repeat split; lra.
Qed.

(** X10: for valid cuts and a trim that is not negative, every cut that
    [caul_cuts] forms is valid again, so that [caul_cuts] can fail only in
    the final check of the passes; when it succeeds it returns, for each
    cut, a cut within the board that contains it. *)
Theorem caul_cuts_widen cuts bit board trim :
  0 <= trim ->
  Forall (fun c => validate c bit board = inr tt) cuts ->
  Forall (fun c => validate (caul_cut board trim c) bit board = inr tt) cuts
  /\ forall out,
       caul_cuts cuts bit board trim = Some (inr out) ->
       Forall2 (fun c c' =>
                  0 <= xmin c' /\ xmin c' <= xmin c /\
                  xmax c <= xmax c' /\ xmax c' <= inject_Z (bwidth board))
               cuts out.
Proof.
  intros Ht Hall. split.
  - eapply Forall_impl; [|exact Hall]. intros c Hc.
    now apply caul_cut_valid.
  - intros out. now apply caul_cuts_bounds.
Qed.

End Caul.

Lemma caul_cuts_widen_witness :
  Forall (fun c => validate (caul_cut (plain_board 96 0) 2 c) straight24
                     (plain_board 96 0) = inr tt)
         [Cut_init 24 48] /\
  forall out,
    caul_cuts round_half_up 20 [Cut_init 24 48] straight24
      (plain_board 96 0) 2 = Some (inr out) ->
    Forall2 (fun c c' =>
               0 <= xmin c' /\ xmin c' <= xmin c /\
               xmax c <= xmax c' /\ xmax c' <= inject_Z 96)
            [Cut_init 24 48] out.
Proof.
  apply (@caul_cuts_widen round_half_up 20 [Cut_init 24 48] straight24
           (plain_board 96 0) 2).
  - discriminate.
  - repeat constructor.
Defined.

(* ------------------------------------------------------------------ *)
(** ** Board stack assembly: the boards themselves *)

(** The same board but for its cuts. *)
Definition same_board (b b' : Board) : Prop :=
  bwidth b' = bwidth b /\ dheight b' = dheight b /\ active b' = active b.

Lemma same_board_refl b : same_board b b.
Proof. now repeat split. Qed.

Lemma same_boards_refl bs : Forall2 same_board bs bs.
Proof. induction bs; constructor; auto using same_board_refl. Qed.

Lemma same_boards_trans a b c :
  Forall2 same_board a b -> Forall2 same_board b c -> Forall2 same_board a c.
Proof.
  intro H. revert c. induction H as [|x y l l' Hxy Hl IH]; intros c Hc;
    inversion Hc; subst; constructor.
  - destruct Hxy as (? & ? & ?).
    match goal with H : same_board y _ |- _ => destruct H as (? & ? & ?) end.
    repeat split; congruence.
  - now apply IH.
Qed.

Lemma store_board_same_boards i b b' boards :
  nth_error boards i = Some b -> same_board b b' ->
  Forall2 same_board boards (store_board i b' boards).
Proof.
  revert i. induction boards as [|x rest IH]; intros [|i] H Hb; cbn in *;
    try discriminate.
  - injection H as ->. constructor; [exact Hb|apply same_boards_refl].
  - constructor; [apply same_board_refl|now apply IH].
Qed.

Lemma length_store_board i b boards :
  List.length (store_board i b boards) = List.length boards.
Proof.
  revert i. induction boards as [|x rest IH]; intros [|i]; cbn; auto.
Qed.

Section Boards.

Variable math_round : Q -> Z.
Variable fuel : nat.
Variable bit : Router_Bit.

Ltac run_bind H :=
  match type of H with
  | Rbind ?m _ = Some (inr _) =>
      let E := fresh "E" in
      destruct m as [[?|?]|] eqn:E; cbn [Rbind] in H; try discriminate H
  end.

Lemma through_board_same_boards i last boards last' boards' :
  through_board math_round fuel bit i last boards
  = Some (inr (last', boards')) ->
  Forall2 same_board boards boards'.
Proof.
  intro H.
  apply through_board_ok in H
    as (b0 & bi & top & top' & out & _ & Ei & _ & _ & _ & _ & _ & ->).
  rewrite store_board_twice.
  eapply store_board_same_boards; [exact Ei|]. now repeat split.
Qed.

Lemma stage_same_boards i (act : bool) last boards last' boards' :
  (if act then through_board math_round fuel bit i last boards
   else Rret (last, boards)) = Some (inr (last', boards')) ->
  Forall2 same_board boards boards'.
Proof.
  destruct act.
  - apply through_board_same_boards.
  - intro H. injection H as <- <-. apply same_boards_refl.
Qed.

(** X11: [cut_boards] succeeds only on four boards at least, and changes
    nothing of a board but its cuts: the boards it leaves are as many, each
    with the width, the extra thickness and the activity it had. *)
Theorem cut_boards_keeps_boards boards cuts boards' :
  cut_boards math_round fuel bit boards cuts = Some (inr boards') ->
  (4 <= List.length boards)%nat /\ Forall2 same_board boards boards'.
Proof.
  unfold cut_boards. intro H.
  run_bind H. destruct p as [last0 boards0].
  apply set_bottom_cuts_ok in E as (b0 & E0 & _ & ->).
  assert (S0 : Forall2 same_board boards
                 (store_board 0 (with_bottom_cuts last0 b0) boards)).
  { eapply store_board_same_boards; [exact E0|]. now repeat split. }
  set (boards0 := store_board 0 (with_bottom_cuts last0 b0) boards) in *.
  unfold board_at in H at 1.
  destruct (nth_error boards0 3) as [b3|] eqn:E3; cbn [Rbind Rret] in H;
    [|discriminate].
  run_bind H. destruct p as [last3 boards3].
  apply stage_same_boards in E as S3.
  unfold board_at in H at 1.
  destruct (nth_error boards3 2) as [b2|] eqn:E2; cbn [Rbind Rret] in H;
    [|discriminate].
  run_bind H. destruct p as [last2 boards2].
  apply stage_same_boards in E1 as S2.
  unfold bottom_board, board_at, Rlift in H.
  destruct (nth_error boards2 1) as [b1|] eqn:E1'; cbn [Rbind Rret] in H;
    [|discriminate].
  destruct (adjoining_cuts last2 bit b1) as [e|top1]; cbn [Rbind] in H;
    [discriminate|].
  run_bind H. destruct p as [top1' boards1].
  apply set_top_cuts_ok in E4 as (x & Ex & _ & ->).
  cbn [snd] in H.
  assert (Hb : boards' = store_board 1 (with_top_cuts top1' x) boards2)
    by (unfold Rret in H; congruence).
  rewrite Hb. clear H Hb.
  split.
  - assert (Hl : (3 < List.length boards0)%nat)
      by (apply nth_error_Some; congruence).
    unfold boards0 in Hl. now rewrite length_store_board in Hl.
  - eapply same_boards_trans; [exact S0|].
    eapply same_boards_trans; [exact S3|].
    eapply same_boards_trans; [exact S2|].
    eapply store_board_same_boards; [exact Ex|]. now repeat split.
Qed.

End Boards.

Lemma cut_boards_keeps_boards_witness :
  (4 <= List.length four_boards)%nat /\
  Forall2 same_board four_boards assembled.
Proof.
  apply (@cut_boards_keeps_boards round_half_up 50 straight24 four_boards
           [Cut_init 24 48] assembled).
  reflexivity.
Defined.


(* ------------------------------------------------------------------ *)
(** ** Edge cut propagation: the shape of the result *)

Lemma length_inner_cuts off dh w c0 rest :
  List.length (inner_cuts off dh w (c0 :: rest)) = List.length rest.
Proof.
  revert c0. induction rest as [|c1 rest IH]; intro c0; [reflexivity|].
  cbn [inner_cuts List.length]. f_equal. apply IH.
Qed.

Lemma inner_cuts_within off dh w cuts :
  Forall (fun c => passes c = [] /\ 0 <= xmin c /\ xmax c <= w)
         (inner_cuts off dh w cuts).
Proof.
  induction cuts as [|c1 cuts IH]; [constructor|].
  destruct cuts as [|c2 cuts]; [constructor|].
  cbn [inner_cuts]. constructor; [|exact IH].
  cbn [passes xmin xmax Cut_init]. split; [reflexivity|]. split.
  - destruct (Qmax_cases 0 (xmax c1 - off + dh)) as [[H ->]|[H ->]]; lra.
  - destruct (Qmin_cases w (xmin c2 + off - dh)) as [[H ->]|[H ->]]; lra.
Qed.

Lemma edge_cut_shape (b1 b2 : bool) (c : Cut) (P : Cut -> Prop) :
  P c ->
  Forall P (if b1 then if b2 then [c] else [] else []) /\
  (List.length (if b1 then if b2 then [c] else [] else []) <= 1)%nat.
Proof.
  intro H. destruct b1, b2; split; cbn [List.length]; try lia;
    repeat constructor; exact H.
Qed.

(** X12: on a list of [n] cuts, [n >= 1], [adjoining_cuts] raises nothing
    and returns between [n - 1] and [n + 1] cuts; none has passes, none
    starts left of the board, and all but the left-edge cut end within the
    board. *)
Theorem adjoining_cuts_shape c0 rest bit board :
  exists out,
    adjoining_cuts (c0 :: rest) bit board = inr out /\
    (List.length rest <= List.length out <= List.length rest + 2)%nat /\
    Forall (fun c => passes c = [] /\ 0 <= xmin c) out /\
    Forall (fun c => 0 < xmin c -> xmax c <= inject_Z (bwidth board)) out.
Proof.
  unfold adjoining_cuts.
  set (off := width_f bit - midline bit).
  set (dh := inject_Z (dheight board)).
  set (w := inject_Z (bwidth board)).
  set (clast := last (c0 :: rest) c0).
  set (L := Cut_init 0 (quantize4 (xmin c0 + off - dh))).
  set (R := Cut_init (Qmax 0 (xmax clast - off + dh)) (Qmin w w)).
  pose proof (inner_cuts_within off dh w (c0 :: rest)) as Hi.
  assert (HR : 0 <= xmin R /\ xmax R <= w).
  { unfold R. cbn [xmin xmax Cut_init]. rewrite Qmin_same. split; [|lra].
    destruct (Qmax_cases 0 (xmax clast - off + dh)) as [[H ->]|[H ->]]; lra. }
  destruct HR as [HR1 HR2].
  eexists. split; [reflexivity|]. split; [|split].
  - rewrite !length_app, length_inner_cuts.
    pose proof (proj2 (edge_cut_shape (Qltb 0 (xmin c0))
                         (Qleb dh (xmin c0 + off - dh - 0)) L
                         (fun _ => True) I)) as H1.
    pose proof (proj2 (edge_cut_shape (Qltb (xmax clast) w)
                         (Qleb dh (w - (xmax clast - off + dh))) R
                         (fun _ => True) I)) as H2.
    fold L R. lia.
  - apply Forall_app. split; [|apply Forall_app; split].
    + apply edge_cut_shape. split; [reflexivity|]. cbn. lra.
    + eapply Forall_impl; [|exact Hi]. cbn. intros c (H1 & H2 & _). auto.
    + apply (edge_cut_shape _ _ R). split; [reflexivity|exact HR1].
  - apply Forall_app. split; [|apply Forall_app; split].
    + apply edge_cut_shape. cbn. intro H. lra.
    + eapply Forall_impl; [|exact Hi]. cbn. intros c (_ & _ & H) _. exact H.
    + apply (edge_cut_shape _ _ R). intros _. exact HR2.
Qed.

(* ------------------------------------------------------------------ *)
(** ** Cut: the order of the passes *)

Lemma sorted_leb_le l :
  StronglySorted (fun x y => is_true (ZOrder.leb x y)) l ->
  StronglySorted Z.le l.
Proof.
  induction 1 as [|x l Hl IH Hx]; constructor; [exact IH|].
  eapply Forall_impl; [|exact Hx]. intros y Hy.
  now apply Z.leb_le in Hy.
Qed.

(** X13: a successful [make_router_passes] keeps the bounds of the cut and
    leaves its passes in ascending order. *)
Theorem make_router_passes_sorted math_round bit board c fuel c' :
  make_router_passes math_round bit board c fuel = Some (inr c') ->
  xmin c' = xmin c /\ xmax c' = xmax c /\
  StronglySorted Z.le (passes c').
Proof.
  intro H.
  pose proof (make_router_passes_ok _ _ _ _ _ H) as (_ & Hmin & Hmax & _).
  split; [exact Hmin|]. split; [exact Hmax|].
  revert H. unfold make_router_passes.
  destruct (validate c bit board) as [e|[]]; [discriminate|].
  destruct (passes_loop _ _ _ _ _ _) as [ps|]; [|discriminate].
  destruct (existsb _ _); [discriminate|].
  intro H. injection H as <-. cbn [passes].
  assert (Hs : StronglySorted (fun x y => is_true (ZOrder.leb x y))
                 (ZSort.sort ps)).
  { apply ZSort.StronglySorted_sort.
    intros x y z H1 H2. unfold is_true, ZOrder.leb in *.
    apply Z.leb_le in H1, H2. apply Z.leb_le. lia. }
  now apply sorted_leb_le.
Qed.

Lemma make_router_passes_sorted_witness :
  xmin {| xmin := 10; xmax := 110;
          passes := [22; 46; 70; 94; 98]%Z |} = 10 /\
  xmax {| xmin := 10; xmax := 110;
          passes := [22; 46; 70; 94; 98]%Z |} = 110 /\
  StronglySorted Z.le [22; 46; 70; 94; 98]%Z.
Proof.
  apply (@make_router_passes_sorted round_half_up
           (Router_Bit_init ideal_numerics 24 32 0 100) (plain_board 240 0)
           (Cut_init 10 110) 20).
  reflexivity.
Defined.

Lemma make_router_passes_returns_witness :
  exists fuel r,
    make_router_passes round_half_up straight24 (plain_board 240 0)
      (Cut_init 10 110) fuel = Some r.
Proof.
  apply (@make_router_passes_returns round_half_up straight24
           (plain_board 240 0) (Cut_init 10 110) 98);
    first [reflexivity | discriminate].
Defined.

(* ------------------------------------------------------------------ *)
(** ** Board: the outline *)

(** A [Board] with the attributes it inherits from [My_Rectangle]; its
    width is [bwidth] of the board. *)
Record Placed_Board : Type := {
  board : Board;
  xOrg : Q;
  yOrg : Q;
  height : Q
}.

(** [My_Rectangle.xL], [xR], [yB] and [yT] of a board. *)
Definition xL (self : Placed_Board) : Q := xOrg self.
Definition xR (self : Placed_Board) : Q :=
  xOrg self + inject_Z (bwidth (board self)).
Definition yB (self : Placed_Board) : Q := yOrg self.
Definition yT (self : Placed_Board) : Q := yOrg self + height self.

Section Outline.

Variable self : Placed_Board.
Variable bit : Router_Bit.

(** The loop of [Board._do_cuts]: the vertices of the cuts are appended to
    [x] and [y]; [x[0]] raises [IndexError] on an empty list. *)
Fixpoint do_cuts_loop (cuts : list Cut) (y_nocut y_cut : Q)
  (x y : list Q) : result (list Q * list Q) :=
  let halfgap := gap bit / 2 in
  let overhang := 2 * overhang bit in
  match cuts with
  | [] => inr (x, y)
  | c :: rest =>
      let r :=
        if Qltb 0 (xmin c) then
          match x with
          | [] => inl IndexError
          | x0 :: _ =>
              inr (x ++ [xmin c + x0 + overhang - halfgap], y ++ [y_nocut])
          end
        else inr (x, y) in
      match r with
      | inl e => inl e
      | inr (x, y) =>
          let x := x ++ [xmin c + xL self - halfgap] in
          let y := y ++ [y_cut] in
          let x := x ++ [xmax c + xL self + halfgap] in
          let y := y ++ [y_cut] in
          let '(x, y) :=
            if Qltb (xmax c) (inject_Z (bwidth (board self)))
            then (x ++ [xmax c + xL self - overhang + halfgap],
                  y ++ [y_nocut])
            else (x, y) in
          do_cuts_loop rest y_nocut y_cut x y
      end
  end.

(** [Board._do_cuts]. *)
Definition do_cuts (cuts : list Cut) (y_nocut y_cut : Q)
  : result (list Q * list Q) :=
  match cuts with
  | [] => inl IndexError
  | c0 :: _ =>
      let '(x, y) :=
        if Qltb 0 (xmin c0) then ([xL self], [y_nocut]) else ([], []) in
      match do_cuts_loop cuts y_nocut y_cut x y with
      | inl e => inl e
      | inr (x, y) =>
          if Qltb (xmax (last cuts c0)) (inject_Z (bwidth (board self)))
          then inr (x ++ [xL self + inject_Z (bwidth (board self))],
                    y ++ [y_nocut])
          else inr (x, y)
      end
  end.

(** One edge of [Board.do_all_cuts]: flat where the board has no cuts. *)
Definition do_edge (cuts : option (list Cut)) (y_nocut y_cut : Q)
  : result (list Q * list Q) :=
  match cuts with
  | None => inr ([xL self; xR self], [y_nocut; y_nocut])
  | Some cs => do_cuts cs y_nocut y_cut
  end.

(** [Board.do_all_cuts]: [((xtop, ytop), (xb, yb))]. *)
Definition do_all_cuts
  : result ((list Q * list Q) * (list Q * list Q)) :=
  match do_edge (top_cuts (board self)) (yT self) (yT self - depth bit) with
  | inl e => inl e
  | inr top =>
      match do_edge (bottom_cuts (board self)) (yB self)
              (yB self + depth bit) with
      | inl e => inl e
      | inr bottom => inr (top, bottom)
      end
  end.

(** [Board.perimeter]. *)
Definition perimeter : result (list Q * list Q) :=
  match do_all_cuts with
  | inl e => inl e
  | inr ((x, y), (xb, yb)) =>
      let x := x ++ rev xb in
      let y := y ++ rev yb in
      match x, y with
      | x0 :: _, y0 :: _ => inr (x ++ [x0], y ++ [y0])
      | _, _ => inl IndexError
      end
  end.

End Outline.


(** The loop of [_do_cuts] on a non-empty list never fails: it extends both
    lists by the same number of points. *)
Lemma do_cuts_loop_extends self bit cuts y_nocut y_cut x0 x y :
  exists xs ys,
    do_cuts_loop self bit cuts y_nocut y_cut (x0 :: x) y
      = inr (x0 :: x ++ xs, y ++ ys)
    /\ List.length xs = List.length ys.
Proof.
  revert x y. induction cuts as [|c rest IH]; intros x y.
  - exists [], []. cbn. rewrite !app_nil_r. auto.
  - cbn [do_cuts_loop].
    destruct (Qltb 0 (xmin c)); cbv iota beta;
      destruct (Qltb (xmax c) (inject_Z (bwidth (board self))));
      cbn [app]; rewrite <- ?app_assoc; cbn [app];
      match goal with
      | |- context [do_cuts_loop _ _ _ _ _ (x0 :: x ++ ?a) (y ++ ?b)] =>
          destruct (IH (x ++ a) (y ++ b)) as (xs & ys & E & L);
          rewrite E; exists (a ++ xs), (b ++ ys);
          rewrite <- !app_assoc; split; [reflexivity|];
          rewrite !length_app; cbn [List.length]; lia
      end.
Qed.

(** The first vertex of an edge with cuts: the corner of the board, or the
    bottom of the first cut where that cut starts at the left edge. *)
Definition first_vertex (self : Placed_Board) (bit : Router_Bit) (c0 : Cut)
  (y_nocut y_cut : Q) : Q * Q :=
  if Qltb 0 (xmin c0) then (xL self, y_nocut)
  else (xmin c0 + xL self - gap bit / 2, y_cut).

Lemma do_cuts_nonempty self bit c0 rest y_nocut y_cut :
  exists xs ys,
    do_cuts self bit (c0 :: rest) y_nocut y_cut
      = inr (fst (first_vertex self bit c0 y_nocut y_cut) :: xs,
             snd (first_vertex self bit c0 y_nocut y_cut) :: ys)
    /\ List.length xs = List.length ys.
Proof.
  unfold do_cuts, first_vertex.
  set (lastc := last (c0 :: rest) c0).
  destruct (Qltb 0 (xmin c0)) eqn:E0.
  - destruct (do_cuts_loop_extends self bit (c0 :: rest) y_nocut y_cut
                (xL self) [] [y_nocut]) as (xs & ys & E & L).
    cbn [app] in E. rewrite E. cbn [fst snd].
    destruct (Qltb (xmax lastc) _).
    + exists (xs ++ [xL self + inject_Z (bwidth (board self))]),
        (ys ++ [y_nocut]).
      split; [reflexivity|]. rewrite !length_app. cbn. lia.
    + exists xs, ys. split; [reflexivity|]. exact L.
  - cbn [do_cuts_loop]. rewrite E0. cbv iota beta. cbn [app fst snd].
    set (x1 := if Qltb (xmax c0) _ then _ else _).
    assert (Hx1 : exists a b, x1 = ((xmin c0 + xL self - gap bit / 2) :: a,
                                    y_cut :: b)
                              /\ List.length a = List.length b).
    { subst x1. destruct (Qltb (xmax c0) _); eexists _, _; split;
        try reflexivity; reflexivity. }
    destruct Hx1 as (a & b & -> & Lab).
    destruct (do_cuts_loop_extends self bit rest y_nocut y_cut
                (xmin c0 + xL self - gap bit / 2) a (y_cut :: b))
      as (xs & ys & E & L).
    rewrite E. cbn [app].
    destruct (Qltb (xmax lastc) _).
    + eexists _, _. split; [reflexivity|].
      cbn [List.length]; rewrite ?length_app; cbn [List.length];
        rewrite ?length_app; cbn [List.length]; lia.
    + eexists _, _. split; [reflexivity|].
      cbn [List.length]; rewrite ?length_app; lia.
Qed.

(** Does [perimeter] get through an edge: an edge without cuts, or with a
    non-empty list of them. *)
Definition first_cut (cuts : option (list Cut)) : option (option Cut) :=
  match cuts with
  | None => Some None
  | Some [] => None
  | Some (c0 :: _) => Some (Some c0)
  end.

(** X15: [Board.perimeter] raises [IndexError] exactly when an edge of the
    board holds an empty list of cuts; otherwise it returns a closed polygon,
    as many x as y coordinates, the last vertex being the first again.  The
    first vertex is the top-left corner of the board, unless the first top
    cut starts at the left edge: then it is the bottom of that cut. *)
Theorem perimeter_closed (self : Placed_Board) (bit : Router_Bit) :
  match first_cut (top_cuts (board self)),
        first_cut (bottom_cuts (board self)) with
  | Some top, Some _ =>
      exists xs ys,
        let '(x0, y0) :=
          match top with
          | None => (xL self, yT self)
          | Some c0 =>
              first_vertex self bit c0 (yT self) (yT self - depth bit)
          end in
        perimeter self bit = inr (x0 :: xs ++ [x0], y0 :: ys ++ [y0])
        /\ List.length xs = List.length ys
  | _, _ => perimeter self bit = inl IndexError
  end.
Proof.
  unfold perimeter, do_all_cuts, first_cut.
  destruct (top_cuts (board self)) as [[|t0 trest]|];
    destruct (bottom_cuts (board self)) as [[|b0 brest]|];
    cbn [do_edge]; try reflexivity.
  - destruct (do_cuts_nonempty self bit t0 trest (yT self)
                (yT self - depth bit)) as (xs & ys & -> & L).
    reflexivity.
  - destruct (do_cuts_nonempty self bit t0 trest (yT self)
                (yT self - depth bit)) as (xs & ys & -> & L).
    destruct (do_cuts_nonempty self bit b0 brest (yB self)
                (yB self + depth bit)) as (xb & yb & -> & Lb).
    destruct (first_vertex self bit t0 (yT self) (yT self - depth bit))
      as [x0 y0]. cbn [fst snd app].
    eexists _, _. split; [reflexivity|].
    rewrite !length_app, !length_rev. cbn [List.length]. lia.
  - destruct (do_cuts_nonempty self bit t0 trest (yT self)
                (yT self - depth bit)) as (xs & ys & -> & L).
    destruct (first_vertex self bit t0 (yT self) (yT self - depth bit))
      as [x0 y0]. cbn [fst snd app].
    eexists _, _. split; [reflexivity|].
    rewrite !length_app. cbn. lia.
  - destruct (do_cuts_nonempty self bit b0 brest (yB self)
                (yB self + depth bit)) as (xb & yb & -> & Lb).
    cbn [app].
    eexists (_ :: _), (_ :: _). split; [reflexivity|].
    cbn [List.length]. rewrite !length_rev. cbn [List.length]. lia.
  - cbn. eexists [_; _; _], [_; _; _]. split; reflexivity.
Qed.

(** The four vertices that one cut contributes, for a list starting at
    [x0]. *)
Definition cut_vertices (self : Placed_Board) (bit : Router_Bit) (x0 : Q)
  (c : Cut) : list Q :=
  [xmin c + x0 + 2 * overhang bit - gap bit / 2;
   xmin c + xL self - gap bit / 2;
   xmax c + xL self + gap bit / 2;
   xmax c + xL self - 2 * overhang bit + gap bit / 2].

Lemma do_cuts_loop_forall (Px Py : Q -> Prop) self bit cuts y_nocut y_cut :
  Py y_nocut -> Py y_cut ->
  forall x0 x y,
  Forall (fun c => Forall Px (cut_vertices self bit x0 c)) cuts ->
  Forall Px (x0 :: x) -> Forall Py y ->
  exists x' y',
    do_cuts_loop self bit cuts y_nocut y_cut (x0 :: x) y = inr (x0 :: x', y')
    /\ Forall Px (x0 :: x') /\ Forall Py y'.
Proof.
  intros Hn Hc x0. induction cuts as [|c rest IH]; intros x y Hcs Hx Hy.
  - exists x, y. auto.
  - inversion Hcs as [|? ? Hv Hrest]; subst.
    unfold cut_vertices in Hv.
    inversion Hv as [|? ? P1 Hv1]; subst.
    inversion Hv1 as [|? ? P2 Hv2]; subst.
    inversion Hv2 as [|? ? P3 Hv3]; subst.
    inversion Hv3 as [|? ? P4 _]; subst.
    cbn [do_cuts_loop].
    destruct (Qltb 0 (xmin c)); cbv iota beta;
      destruct (Qltb (xmax c) (inject_Z (bwidth (board self))));
      cbn [app]; rewrite <- ?app_assoc; cbn [app];
      match goal with
      | |- context [do_cuts_loop _ _ _ _ _ (x0 :: x ++ ?a) (y ++ ?b)] =>
          apply (IH (x ++ a) (y ++ b) Hrest);
          [ rewrite app_comm_cons; apply Forall_app; split;
            [exact Hx | repeat (constructor; [assumption|]); constructor]
          | apply Forall_app; split;
            [exact Hy | repeat (constructor; [assumption|]); constructor] ]
      end.
Qed.

(** The cuts of an edge lie on the board, [0 <= xmin <= xmax <= width] for
    each of a non-empty list; or the edge has no cuts at all. *)
Definition cut_on_board (w : Z) (c : Cut) : bool :=
  Qleb 0 (xmin c) && Qleb (xmin c) (xmax c) && Qleb (xmax c) (inject_Z w).

Definition edge_on_board (w : Z) (cuts : option (list Cut)) : bool :=
  match cuts with
  | None => true
  | Some [] => false
  | Some cs => forallb (cut_on_board w) cs
  end.

Definition in_x (self : Placed_Board) (v : Q) : Prop :=
  xL self <= v /\ v <= xR self.

Definition in_y (self : Placed_Board) (v : Q) : Prop :=
  yB self <= v /\ v <= yT self.

Lemma cut_on_board_bounds w c :
  cut_on_board w c = true ->
  0 <= xmin c /\ xmin c <= xmax c /\ xmax c <= inject_Z w.
Proof.
  unfold cut_on_board. intros H.
  apply andb_true_iff in H. destruct H as [H H3].
  apply andb_true_iff in H. destruct H as [H1 H2].
  repeat split; apply Qleb_le; assumption.
Qed.

Lemma do_cuts_inside self bit c0 rest y_nocut y_cut :
  gap bit == 0 -> overhang bit == 0 ->
  forallb (cut_on_board (bwidth (board self))) (c0 :: rest) = true ->
  in_y self y_nocut -> in_y self y_cut ->
  exists x y,
    do_cuts self bit (c0 :: rest) y_nocut y_cut = inr (x, y)
    /\ Forall (in_x self) x /\ Forall (in_y self) y.
Proof.
  intros Hg Ho Hcs Hn Hc.
  assert (Hall : forall c, In c (c0 :: rest) ->
            0 <= xmin c /\ xmin c <= xmax c
            /\ xmax c <= inject_Z (bwidth (board self))).
  { intros c Hin. rewrite forallb_forall in Hcs.
    apply cut_on_board_bounds, Hcs, Hin. }
  destruct (Hall c0 (or_introl eq_refl)) as (H01 & H02 & H03).
  assert (Hvert : forall x0, x0 == xL self ->
            Forall (fun c => Forall (in_x self) (cut_vertices self bit x0 c))
              (c0 :: rest)).
  { intros x0 Hx0. apply Forall_forall. intros c Hin.
    destruct (Hall c Hin) as (H1 & H2 & H3).
    assert (Hhg : gap bit / 2 == 0) by (rewrite Hg; reflexivity).
    unfold cut_vertices, in_x, xR, xL in *.
    revert Hhg. generalize (gap bit / 2). intros hg Hhg.
    repeat (constructor; [split; lra|]). constructor. }
  assert (Hcorner : in_x self (xL self)) by (unfold in_x, xR, xL; lra).
  assert (Hright : in_x self (xL self + inject_Z (bwidth (board self))))
    by (unfold in_x, xR, xL; lra).
  unfold do_cuts. set (lastc := last (c0 :: rest) c0).
  destruct (Qltb 0 (xmin c0)) eqn:E0.
  - destruct (@do_cuts_loop_forall (in_x self) (in_y self) self bit
                (c0 :: rest) y_nocut y_cut Hn Hc (xL self) [] [y_nocut])
      as (x' & y' & -> & Hx & Hy).
    + apply Hvert. reflexivity.
    + constructor; [exact Hcorner | constructor].
    + constructor; [exact Hn | constructor].
    + destruct (Qltb (xmax lastc) _); eexists _, _;
        (split; [reflexivity|]); split; trivial.
      * rewrite ?app_comm_cons. apply Forall_app. split; trivial.
        constructor; [exact Hright | constructor].
      * apply Forall_app. split; trivial.
        constructor; [exact Hn | constructor].
  - apply Qltb_ge in E0.
    assert (Hx0 : xmin c0 + xL self - gap bit / 2 == xL self).
    { rewrite Hg. unfold Qdiv. rewrite Qmult_0_l.
      assert (xmin c0 == 0) by lra. lra. }
    pose proof (Hvert _ Hx0) as Hv.
    inversion Hv as [|? ? Hv0 Hvrest]; subst.
    unfold cut_vertices in Hv0.
    inversion Hv0 as [|? ? P1 Hv1]; subst.
    inversion Hv1 as [|? ? P2 Hv2]; subst.
    inversion Hv2 as [|? ? P3 Hv3]; subst.
    inversion Hv3 as [|? ? P4 _]; subst.
    cbn [do_cuts_loop].
    replace (Qltb 0 (xmin c0)) with false
      by (symmetry; unfold Qltb; apply negb_false_iff;
          apply Qle_bool_iff; exact E0).
    cbv iota beta. cbn [app].
    set (x1 := if Qltb (xmax c0) _ then _ else _).
    assert (Hx1 : exists a b,
               x1 = ((xmin c0 + xL self - gap bit / 2) :: a, b)
               /\ Forall (in_x self) a /\ Forall (in_y self) b).
    { subst x1. destruct (Qltb (xmax c0) _); eexists _, _;
        (split; [reflexivity|]); split;
        repeat (constructor; [assumption|]); constructor. }
    destruct Hx1 as (a & b & -> & Ha & Hb).
    destruct (@do_cuts_loop_forall (in_x self) (in_y self) self bit
                rest y_nocut y_cut Hn Hc
                (xmin c0 + xL self - gap bit / 2) a b Hvrest)
      as (x' & y' & -> & Hx & Hy).
    + constructor; assumption.
    + exact Hb.
    + destruct (Qltb (xmax lastc) _); eexists _, _;
        (split; [reflexivity|]); split; trivial.
      * rewrite ?app_comm_cons. apply Forall_app. split; trivial.
        constructor; [exact Hright | constructor].
      * apply Forall_app. split; trivial.
        constructor; [exact Hn | constructor].
Qed.

(** X16: with a straight bit (no gap, no overhang) whose depth does not
    exceed the height of the board, and cuts that lie on the board, the
    polygon of [Board.perimeter] stays within the rectangle of the board. *)
Theorem straight_perimeter_inside (self : Placed_Board) (bit : Router_Bit) :
  gap bit == 0 -> overhang bit == 0 ->
  0 <= depth bit -> depth bit <= height self ->
  (0 <= bwidth (board self))%Z ->
  edge_on_board (bwidth (board self)) (top_cuts (board self)) = true ->
  edge_on_board (bwidth (board self)) (bottom_cuts (board self)) = true ->
  exists x y,
    perimeter self bit = inr (x, y)
    /\ Forall (in_x self) x /\ Forall (in_y self) y.
Proof.
  intros Hg Ho Hd0 Hd1 Hw Ht Hb.
  assert (Hw' : 0 <= inject_Z (bwidth (board self))).
  { change 0 with (inject_Z 0). rewrite <- Zle_Qle. exact Hw. }
  assert (HyT : in_y self (yT self)) by (unfold in_y, yT, yB; lra).
  assert (HyB : in_y self (yB self)) by (unfold in_y, yT, yB; lra).
  assert (HyTc : in_y self (yT self - depth bit))
    by (unfold in_y, yT, yB; lra).
  assert (HyBc : in_y self (yB self + depth bit))
    by (unfold in_y, yT, yB; lra).
  assert (HxL : in_x self (xL self)) by (unfold in_x, xR, xL; lra).
  assert (HxR : in_x self (xR self)) by (unfold in_x, xR, xL; lra).
  assert (Htop : exists x y,
             do_edge self bit (top_cuts (board self)) (yT self)
               (yT self - depth bit) = inr (x, y)
             /\ x <> [] /\ y <> []
             /\ Forall (in_x self) x /\ Forall (in_y self) y).
  { destruct (top_cuts (board self)) as [[|c0 rest]|]; cbn [do_edge].
    - discriminate Ht.
    - destruct (do_cuts_nonempty self bit c0 rest (yT self)
                  (yT self - depth bit)) as (xs & ys & E & _).
      destruct (@do_cuts_inside self bit c0 rest (yT self)
                  (yT self - depth bit) Hg Ho Ht HyT HyTc)
        as (x & y & E' & Hx & Hy).
      rewrite E in E'. exists x, y. rewrite E.
      repeat split; trivial; intros ->; discriminate E'.
    - eexists _, _. split; [reflexivity|].
      repeat split; try discriminate;
        repeat (constructor; [assumption|]); constructor. }
  assert (Hbot : exists x y,
             do_edge self bit (bottom_cuts (board self)) (yB self)
               (yB self + depth bit) = inr (x, y)
             /\ Forall (in_x self) x /\ Forall (in_y self) y).
  { destruct (bottom_cuts (board self)) as [[|c0 rest]|]; cbn [do_edge].
    - discriminate Hb.
    - apply do_cuts_inside; assumption.
    - eexists _, _. split; [reflexivity|].
      split; repeat (constructor; [assumption|]); constructor. }
  destruct Htop as (x & y & Et & Hxn & Hyn & Hx & Hy).
  destruct Hbot as (xb & yb & Eb & Hxb & Hyb).
  unfold perimeter, do_all_cuts. rewrite Et, Eb.
  destruct x as [|x0 x]; [contradiction|].
  destruct y as [|y0 y]; [contradiction|].
  cbn [app]. eexists _, _. split; [reflexivity|].
  split.
  - rewrite !app_comm_cons. repeat (apply Forall_app; split); trivial.
    + apply Forall_rev. exact Hxb.
    + inversion Hx; subst. constructor; [assumption | constructor].
  - rewrite !app_comm_cons. repeat (apply Forall_app; split); trivial.
    + apply Forall_rev. exact Hyb.
    + inversion Hy; subst. constructor; [assumption | constructor].
Qed.

Definition sample_placed : Placed_Board :=
  {| board := with_bottom_cuts [Cut_init 0 24; Cut_init 48 72]
                (plain_board 96 0);
     xOrg := 10; yOrg := 5; height := 48 |}.

Lemma straight_perimeter_inside_witness :
  exists x y,
    perimeter sample_placed straight24 = inr (x, y)
    /\ Forall (in_x sample_placed) x /\ Forall (in_y sample_placed) y.
Proof.
  apply (@straight_perimeter_inside sample_placed straight24);
    first [reflexivity | discriminate].
Defined.

(* ------------------------------------------------------------------ *)
(** ** Board: the setters of width and thickness *)

Definition with_bwidth (w : Z) (self : Placed_Board) : Placed_Board :=
  {| board := {| bwidth := w; dheight := dheight (board self);
                 active := active (board self);
                 bottom_cuts := bottom_cuts (board self);
                 top_cuts := top_cuts (board self) |};
     xOrg := xOrg self; yOrg := yOrg self; height := height self |}.

Definition with_dheight (t : Z) (self : Placed_Board) : Placed_Board :=
  {| board := {| bwidth := bwidth (board self); dheight := t;
                 active := active (board self);
                 bottom_cuts := bottom_cuts (board self);
                 top_cuts := top_cuts (board self) |};
     xOrg := xOrg self; yOrg := yOrg self; height := height self |}.

Definition with_height (h : Q) (self : Placed_Board) : Placed_Board :=
  {| board := board self; xOrg := xOrg self; yOrg := yOrg self;
     height := h |}.

Section BoardSetters.

Variable N : Numerics.
Variable U : Units.

(** [units.string_to_increments(s)] with its default [as_integer=True], an
    [int]; [None] where it raises. *)
Variable increments_of_string : string -> option Z.

(** [utils.my_round]. *)
Variable my_round : Q -> Z.

(** The sum [bit.depth + h] of a number and an [int]. *)
Variable num_add : Q -> Q -> Q.

Local Open Scope monad_scope.

(** The largest width that [Board.set_width_from_string] accepts. *)
Definition maxw : Z := if metric U then 1000 else 32 * 48.

(** [Board.set_width_from_string]. *)
Definition Board_set_width_from_string (s : string) : M Placed_Board unit :=
  width <- try_except (lift (increments_of_string s) TypeError)
             Router_Exception ;;
  if (width <=? 0)%Z || (width >? maxw)%Z then raise Router_Exception else
  modify (with_bwidth width).

(** [Board.set_height]; [dheight] is [None] where the argument is left
    out. *)
Definition Board_set_height (bit : Router_Bit) (dh : option Z)
  : M Placed_Board unit :=
  h <- match dh with
       | None =>
           self <- get ;;
           if (dheight (board self) >? 0)%Z then ret (dheight (board self))
           else ret (my_round (float_mul N (1 # 2) (depth bit)))
       | Some dh => modify (with_dheight dh) ;;; ret dh
       end ;;
  modify (with_height (num_add (depth bit) (inject_Z h))).

(** [Board.set_height_from_string]. *)
Definition Board_set_height_from_string (bit : Router_Bit) (s : string)
  : M Placed_Board unit :=
  t <- try_except (lift (increments_of_string s) TypeError)
         Router_Exception ;;
  if (t <=? 0)%Z then raise Router_Exception else
  Board_set_height bit (Some t).

End BoardSetters.

Section BoardSetterFacts.

Variable N : Numerics.
Variable U : Units.
Variable increments_of_string : string -> option Z.
Variable my_round : Q -> Z.
Variable num_add : Q -> Q -> Q.

Local Notation "'set_width'" :=
  (Board_set_width_from_string U increments_of_string).
Local Notation "'set_thickness'" :=
  (Board_set_height_from_string N increments_of_string my_round num_add).
Local Notation "'set_height'" := (Board_set_height N my_round num_add).


End BoardSetterFacts.

(* ------------------------------------------------------------------ *)
(** ** Board: the triangulation *)

(** The position that Python's [l[i]] addresses: a negative index counts
    from the end. *)
Definition py_index {A} (l : list A) (i : Z) : option nat :=
  let n := Z.of_nat (List.length l) in
  if ((0 <=? i) && (i <? n))%Z then Some (Z.to_nat i)
  else if ((- n <=? i) && (i <? 0))%Z then Some (Z.to_nat (n + i))
  else None.

(** [l[i]]; [IndexError] out of range. *)
Definition getitem {A} (l : list A) (i : Z) : result A :=
  match py_index l i with
  | Some k =>
      match nth_error l k with
      | Some a => inr a
      | None => inl IndexError
      end
  | None => inl IndexError
  end.

Fixpoint update {A} (l : list A) (k : nat) (a : A) : list A :=
  match l, k with
  | [], _ => []
  | _ :: l, O => a :: l
  | b :: l, S k => b :: update l k a
  end.

(** [l[i] = a]; [IndexError] out of range. *)
Definition setitem {A} (l : list A) (i : Z) (a : A) : result (list A) :=
  match py_index l i with
  | Some k => inr (update l k a)
  | None => inl IndexError
  end.

Definition result_bind {A B} (r : result A) (k : A -> result B) : result B :=
  match r with
  | inl e => inl e
  | inr a => k a
  end.

Declare Scope result_scope.
Delimit Scope result_scope with result.
Notation "x <~ m ;; k" := (result_bind m (fun x => k))
  (at level 61, m at next level, right associativity) : result_scope.
Notation "' p <~ m ;; k" := (result_bind m (fun p => k))
  (at level 61, p pattern, m at next level, right associativity)
  : result_scope.

(** The vertices that [Board.triangulate] returns: the list [v], or the
    integer [0] that [v] is initialised with. *)
Inductive Vertices : Type :=
| NoVertices
| VertexList (v : list (Q * Q)).

(** The variables of the loop of [triangulate]: [v], [t], [ic], the index
    that runs along the edge with the cuts ([ibot] for bottom cuts, [itop]
    for top cuts), the index that runs back along the flat edge, and
    [incut]. *)
Definition tri_state : Type :=
  (list (Q * Q) * list (list Z) * Z * Z * Z * bool)%type.

Section Triangulate.

Local Open Scope result_scope.

Variable self : Placed_Board.
Variable bit : Router_Bit.

(** The triangles of one interval, for the index [i] on the edge with the
    cuts and the index [j] on the flat edge: below a cut and between two
    cuts, for bottom cuts and for top cuts. *)
Definition bottom_in_cut (i j : Z) : list (list Z) :=
  [[i - 1; i; j]; [i - 1; j; j + 1]]%Z.

Definition bottom_between (i j : Z) : list (list Z) :=
  [[i - 1; i; i + 1]; [i - 1; i + 1; i - 2];
   [i - 2; i + 1; j]; [i - 2; j; j + 1]]%Z.

Definition top_in_cut (i j : Z) : list (list Z) :=
  [[i - 1; i; j + 1]; [i; j; j + 1]]%Z.

Definition top_between (i j : Z) : list (list Z) :=
  [[i - 2; i + 1; i]; [i - 2; i; i - 1];
   [i + 1; i - 2; j + 1]; [i + 1; j + 1; j]]%Z.

(** The body of the loop of [triangulate].  The two branches of the source
    run the same loop with [ibot] and [itop] exchanged: [y_flat] is the
    ordinate of the edge without cuts, [in_cut] and [between] the triangles
    of the branch. *)
Definition tri_body (xc yc : list Q) (cuts : list Cut) (y_flat : Q)
  (in_cut between : Z -> Z -> list (list Z)) (st : tri_state)
  : result tri_state :=
  let '(v, t, ic, i, j, incut) := st in
  x <~ getitem xc i ;;
  y <~ getitem yc i ;;
  v <~ setitem v i (x, y) ;;
  v <~ (if (i <? Z.of_nat (List.length xc) - 1)%Z then
          x <~ getitem xc (i + 1) ;;
          y <~ getitem yc (i + 1) ;;
          setitem v (i + 1)%Z (x, y)
        else inr v) ;;
  '(v, t, ic) <~
    (if incut then
       c <~ getitem cuts ic ;;
       v <~ setitem v j (xmax c + xL self, y_flat) ;;
       inr (v, t ++ in_cut i j, (ic + 1)%Z)
     else
       v <~ (if (ic <? Z.of_nat (List.length cuts))%Z then
               c <~ getitem cuts ic ;;
               setitem v j (xmin c + xL self, y_flat)
             else setitem v j (xR self, y_flat)) ;;
       inr (v, t ++ between i j, ic)) ;;
  inr (v, t, ic, (i + 2)%Z, (j - 1)%Z, negb incut).

(** [for _ in range(n)]. *)
Fixpoint tri_loop (n : nat) (xc yc : list Q) (cuts : list Cut) (y_flat : Q)
  (in_cut between : Z -> Z -> list (list Z)) (st : tri_state)
  : result tri_state :=
  match n with
  | O => inr st
  | S n =>
      st <~ tri_body xc yc cuts y_flat in_cut between st ;;
      tri_loop n xc yc cuts y_flat in_cut between st
  end.

(** The second half of a branch of [triangulate], from [ntotal] on: the
    list of vertices is allocated and filled by the loop.  [nflat] is
    [ntop] for bottom cuts and [nbot] for top cuts. *)
Definition tri_fill (xc yc : list Q) (cuts : list Cut) (nintervals : Z)
  (incut : bool) (y_flat : Q) (in_cut between : Z -> Z -> list (list Z))
  : result (Vertices * list (list Z)) :=
  let nflat := (nintervals + 1)%Z in
  let ntotal := (nflat + Z.of_nat (List.length xc))%Z in
  let v := repeat (xL self, y_flat) (Z.to_nat ntotal) in
  x0 <~ getitem xc 0 ;;
  y0 <~ getitem yc 0 ;;
  v <~ setitem v 0 (x0, y0) ;;
  x1 <~ getitem xc 1 ;;
  y1 <~ getitem yc 1 ;;
  v <~ setitem v 1 (x1, y1) ;;
  '(v, t, _, _, _, _) <~
    tri_loop (Z.to_nat nintervals) xc yc cuts y_flat in_cut between
      (v, [], 0%Z, 2%Z, (ntotal - 2)%Z, incut) ;;
  inr (VertexList v, t).

(** The first half of a branch of [triangulate]: the edge with the cuts
    lies at [y_nocut], its routed bottom at [y_cut], the other edge at
    [y_flat].  Subscripting [None] raises [TypeError]. *)
Definition tri_edge (cuts : option (list Cut)) (y_nocut y_cut y_flat : Q)
  (in_cut between : Z -> Z -> list (list Z))
  : result (Vertices * list (list Z)) :=
  match cuts with
  | None => inl TypeError
  | Some cuts =>
      '(xc, yc) <~ do_cuts self bit cuts y_nocut y_cut ;;
      let nintervals := (2 * Z.of_nat (List.length cuts) - 1)%Z in
      let incut := true in
      c0 <~ getitem cuts 0 ;;
      '(nintervals, incut, xc, yc) <~
        (if Qltb 0 (xmin c0) then
           x0 <~ getitem xc 0 ;;
           inr ((nintervals + 1)%Z, false, x0 :: xc, y_cut :: yc)
         else inr (nintervals, incut, xc, yc)) ;;
      clast <~ getitem cuts (-1) ;;
      let '(nintervals, xc, yc) :=
        if Qltb (xmax clast) (inject_Z (bwidth (board self)))
        then ((nintervals + 1)%Z,
              xc ++ [inject_Z (bwidth (board self))], yc ++ [y_cut])
        else (nintervals, xc, yc) in
      tri_fill xc yc cuts nintervals incut y_flat in_cut between
  end.

(** [Board.triangulate]. *)
Definition triangulate : result (Vertices * list (list Z)) :=
  let y_top := yT self in
  let y_bot := yB self in
  match top_cuts (board self), bottom_cuts (board self) with
  | None, bottom =>
      tri_edge bottom y_bot (y_bot + depth bit) y_top
        bottom_in_cut bottom_between
  | Some top, None =>
      tri_edge (Some top) y_top (y_top - depth bit) y_bot
        top_in_cut top_between
  | Some _, Some _ => inr (NoVertices, [])
  end.

End Triangulate.


Definition bottom_only (cs : list Cut) : Placed_Board :=
  {| board := with_bottom_cuts cs (plain_board 96 0);
     xOrg := 0; yOrg := 0; height := 48 |}.

(* ------------------------------------------------------------------ *)
(** *** Subscripts in range *)

Lemma py_index_in {A} (l : list A) (i : Z) :
  (0 <= i < Z.of_nat (List.length l))%Z -> py_index l i = Some (Z.to_nat i).
Proof.
  intros H. unfold py_index.
  replace (0 <=? i)%Z with true by lia.
  replace (i <? Z.of_nat (List.length l))%Z with true by lia.
  reflexivity.
Qed.

Lemma getitem_in {A} (l : list A) (i : Z) :
  (0 <= i < Z.of_nat (List.length l))%Z -> exists a, getitem l i = inr a.
Proof.
  intros H. unfold getitem. rewrite (py_index_in l H).
  destruct (nth_error l (Z.to_nat i)) as [a|] eqn:E.
  - exists a. reflexivity.
  - apply nth_error_None in E. lia.
Qed.

Lemma getitem_out {A} (l : list A) (i : Z) :
  (Z.of_nat (List.length l) <= i)%Z -> getitem l i = inl IndexError.
Proof.
  intros H. unfold getitem, py_index.
  replace (i <? Z.of_nat (List.length l))%Z with false by lia.
  replace (i <? 0)%Z with false by lia.
  rewrite !andb_false_r. reflexivity.
Qed.

Lemma length_update {A} (l : list A) (k : nat) (a : A) :
  List.length (update l k a) = List.length l.
Proof.
  revert k. induction l as [|b l IH]; intros [|k]; cbn; auto.
Qed.

Lemma setitem_in {A} (l : list A) (i : Z) (a : A) :
  (0 <= i < Z.of_nat (List.length l))%Z ->
  exists l', setitem l i a = inr l' /\ List.length l' = List.length l.
Proof.
  intros H. unfold setitem. rewrite (py_index_in l H).
  eexists. split; [reflexivity | apply length_update].
Qed.

Lemma getitem_first {A} (a : A) (l : list A) : getitem (a :: l) 0 = inr a.
Proof.
  unfold getitem. rewrite py_index_in by (cbn [List.length]; lia).
  reflexivity.
Qed.

Lemma last_cons_default {A} (l : list A) (c a b : A) :
  last (c :: l) a = last (c :: l) b.
Proof.
  revert c. induction l as [|d l IH]; intros c; [reflexivity|].
  change (last (c :: d :: l) a) with (last (d :: l) a).
  change (last (c :: d :: l) b) with (last (d :: l) b).
  apply IH.
Qed.

Lemma last_nth_error {A} (b : A) (l : list A) :
  nth_error (b :: l) (List.length l) = Some (last (b :: l) b).
Proof.
  revert b. induction l as [|c l IH]; intros b; [reflexivity|].
  cbn [List.length nth_error]. rewrite IH. f_equal.
  change (last (b :: c :: l) b) with (last (c :: l) b).
  apply last_cons_default.
Qed.

Lemma getitem_last {A} (a : A) (l : list A) :
  getitem (a :: l) (-1) = inr (last (a :: l) a).
Proof.
  unfold getitem, py_index.
  assert (H1 : (- Z.of_nat (List.length (a :: l)) <=? -1)%Z = true)
    by (apply Z.leb_le; cbn [List.length]; lia).
  rewrite H1. cbn [andb Z.leb Z.compare Z.ltb].
  replace (Z.to_nat (Z.of_nat (List.length (a :: l)) + -1))
    with (List.length l) by (cbn [List.length]; lia).
  rewrite last_nth_error. reflexivity.
Qed.

(* ------------------------------------------------------------------ *)
(** *** The loop of the triangulation *)

Section TriLoop.

Variable self : Placed_Board.
Variables xc yc : list Q.
Variable cuts : list Cut.
Variable y_flat : Q.
Variables in_cut between : Z -> Z -> list (list Z).

(** The number of vertices. *)
Variable NT : Z.

Local Notation "'L'" := (Z.of_nat (List.length xc)).
Local Notation "'body'" :=
  (tri_body self xc yc cuts y_flat in_cut between).
Local Notation "'loop'" :=
  (fun n => tri_loop self n xc yc cuts y_flat in_cut between).

Hypothesis Hxy : List.length xc = List.length yc.
Hypothesis HNT : (L <= NT)%Z.

Lemma tri_body_ok v t ic i j incut :
  Z.of_nat (List.length v) = NT ->
  (0 <= i < L)%Z -> (0 <= j < NT)%Z -> (0 <= ic)%Z ->
  (incut = true -> (ic < Z.of_nat (List.length cuts))%Z) ->
  exists v',
    body (v, t, ic, i, j, incut)
    = inr (v', t ++ (if incut then in_cut i j else between i j),
           (if incut then ic + 1 else ic)%Z, (i + 2)%Z, (j - 1)%Z,
           negb incut)
    /\ Z.of_nat (List.length v') = NT.
Proof.
  intros Hv Hi Hj Hic Hcut. unfold tri_body.
  destruct (@getitem_in _ xc i Hi) as [x ->].
  destruct (@getitem_in _ yc i) as [y ->]; [rewrite <- Hxy; exact Hi|].
  cbn [result_bind].
  destruct (@setitem_in _ v i (x, y)) as (v1 & -> & Hv1); [lia|].
  cbn [result_bind].
  assert (H2 : exists v2,
             (if (i <? L - 1)%Z
              then result_bind (getitem xc (i + 1))
                     (fun x => result_bind (getitem yc (i + 1))
                        (fun y => setitem v1 (i + 1)%Z (x, y)))
              else inr v1) = inr v2
             /\ List.length v2 = List.length v).
  { destruct (i <? L - 1)%Z eqn:E.
    - destruct (@getitem_in _ xc (i + 1)) as [x' ->]; [lia|].
      destruct (@getitem_in _ yc (i + 1)) as [y' ->]; [rewrite <- Hxy; lia|].
      cbn [result_bind].
      destruct (@setitem_in _ v1 (i + 1) (x', y')) as (v2 & -> & Hv2); [lia|].
      exists v2. split; [reflexivity | congruence].
    - exists v1. split; [reflexivity | exact Hv1]. }
  destruct H2 as (v2 & -> & Hv2). cbn [result_bind].
  destruct incut.
  - destruct (@getitem_in _ cuts ic) as [c ->]; [split; auto|].
    cbn [result_bind].
    destruct (@setitem_in _ v2 j (xmax c + xL self, y_flat))
      as (v3 & -> & Hv3); [lia|].
    cbn [result_bind negb]. exists v3. split; [reflexivity | lia].
  - destruct (ic <? Z.of_nat (List.length cuts))%Z eqn:E.
    + destruct (@getitem_in _ cuts ic) as [c ->]; [lia|].
      cbn [result_bind].
      destruct (@setitem_in _ v2 j (xmin c + xL self, y_flat))
        as (v3 & -> & Hv3); [lia|].
      cbn [result_bind negb]. exists v3. split; [reflexivity | lia].
    + destruct (@setitem_in _ v2 j (xR self, y_flat))
        as (v3 & -> & Hv3); [lia|].
      cbn [result_bind negb]. exists v3. split; [reflexivity | lia].
Qed.

Lemma tri_body_out v t ic i j incut :
  (L <= i)%Z -> body (v, t, ic, i, j, incut) = inl IndexError.
Proof.
  intros Hi. unfold tri_body. rewrite (@getitem_out _ xc i Hi). reflexivity.
Qed.

(** The number of cuts, of intervals ([NI]), and whether the first interval
    is a finger ([a = 1]) or a cut ([a = 0]). *)
Variables n NI a : Z.

Hypothesis Hn : Z.of_nat (List.length cuts) = n.
Hypothesis HNI : (NI <= 2 * n - 1 + a + 1)%Z.
Hypothesis Htotal : (NT = NI + 1 + L)%Z.
Hypothesis Ha : (0 <= a <= 1)%Z.

(** Every index of a triangle of the branch is one of [i - 2 .. i + 1],
    [j] and [j + 1]. *)
Definition local_triangles (f : Z -> Z -> list (list Z)) : Prop :=
  forall i j,
    Forall (Forall (fun z => (i - 2 <= z <= i + 1 \/ z = j \/ z = j + 1)%Z))
      (f i j).

Hypothesis Hin_cut : local_triangles in_cut.
Hypothesis Hbetween : local_triangles between.

Definition in_range (t : list (list Z)) : Prop :=
  Forall (Forall (fun z => (0 <= z < NT)%Z)) t.

(** The state before iteration [k]. *)
Definition tri_inv (k : Z) (st : tri_state) : Prop :=
  let '(v, t, ic, i, j, incut) := st in
  Z.of_nat (List.length v) = NT
  /\ i = (2 + 2 * k)%Z /\ j = (NT - 2 - k)%Z
  /\ (2 * ic = k - a + (if incut then 0 else 1))%Z
  /\ in_range t.

Lemma tri_step k st :
  tri_inv k st -> (0 <= k < NI)%Z -> (2 + 2 * k < L)%Z ->
  exists st', body st = inr st' /\ tri_inv (k + 1) st'.
Proof.
  destruct st as [[[[[v t] ic] i] j] incut].
  intros (Hv & Hi & Hj & Hic & Ht) Hk Hl.
  destruct (@tri_body_ok v t ic i j incut Hv) as (v' & E & Hv');
    try lia.
  { destruct incut; lia. }
  { intros ->. lia. }
  rewrite E. eexists. split; [reflexivity|].
  unfold tri_inv. repeat split; try lia.
  - destruct incut; cbn [negb]; lia.
  - apply Forall_app. split; [exact Ht|].
    assert (Hloc : Forall
              (Forall (fun z => (i - 2 <= z <= i + 1 \/ z = j \/ z = j + 1)%Z))
              (if incut then in_cut i j else between i j))
      by (destruct incut; [apply Hin_cut | apply Hbetween]).
    eapply Forall_impl; [|exact Hloc].
    intros tr Htr. eapply Forall_impl; [|exact Htr].
    cbv beta. intros z Hz. lia.
Qed.

Lemma tri_loop_ok m : forall k st,
  tri_inv k st -> (0 <= k)%Z -> (k + Z.of_nat m <= NI)%Z ->
  (2 * (k + Z.of_nat m) < L \/ m = O)%Z ->
  exists st', loop m st = inr st' /\ tri_inv (k + Z.of_nat m) st'.
Proof.
  induction m as [|m IH]; intros k st Hinv Hk Hm Hl.
  - exists st. split; [reflexivity|].
    replace (k + Z.of_nat 0)%Z with k by lia. exact Hinv.
  - destruct (@tri_step k st Hinv) as (st1 & E1 & Hinv1); try lia.
    cbn [tri_loop]. rewrite E1. cbn [result_bind].
    destruct (IH (k + 1)%Z st1 Hinv1) as (st' & E & Hinv'); try lia.
    exists st'. split; [exact E|].
    replace (k + Z.of_nat (S m))%Z with (k + 1 + Z.of_nat m)%Z by lia.
    exact Hinv'.
Qed.

Lemma tri_loop_out m : forall k st,
  tri_inv k st -> (0 <= k)%Z -> (k + Z.of_nat (S m) <= NI)%Z ->
  (2 * (k + Z.of_nat (S m)) = L)%Z ->
  loop (S m) st = inl IndexError.
Proof.
  induction m as [|m IH]; intros k st Hinv Hk Hm Hl.
  - cbn [tri_loop]. destruct st as [[[[[v t] ic] i] j] incut].
    destruct Hinv as (_ & Hi & _).
    rewrite tri_body_out by lia. reflexivity.
  - destruct (@tri_step k st Hinv) as (st1 & E1 & Hinv1); try lia.
    change (result_bind (body st) (fun st => loop (S m) st)
            = inl IndexError).
    rewrite E1. cbn [result_bind].
    apply (IH (k + 1)%Z st1 Hinv1); lia.
Qed.

End TriLoop.

(* ------------------------------------------------------------------ *)
(** *** Filling the list of vertices *)

Lemma bottom_in_cut_local : local_triangles bottom_in_cut.
Proof.
  intros i j. unfold bottom_in_cut.
  repeat (constructor; [repeat (constructor; [lia|]); constructor|]).
  constructor.
Qed.

Lemma bottom_between_local : local_triangles bottom_between.
Proof.
  intros i j. unfold bottom_between.
  repeat (constructor; [repeat (constructor; [lia|]); constructor|]).
  constructor.
Qed.

Lemma top_in_cut_local : local_triangles top_in_cut.
Proof.
  intros i j. unfold top_in_cut.
  repeat (constructor; [repeat (constructor; [lia|]); constructor|]).
  constructor.
Qed.

Lemma top_between_local : local_triangles top_between.
Proof.
  intros i j. unfold top_between.
  repeat (constructor; [repeat (constructor; [lia|]); constructor|]).
  constructor.
Qed.

(** The outcome of a branch of [triangulate]: a list of vertices with
    triangles whose indices all address it, or [IndexError]. *)
Definition well_indexed (r : result (Vertices * list (list Z))) : Prop :=
  exists v t,
    r = inr (VertexList v, t)
    /\ Forall (Forall (fun z => (0 <= z < Z.of_nat (List.length v))%Z)) t.

Section TriFill.

Variable self : Placed_Board.
Variables xc yc : list Q.
Variable cuts : list Cut.
Variable y_flat : Q.
Variables in_cut between : Z -> Z -> list (list Z).
Variables n a b : Z.

Hypothesis Hxy : List.length xc = List.length yc.
Hypothesis Hn : Z.of_nat (List.length cuts) = n.
Hypothesis Hn1 : (1 <= n)%Z.
Hypothesis Ha : (0 <= a <= 1)%Z.
Hypothesis Hb : (0 <= b <= 1)%Z.
Hypothesis HL :
  (Z.of_nat (List.length xc) = 4 * n - 2 + 3 * a + 3 * b)%Z.
Hypothesis Hin_cut : local_triangles in_cut.
Hypothesis Hbetween : local_triangles between.

Local Notation "'NI'" := (2 * n - 1 + a + b)%Z.
Local Notation "'fill'" :=
  (tri_fill self xc yc cuts NI (a =? 0)%Z y_flat in_cut between).

Lemma tri_fill_start :
  exists v,
    Z.of_nat (List.length v) = (NI + 1 + Z.of_nat (List.length xc))%Z
    /\ fill
       = result_bind
           (tri_loop self (Z.to_nat NI) xc yc cuts y_flat in_cut between
              (v, [], 0%Z, 2%Z,
               (NI + 1 + Z.of_nat (List.length xc) - 2)%Z, (a =? 0)%Z))
           (fun '(v, t, _, _, _, _) => inr (VertexList v, t)).
Proof.
  unfold tri_fill. cbv zeta.
  set (NT := (NI + 1 + Z.of_nat (List.length xc))%Z).
  set (v0 := repeat (xL self, y_flat) (Z.to_nat NT)).
  assert (Hv0 : Z.of_nat (List.length v0) = NT)
    by (subst v0; rewrite repeat_length; lia).
  destruct (@getitem_in _ xc 0) as [x0 ->]; [lia|].
  destruct (@getitem_in _ yc 0) as [y0 ->]; [rewrite <- Hxy; lia|].
  cbn [result_bind].
  destruct (@setitem_in _ v0 0 (x0, y0)) as (v1 & -> & Hv1); [lia|].
  destruct (@getitem_in _ xc 1) as [x1 ->]; [lia|].
  destruct (@getitem_in _ yc 1) as [y1 ->]; [rewrite <- Hxy; lia|].
  cbn [result_bind].
  destruct (@setitem_in _ v1 1 (x1, y1)) as (v2 & -> & Hv2); [lia|].
  cbn [result_bind].
  exists v2. split; [lia | reflexivity].
Qed.

Lemma tri_fill_ok : (1 <= a + b)%Z -> well_indexed fill.
Proof.
  intros Hab. destruct tri_fill_start as (v & Hv & ->).
  set (NT := (NI + 1 + Z.of_nat (List.length xc))%Z) in *.
  destruct (@tri_loop_ok self xc yc cuts y_flat in_cut between NT Hxy
              ltac:(lia) n NI a Hn ltac:(lia) eq_refl Ha Hin_cut Hbetween
              (Z.to_nat NI) 0%Z
              (v, [], 0%Z, 2%Z, (NT - 2)%Z, (a =? 0)%Z))
    as (st' & -> & Hinv).
  - unfold tri_inv. repeat split; try lia.
    + destruct (a =? 0)%Z eqn:E; lia.
    + constructor.
  - lia.
  - lia.
  - left. lia.
  - destruct st' as [[[[[v' t'] ic'] i'] j'] incut'].
    destruct Hinv as (Hv' & _ & _ & _ & Ht').
    cbn [result_bind]. exists v', t'. split; [reflexivity|].
    rewrite Hv'. exact Ht'.
Qed.

Lemma tri_fill_out : a = 0%Z -> b = 0%Z -> fill = inl IndexError.
Proof.
  intros Ha0 Hb0. destruct tri_fill_start as (v & Hv & ->).
  set (NT := (NI + 1 + Z.of_nat (List.length xc))%Z) in *.
  destruct (Z.to_nat NI) as [|m] eqn:Em; [lia|].
  rewrite (@tri_loop_out self xc yc cuts y_flat in_cut between NT Hxy
             ltac:(lia) n NI a Hn ltac:(lia) eq_refl Ha Hin_cut Hbetween
             m 0%Z).
  - reflexivity.
  - unfold tri_inv. repeat split; try lia.
    + destruct (a =? 0)%Z eqn:E; lia.
    + constructor.
  - lia.
  - lia.
  - lia.
Qed.

End TriFill.

(* ------------------------------------------------------------------ *)
(** *** The number of outline points of an edge *)

(** Only the first cut may start at the left edge and only the last may
    reach the right edge: every cut that has a successor ends before the
    right edge, and the successor starts right of the left edge. *)
Fixpoint inner_ends (w : Z) (cuts : list Cut) : bool :=
  match cuts with
  | c :: (c' :: _) as rest =>
      Qltb (xmax c) (inject_Z w) && Qltb 0 (xmin c') && inner_ends w rest
  | _ => true
  end.

Definition count (b : bool) : nat := if b then 1 else 0.

Lemma do_cuts_loop_length self bit y_nocut y_cut rest : forall c x y,
  inner_ends (bwidth (board self)) (c :: rest) = true ->
  (x = [] -> Qltb 0 (xmin c) = false) ->
  exists x' y',
    do_cuts_loop self bit (c :: rest) y_nocut y_cut x y = inr (x', y')
    /\ (List.length x' + 2
        = List.length x + 4 * List.length (c :: rest)
          + count (Qltb 0 (xmin c))
          + count (Qltb (xmax (last (c :: rest) c))
                     (inject_Z (bwidth (board self)))))%nat
    /\ (List.length y' + List.length x = List.length x' + List.length y)%nat.
Proof.
  induction rest as [|c' rest IH]; intros c x y Hends Hx.
  - cbn [do_cuts_loop last List.length].
    destruct (Qltb 0 (xmin c)) eqn:Es.
    + destruct x as [|x0 x]; [specialize (Hx eq_refl); discriminate|].
      destruct (Qltb (xmax c) _); eexists _, _;
        (split; [reflexivity|]);
        repeat (rewrite ?length_app; cbn [List.length count]); lia.
    + destruct (Qltb (xmax c) _); eexists _, _;
        (split; [reflexivity|]);
        repeat (rewrite ?length_app; cbn [List.length count]); lia.
  - cbn [inner_ends] in Hends.
    apply andb_true_iff in Hends. destruct Hends as [Hends Hrest].
    apply andb_true_iff in Hends. destruct Hends as [He Hs'].
    change (last (c :: c' :: rest) c) with (last (c' :: rest) c).
    rewrite (last_cons_default rest c' c c').
    remember (c' :: rest) as rest' eqn:Erest.
    cbn [do_cuts_loop]. rewrite He. subst rest'.
    assert (Hstep : exists x1 y1,
               (if Qltb 0 (xmin c)
                then match x with
                     | [] => inl IndexError
                     | x0 :: _ =>
                         inr (x ++ [xmin c + x0 + 2 * overhang bit
                                     - gap bit / 2], y ++ [y_nocut])
                     end
                else inr (x, y)) = inr (x1, y1)
               /\ List.length x1
                  = (List.length x + count (Qltb 0 (xmin c)))%nat
               /\ List.length y1
                  = (List.length y + count (Qltb 0 (xmin c)))%nat).
    { destruct (Qltb 0 (xmin c)) eqn:Es.
      - destruct x as [|x0 x]; [specialize (Hx eq_refl); discriminate|].
        eexists _, _. split; [reflexivity|].
        rewrite !length_app. cbn [List.length count]. lia.
      - eexists _, _. split; [reflexivity|]. cbn [count]. lia. }
    destruct Hstep as (x1 & y1 & -> & Hx1 & Hy1).
    cbv iota beta.
    match goal with
    | |- context [do_cuts_loop _ _ _ _ _ ?xa ?ya] =>
        destruct (IH c' xa ya Hrest) as (x' & y' & E & Lx & Ly)
    end.
    { intros H. apply (f_equal (@List.length Q)) in H.
      rewrite !length_app in H. cbn [List.length] in H. lia. }
    exists x', y'. split; [exact E|].
    rewrite Hs' in Lx. cbn [count] in Lx.
    repeat (rewrite ?length_app in Lx; rewrite ?length_app in Ly;
            cbn [List.length] in Lx, Ly).
    cbn [List.length]. lia.
Qed.

Lemma do_cuts_length self bit c0 rest y_nocut y_cut :
  inner_ends (bwidth (board self)) (c0 :: rest) = true ->
  exists xc yc,
    do_cuts self bit (c0 :: rest) y_nocut y_cut = inr (xc, yc)
    /\ List.length xc = List.length yc
    /\ (List.length xc + 2
        = 4 * List.length (c0 :: rest)
          + 2 * count (Qltb 0 (xmin c0))
          + 2 * count (Qltb (xmax (last (c0 :: rest) c0))
                         (inject_Z (bwidth (board self)))))%nat.
Proof.
  intros Hends. unfold do_cuts.
  set (lastc := last (c0 :: rest) c0).
  destruct (Qltb 0 (xmin c0)) eqn:Ea.
  - destruct (@do_cuts_loop_length self bit y_nocut y_cut rest c0
                [xL self] [y_nocut] Hends) as (x' & y' & -> & Lx & Ly);
      [discriminate|].
    rewrite Ea in Lx. fold lastc in Lx.
    destruct (Qltb (xmax lastc) _); eexists _, _;
      (split; [reflexivity|]);
      repeat (rewrite ?length_app; cbn [List.length count] in * ); lia.
  - destruct (@do_cuts_loop_length self bit y_nocut y_cut rest c0
                [] [] Hends) as (x' & y' & -> & Lx & Ly);
      [intros _; exact Ea|].
    rewrite Ea in Lx. fold lastc in Lx.
    destruct (Qltb (xmax lastc) _); eexists _, _;
      (split; [reflexivity|]);
      repeat (rewrite ?length_app; cbn [List.length count] in * ); lia.
Qed.

(* ------------------------------------------------------------------ *)
(** *** A branch of the triangulation *)

Lemma tri_edge_outcome self bit c0 rest y_nocut y_cut y_flat
  in_cut between :
  inner_ends (bwidth (board self)) (c0 :: rest) = true ->
  local_triangles in_cut -> local_triangles between ->
  let r := tri_edge self bit (Some (c0 :: rest)) y_nocut y_cut y_flat
             in_cut between in
  if Qltb 0 (xmin c0)
     || Qltb (xmax (last (c0 :: rest) c0)) (inject_Z (bwidth (board self)))
  then well_indexed r
  else r = inl IndexError.
Proof.
  intros Hends Hic Hbt. cbv zeta. unfold tri_edge.
  destruct (@do_cuts_length self bit c0 rest y_nocut y_cut Hends)
    as (xc & yc & -> & Hxy & Hlen).
  cbn [result_bind]. rewrite getitem_first. cbn [result_bind].
  set (n := Z.of_nat (List.length (c0 :: rest))) in *.
  assert (Hn1 : (1 <= n)%Z) by (subst n; cbn [List.length]; lia).
  destruct (Qltb 0 (xmin c0)) eqn:Ea.
  - destruct xc as [|x0 xc]; [cbn [List.length] in Hlen; lia|].
    rewrite getitem_first. cbn [result_bind].
    rewrite getitem_last. cbn [result_bind].
    destruct (Qltb (xmax (last (c0 :: rest) c0)) _) eqn:Eb;
      cbn [count orb] in *.
    + apply (@tri_fill_ok self _ _ (c0 :: rest) y_flat in_cut between
               n 1 1); try lia; try assumption;
        rewrite ?length_app; cbn [List.length] in *; lia.
    + replace (2 * n - 1 + 1)%Z with (2 * n - 1 + 1 + 0)%Z by lia.
      apply (@tri_fill_ok self _ _ (c0 :: rest) y_flat in_cut between
               n 1 0); try lia; try assumption;
        rewrite ?length_app; cbn [List.length] in *; lia.
  - cbn [result_bind].
    rewrite getitem_last. cbn [result_bind].
    destruct (Qltb (xmax (last (c0 :: rest) c0)) _) eqn:Eb;
      cbn [count orb] in *.
    + replace (2 * n - 1 + 1)%Z with (2 * n - 1 + 0 + 1)%Z by lia.
      apply (@tri_fill_ok self _ _ (c0 :: rest) y_flat in_cut between
               n 0 1); try lia; try assumption;
        rewrite ?length_app; cbn [List.length] in *; lia.
    + replace (2 * n - 1)%Z with (2 * n - 1 + 0 + 0)%Z by lia.
      apply (@tri_fill_out self _ _ (c0 :: rest) y_flat in_cut between
               n 0 0); try lia; try assumption;
        rewrite ?length_app; cbn [List.length] in *; lia.
Qed.

(* ------------------------------------------------------------------ *)
(** *** Boards with cuts on one edge *)

(** The cuts of a board that has cuts on exactly one edge. *)
Definition cut_edge (b : Board) : option (list Cut) :=
  match top_cuts b, bottom_cuts b with
  | None, Some cs => Some cs
  | Some cs, None => Some cs
  | _, _ => None
  end.

Lemma triangulate_outcome self bit c0 rest :
  cut_edge (board self) = Some (c0 :: rest) ->
  inner_ends (bwidth (board self)) (c0 :: rest) = true ->
  if Qltb 0 (xmin c0)
     || Qltb (xmax (last (c0 :: rest) c0)) (inject_Z (bwidth (board self)))
  then well_indexed (triangulate self bit)
  else triangulate self bit = inl IndexError.
Proof.
  unfold cut_edge, triangulate. intros Hedge Hends.
  destruct (top_cuts (board self)) as [top|];
    destruct (bottom_cuts (board self)) as [bottom|];
    try discriminate; injection Hedge as ->.
  - apply (@tri_edge_outcome self bit c0 rest (yT self)
             (yT self - depth bit) (yB self) top_in_cut top_between Hends
             top_in_cut_local top_between_local).
  - apply (@tri_edge_outcome self bit c0 rest (yB self)
             (yB self + depth bit) (yT self) bottom_in_cut bottom_between
             Hends bottom_in_cut_local bottom_between_local).
Qed.

(** X18: [Board.triangulate] on a board with cuts on one edge, where only
    the first cut may start at the left edge and only the last may reach
    the right edge.  If the cuts leave a finger at the left or at the right
    end of the edge, the call returns a list of vertices and triangles, and
    every index of every triangle addresses a vertex of the list; no
    subscript of the loop is out of range. *)
Theorem triangulate_well_indexed (self : Placed_Board) (bit : Router_Bit)
  (c0 : Cut) (rest : list Cut) :
  cut_edge (board self) = Some (c0 :: rest) ->
  inner_ends (bwidth (board self)) (c0 :: rest) = true ->
  Qltb 0 (xmin c0)
  || Qltb (xmax (last (c0 :: rest) c0)) (inject_Z (bwidth (board self)))
  = true ->
  exists v t,
    triangulate self bit = inr (VertexList v, t)
    /\ Forall (Forall (fun z => (0 <= z < Z.of_nat (List.length v))%Z)) t.
Proof.
  intros Hedge Hends Hab.
  pose proof (@triangulate_outcome self bit c0 rest Hedge Hends) as H.
  rewrite Hab in H. exact H.
Qed.

Lemma triangulate_well_indexed_witness :
  exists v t,
    triangulate (bottom_only [Cut_init 0 24; Cut_init 48 72]) straight24
    = inr (VertexList v, t)
    /\ Forall (Forall (fun z => (0 <= z < Z.of_nat (List.length v))%Z)) t.
Proof.
  apply (@triangulate_well_indexed
           (bottom_only [Cut_init 0 24; Cut_init 48 72]) straight24
           (Cut_init 0 24) [Cut_init 48 72]); reflexivity.
Defined.

(** X19: on a board with cuts on one edge whose first cut starts at the
    left edge and whose last cut reaches the right edge, [Board.triangulate]
    raises [IndexError]: the last pass of its loop reads [xc] one past the
    end. *)
Theorem triangulate_wall_to_wall (self : Placed_Board) (bit : Router_Bit)
  (c0 : Cut) (rest : list Cut) :
  cut_edge (board self) = Some (c0 :: rest) ->
  inner_ends (bwidth (board self)) (c0 :: rest) = true ->
  Qltb 0 (xmin c0) = false ->
  Qltb (xmax (last (c0 :: rest) c0)) (inject_Z (bwidth (board self)))
  = false ->
  triangulate self bit = inl IndexError.
Proof.
  intros Hedge Hends Ha Hb.
  pose proof (@triangulate_outcome self bit c0 rest Hedge Hends) as H.
  rewrite Ha, Hb in H. exact H.
Qed.

Lemma triangulate_wall_to_wall_witness :
  triangulate (bottom_only [Cut_init 0 24; Cut_init 72 96]) dovetail32
  = inl IndexError.
Proof.
  apply (@triangulate_wall_to_wall
           (bottom_only [Cut_init 0 24; Cut_init 72 96]) dovetail32
           (Cut_init 0 24) [Cut_init 72 96]); reflexivity.
Defined.
